(** * Verification of the Telegram tutor bot's per-user infrastructure

  A shallow embedding of [src/telegram_bot.py]: the sliding-window rate
  limiter ([_rate_limited]), the retrying media download
  ([_download_with_retry]) with the OCR cache of [handle_photo], and the
  tutoring commands ([learn_cmd], [next_cmd], [quiz_cmd], [answer_cmd],
  [progress_cmd], [reset_cmd]) over the [TUTOR_CONTENT] catalog; then
  start-up ([load_state], [BOT_TOKEN], and [load_config] of
  [src/common.py]) and the webhook of [src/whatsapp_bot.py] with the
  helpers [analyze_code] and [ocr_image_url] it shares.

  Python dictionaries are finite maps ([gmap]), deques and lists are
  lists, Python integers are [Z].  Global mutable state is threaded
  explicitly. *)

From Stdlib Require Import ZArith Lia Sorted Ascii String DecimalString.
From Stdlib Require Strings.Byte.
From Stdlib Require DecimalZ DecimalPos.
Abbreviation byte := Byte.byte.
From stdpp Require Import gmap strings list.

Local Open Scope Z_scope.

(** ** 1. The rate limiter *)

Section rate_limiter.
(** Configuration read from the environment at start-up. *)
Variables RATE_LIMIT_WINDOW_S RATE_LIMIT_MAX : Z.

(** [while dq and now - dq[0] > RATE_LIMIT_WINDOW_S: dq.popleft()] *)
Fixpoint popleft_expired (now : Z) (dq : list Z) : list Z :=
  match dq with
  | [] => []
  | t :: rest =>
      if bool_decide (now - t > RATE_LIMIT_WINDOW_S)
      then popleft_expired now rest
      else dq
  end.

(** [_rate_limited(user_id)], with the clock reading [now] of
    [time.time()] passed in, in ticks of the clock.  [rate_limit] is a
    [defaultdict(deque)]:
    reading a missing user creates an empty deque, and the deque is
    mutated in place, so the map entry is rewritten on every path.
    Returns [true] when the call is rejected. *)
Definition _rate_limited (user_id : Z) (now : Z) (rate_limit : gmap Z (list Z))
  : bool * gmap Z (list Z) :=
  let dq := default [] (rate_limit !! user_id) in
  let dq := popleft_expired now dq in
  if bool_decide (Z.of_nat (length dq) >= RATE_LIMIT_MAX)
  then (true, <[user_id := dq]> rate_limit)
  else (false, <[user_id := dq ++ [now]]> rate_limit).

(** A sequence of calls [(user, now)], started from the given windows;
    the second component logs the admitted calls in order. *)
Definition admit_step (s : gmap Z (list Z) * list (Z * Z)) (c : Z * Z)
  : gmap Z (list Z) * list (Z * Z) :=
  let '(limited, rl) := _rate_limited c.1 c.2 s.1 in
  (rl, if limited then s.2 else s.2 ++ [c]).

Definition admit_all (calls : list (Z * Z)) : gmap Z (list Z) * list (Z * Z) :=
  foldl admit_step (∅, []) calls.

(** Timestamps of the admitted calls of one user. *)
Definition accepted_of (u : Z) (log : list (Z * Z)) : list Z :=
  (filter (λ c, c.1 = u) log).*2.

(** The window of a user as stored (empty when never seen). *)
Definition window_of (u : Z) (rl : gmap Z (list Z)) : list Z :=
  default [] (rl !! u).

(** Number of timestamps in the closed interval [[a, a + W]]. *)
Definition count_in (a : Z) (ts : list Z) : nat :=
  length (filter (λ t, a ≤ t ≤ a + RATE_LIMIT_WINDOW_S) ts).

(** The invariant of the windows and the admission log, with [hi] an
    upper bound of the clock readings seen so far. *)
Definition window_inv (hi : Z) (s : gmap Z (list Z) * list (Z * Z)) : Prop :=
  ∀ u,
    StronglySorted Z.le (window_of u s.1)
    ∧ Forall (λ t, t ≤ hi) (window_of u s.1)
    ∧ Z.of_nat (length (window_of u s.1)) ≤ RATE_LIMIT_MAX
    ∧ (∃ older, accepted_of u s.2 = older ++ window_of u s.1
                ∧ Forall (λ t, t < hi - RATE_LIMIT_WINDOW_S) older)
    ∧ ∀ a, Z.of_nat (count_in a (accepted_of u s.2)) ≤ RATE_LIMIT_MAX.

End rate_limiter.


(** ** 2. The tutor: catalog, sessions and commands *)

(** Entries of [TUTOR_CONTENT[lang][level]]. *)
Record module_entry := {
  title : string;
  lesson : string;
  code : string;
  exercises : list string;
  tasks : list string;
}.

Record question := {
  q : string;
  options : list string;
  answer : Z;
}.

Record error_entry := {
  name : string;
  why : string;
  how : string;
  example : string;
}.

Record level_content := {
  modules : list module_entry;
  quiz : list question;
  errors : list error_entry;
}.

(** A value of [tutor_state[user_id]], as [tutor_set] builds it. *)
Record session := {
  lang : string;
  level : Z;
  module_idx : Z;
  quiz_idx : Z;
  score : Z;
}.

(** The in-memory sessions and the snapshot last written to [STATE_FILE]
    ([None] while nothing was written).  A failed write is logged and
    ignored by [save_state]; the model takes every write to succeed. *)
Record tutor_world := {
  tutor_state : gmap Z session;
  state_file : option (gmap Z session);
}.

Definition save_state (w : tutor_world) : tutor_world :=
  {| tutor_state := tutor_state w; state_file := Some (tutor_state w) |}.

Definition set_tutor_state (ts : gmap Z session) (w : tutor_world) : tutor_world :=
  {| tutor_state := ts; state_file := state_file w |}.

Inductive py_exn := KeyError | IndexError.

Inductive result (A : Type) :=
| Ok (a : A)
| Raise (e : py_exn).
Arguments Ok {A} a.
Arguments Raise {A} e.

(** [l[i]] on a Python list: negative indices count from the end, and an
    index outside [-len, len) raises [IndexError]. *)
Definition py_getitem {A : Type} (l : list A) (i : Z) : result A :=
  let n := Z.of_nat (length l) in
  let j := if bool_decide (i < 0) then n + i else i in
  if bool_decide (0 ≤ j < n)
  then match l !! Z.to_nat j with Some x => Ok x | None => Raise IndexError end
  else Raise IndexError.

(** What the bot sends back: one constructor per message template, the
    arguments being the values formatted into it. *)
Inductive quiz_rest :=
| QuizEnd (final_score total : Z)
| QuizNext (next_q : question) (idx total : Z).

Inductive reply :=
| MsgFirstLearn
| MsgFirstLearnQuiz
| MsgLearnUsage
| MsgLevelNotNumber
| MsgLangUnsupported
| MsgLevelUnavailable (l : string)
| MsgConfigured (l : string) (lv : Z)
| MsgModule (m : module_entry) (idx total : Z)
| MsgNoMoreModules
| MsgNoQuiz
| MsgQuiz (qu : question) (idx total : Z)
| MsgAnswerUsage
| MsgAnswerNotNumber
| MsgNoMoreQuestions
| MsgVerdict (correct : bool) (right_choice : Z) (rest : quiz_rest)
| MsgProgress (l : string) (lv : Z) (modules_done modules_total sc : Z)
| MsgReset
| MsgModules (l : string) (lv : Z) (titles : list string)
| MsgErrors (l : string) (lv : Z) (errs : list error_entry).

(** A handler either replies or lets an exception escape to
    [error_handler]. *)
Inductive outcome :=
| Replied (r : reply)
| Raised (e : py_exn).

Inductive command :=
| Learn (args : list string)
| Next
| Quiz
| Answer (args : list string)
| Progress
| Reset
| Modules
| Errors.

Section tutor.
(** The catalog, and the two Python builtins the handlers apply to the
    command arguments ([str.lower] and [int], [None] for [ValueError]). *)
Variable TUTOR_CONTENT : gmap string (gmap Z level_content).
Variable py_lower : string → string.
Variable py_int : string → option Z.

(** [TUTOR_CONTENT[lang][level]]; [None] stands for [KeyError]. *)
Definition content_at (l : string) (lv : Z) : option level_content :=
  TUTOR_CONTENT !! l ≫= λ levels, levels !! lv.

Definition tutor_set (user_id : Z) (l : string) (lv : Z) (w : tutor_world) : tutor_world :=
  save_state
    (set_tutor_state
       (<[user_id := {| lang := l; level := lv; module_idx := 0; quiz_idx := 0; score := 0 |}]>
          (tutor_state w)) w).

(** [tutor_current_module]: [Ok None] is the triple [(None, None, None)]. *)
Definition tutor_current_module (user_id : Z) (ts : gmap Z session)
  : result (option (session * option module_entry * list module_entry)) :=
  match ts !! user_id with
  | None => Ok None
  | Some st =>
      match content_at (lang st) (level st) with
      | None => Raise KeyError
      | Some c =>
          let mods := modules c in
          if bool_decide (module_idx st >= Z.of_nat (length mods))
          then Ok (Some (st, None, mods))
          else match py_getitem mods (module_idx st) with
               | Ok m => Ok (Some (st, Some m, mods))
               | Raise e => Raise e
               end
      end
  end.

Definition tutor_quiz_question (user_id : Z) (ts : gmap Z session)
  : result (option (session * option question * list question)) :=
  match ts !! user_id with
  | None => Ok None
  | Some st =>
      match content_at (lang st) (level st) with
      | None => Raise KeyError
      | Some c =>
          let qz := quiz c in
          if bool_decide (quiz_idx st >= Z.of_nat (length qz))
          then Ok (Some (st, None, qz))
          else match py_getitem qz (quiz_idx st) with
               | Ok qu => Ok (Some (st, Some qu, qz))
               | Raise e => Raise e
               end
      end
  end.

Definition learn_cmd (uid : Z) (args : list string) (w : tutor_world)
  : outcome * tutor_world :=
  match args with
  | a0 :: a1 :: _ =>
      let l := py_lower a0 in
      match py_int a1 with
      | None => (Replied MsgLevelNotNumber, w)
      | Some lv =>
          match TUTOR_CONTENT !! l with
          | None => (Replied MsgLangUnsupported, w)
          | Some levels =>
              match levels !! lv with
              | None => (Replied (MsgLevelUnavailable l), w)
              | Some _ => (Replied (MsgConfigured l lv), tutor_set uid l lv w)
              end
          end
      end
  | _ => (Replied MsgLearnUsage, w)
  end.

Definition next_cmd (uid : Z) (w : tutor_world) : outcome * tutor_world :=
  match tutor_current_module uid (tutor_state w) with
  | Raise e => (Raised e, w)
  | Ok None => (Replied MsgFirstLearn, w)
  | Ok (Some (st, None, mods)) => (Replied MsgNoMoreModules, w)
  | Ok (Some (st, Some m, mods)) =>
      let msg := MsgModule m (module_idx st) (Z.of_nat (length mods)) in
      let st' := {| lang := lang st; level := level st;
                    module_idx := module_idx st + 1;
                    quiz_idx := quiz_idx st; score := score st |} in
      (Replied msg, save_state (set_tutor_state (<[uid := st']> (tutor_state w)) w))
  end.

(** [quiz_cmd] assigns [quiz_idx] and [score] in the session dictionary
    before it looks the first question up. *)
Definition quiz_cmd (uid : Z) (w : tutor_world) : outcome * tutor_world :=
  match tutor_state w !! uid with
  | None => (Replied MsgFirstLearn, w)
  | Some st =>
      let st0 := {| lang := lang st; level := level st;
                    module_idx := module_idx st;
                    quiz_idx := 0; score := 0 |} in
      let w0 := set_tutor_state (<[uid := st0]> (tutor_state w)) w in
      match tutor_quiz_question uid (tutor_state w0) with
      | Raise e => (Raised e, w0)
      | Ok None => (Replied MsgNoQuiz, w0)
      | Ok (Some (_, None, _)) => (Replied MsgNoQuiz, w0)
      | Ok (Some (st2, Some qu, qz)) =>
          (Replied (MsgQuiz qu (quiz_idx st2) (Z.of_nat (length qz))), save_state w0)
      end
  end.

Definition answer_cmd (uid : Z) (args : list string) (w : tutor_world)
  : outcome * tutor_world :=
  match tutor_state w !! uid with
  | None => (Replied MsgFirstLearnQuiz, w)
  | Some st =>
      match args with
      | [] => (Replied MsgAnswerUsage, w)
      | a0 :: _ =>
          match py_int a0 with
          | None => (Replied MsgAnswerNotNumber, w)
          | Some n =>
              let ans := n - 1 in
              match tutor_quiz_question uid (tutor_state w) with
              | Raise e => (Raised e, w)
              | Ok None => (Replied MsgNoMoreQuestions, w)
              | Ok (Some (_, None, _)) => (Replied MsgNoMoreQuestions, w)
              | Ok (Some (_, Some qu, qz)) =>
                  let correct := bool_decide (ans = answer qu) in
                  let st' := {| lang := lang st; level := level st;
                                module_idx := module_idx st;
                                quiz_idx := quiz_idx st + 1;
                                score := if correct then score st + 1 else score st |} in
                  let w' := set_tutor_state (<[uid := st']> (tutor_state w)) w in
                  let total := Z.of_nat (length qz) in
                  if bool_decide (quiz_idx st' >= total)
                  then (Replied (MsgVerdict correct (answer qu + 1) (QuizEnd (score st') total)),
                        save_state w')
                  else match py_getitem qz (quiz_idx st') with
                       | Raise e => (Raised e, w')
                       | Ok next_q =>
                           (Replied (MsgVerdict correct (answer qu + 1)
                                       (QuizNext next_q (quiz_idx st') total)),
                            save_state w')
                       end
              end
          end
      end
  end.

Definition progress_cmd (uid : Z) (w : tutor_world) : outcome * tutor_world :=
  match tutor_state w !! uid with
  | None => (Replied MsgFirstLearn, w)
  | Some st =>
      match content_at (lang st) (level st) with
      | None => (Raised KeyError, w)
      | Some c =>
          let modules_total := Z.of_nat (length (modules c)) in
          let modules_done := Z.min (module_idx st) modules_total in
          (Replied (MsgProgress (lang st) (level st) modules_done modules_total (score st)), w)
      end
  end.

Definition reset_cmd (uid : Z) (w : tutor_world) : outcome * tutor_world :=
  (Replied MsgReset, save_state (set_tutor_state (delete uid (tutor_state w)) w)).

Definition modules_cmd (uid : Z) (w : tutor_world) : outcome * tutor_world :=
  match tutor_state w !! uid with
  | None => (Replied MsgFirstLearn, w)
  | Some st =>
      match content_at (lang st) (level st) with
      | None => (Raised KeyError, w)
      | Some c => (Replied (MsgModules (lang st) (level st) (title <$> modules c)), w)
      end
  end.

Definition errors_cmd (uid : Z) (w : tutor_world) : outcome * tutor_world :=
  match tutor_state w !! uid with
  | None => (Replied MsgFirstLearn, w)
  | Some st =>
      match content_at (lang st) (level st) with
      | None => (Raised KeyError, w)
      | Some c => (Replied (MsgErrors (lang st) (level st) (errors c)), w)
      end
  end.

(** The dispatch of [main]: one handler per command. *)
Definition handle (uid : Z) (c : command) (w : tutor_world) : outcome * tutor_world :=
  match c with
  | Learn args => learn_cmd uid args w
  | Next => next_cmd uid w
  | Quiz => quiz_cmd uid w
  | Answer args => answer_cmd uid args w
  | Progress => progress_cmd uid w
  | Reset => reset_cmd uid w
  | Modules => modules_cmd uid w
  | Errors => errors_cmd uid w
  end.

(** A script of commands by several users: the replies in order and the
    final state. *)
Fixpoint run_script (script : list (Z * command)) (w : tutor_world)
  : list outcome * tutor_world :=
  match script with
  | [] => ([], w)
  | (uid, c) :: rest =>
      let '(o, w1) := handle uid c w in
      let '(os, w2) := run_script rest w1 in
      (o :: os, w2)
  end.

(** The session invariants of the data model, against the catalog. *)
Definition session_ok (st : session) : Prop :=
  ∃ c, content_at (lang st) (level st) = Some c
       ∧ 0 ≤ module_idx st ≤ Z.of_nat (length (modules c))
       ∧ 0 ≤ quiz_idx st ≤ Z.of_nat (length (quiz c))
       ∧ 0 ≤ score st ≤ quiz_idx st.

Definition sessions_ok (w : tutor_world) : Prop :=
  ∀ uid st, tutor_state w !! uid = Some st → session_ok st.

(** A reply to a right answer. *)
Definition right_verdict (o : outcome) : Prop :=
  ∃ r t, o = Replied (MsgVerdict true r t).

(** The statement that a [quiz_cmd] failing for want of questions leaves
    the session of the user as it was. *)
Definition quiz_failure_keeps_session (uid : Z) (w : tutor_world) : Prop :=
  ∀ st c,
    tutor_state w !! uid = Some st →
    content_at (lang st) (level st) = Some c →
    quiz c = [] →
    (quiz_cmd uid w).1 = Replied MsgNoQuiz
    ∧ tutor_state (quiz_cmd uid w).2 !! uid = Some st.

(** The statement that a command lowers neither cursor of any session. *)
Definition cursors_never_decrease (uid : Z) (cmd : command) (w : tutor_world) : Prop :=
  ∀ u st,
    tutor_state w !! u = Some st →
    ∃ st', tutor_state (handle uid cmd w).2 !! u = Some st'
           ∧ module_idx st ≤ module_idx st'
           ∧ quiz_idx st ≤ quiz_idx st'.

(** The replies of [next_cmd] that present the modules [ms] in order,
    the first of them at cursor [i]. *)
Fixpoint module_replies (i total : Z) (ms : list module_entry) : list outcome :=
  match ms with
  | [] => []
  | m :: rest => Replied (MsgModule m i total) :: module_replies (i + 1) total rest
  end.

(** The state before any command, with nothing loaded from [STATE_FILE]. *)
Definition initial_world : tutor_world :=
  {| tutor_state := ∅; state_file := None |}.

End tutor.

(** ** 3. Media: size check, download with retry, OCR cache, handlers *)

(** Exceptions of [telegram.error] as [_download_with_retry] tells them
    apart: [RetryAfter] carries the delay the server asks for,
    [NetworkError] covers its subclasses (time-outs included), and
    [OtherError] is any exception the retry loop does not catch (for
    instance [Forbidden]). *)
Inductive tg_exn :=
| RetryAfter (retry_after : Z)
| NetworkError
| OtherError.

Inductive tg_result (A : Type) :=
| Val (a : A)
| Exc (e : tg_exn).
Arguments Val {A} a.
Arguments Exc {A} e.

(** What the server does on one [download_to_drive] call: how long the
    call takes and how it ends ([Val content] writes [content] to the
    target path). *)
Record transfer := {
  duration : Z;
  ending : tg_result (list byte);
}.

(** The object [get_file()] returns: the declared size ([None] when the
    server gives none) and the behaviour of the successive
    [download_to_drive] calls, by attempt number. *)
Record file_info := {
  file_size : option Z;
  download_to_drive : Z → transfer;
}.

(** A [PhotoSize] or [Document] of the incoming message. *)
Record file_obj := {
  mime_type : option string;
  doc_file_size : option Z;
  get_file : tg_result file_info;
}.

(** The answer of [get_file()] when it does not raise. *)
Definition get_file_info (f : file_obj) : option file_info :=
  match get_file f with
  | Val fi => Some fi
  | Exc _ => None
  end.

(** One transfer attempt as it happened: clock at its start and end. *)
Record attempt_log := {
  attempt_no : Z;
  started : Z;
  ended : Z;
  how_ended : tg_result (list byte);
}.

(** Configuration and external collaborators of the media handlers.
    Sizes in MB are kept in hundredths, the precision of [_mb]
    (the default limit [256] is [25600]).  [ocr_image_path] may answer
    differently from one run to the next: its first argument is the
    number of runs made before. *)
Record media_env := {
  DOWNLOAD_MAX_RETRIES : Z;
  MAX_PHOTO_SIZE_MB : Z;
  MAX_DOC_SIZE_MB : Z;
  MAX_TEXT_CHARS : Z;
  HISTORY_MAX : Z;
  RATE_LIMIT_WINDOW_S : Z;
  RATE_LIMIT_MAX : Z;
  ALLOWED_DOC_MIME : gset string;
  sha256_hexdigest : list byte → string;
  ocr_image_path : nat → list byte → string;
  analyze_code : string → string;
  read_text : list byte → string;
  str_strip : string → string;
  str_lower : string → string;
}.

(** The process state the media handlers touch.  [clock] is the time
    [time.time()] reads; only network transfers let it advance.
    [tmp_files] are the temporary files present on disk, [tmp_count] the
    number of names [NamedTemporaryFile] has handed out. *)
Record media_world := {
  clock : Z;
  rate_limit : gmap Z (list Z);
  user_history : gmap Z (list (string * string));
  ocr_cache : gmap string string;
  ocr_runs : list (list byte);
  tmp_files : gmap nat (list byte);
  tmp_count : nat;
  downloads : list attempt_log;
}.

Inductive media_reply :=
| MsgTooFast
| MsgPhotoLimitOrFailed
| MsgNoTextInImage
| MsgPhotoError
| MsgMimeNotAllowed (mime : string) (size_mb : Z)
| MsgDocLimitOrFailed
| MsgDocEmpty
| MsgDocError
| MsgAnalysis (text : string).

(** State and exception monad of the handlers. *)
Definition M (A : Type) : Type := media_world → tg_result A * media_world.

Global Instance M_ret : MRet M := λ A a w, (Val a, w).
Global Instance M_bind : MBind M := λ A B f c w,
  match c w with
  | (Val a, w') => f a w'
  | (Exc e, w') => (Exc e, w')
  end.

Definition raise {A : Type} (e : tg_exn) : M A := λ w, (Exc e, w).

(** [try: c except Exception as e: ...] with the exception reified. *)
Definition attempt {A : Type} (c : M A) : M (tg_result A) := λ w,
  match c w with
  | (r, w') => (Val r, w')
  end.

Definition gets {A : Type} (f : media_world → A) : M A := λ w, (Val (f w), w).
Definition modify (f : media_world → media_world) : M unit := λ w, (Val (), f w).

(** [_mb(bytes_size)], in hundredths of a MB: [round(x, 2)] rounds the
    quotient to the nearest hundredth, ties to the even one.  The model
    takes the quotient to be exact, which the float division is for
    sizes below [2^53] bytes; from there on the code first rounds the
    size to 53 significant bits, and the two can differ. *)
Definition _mb (bytes_size : Z) : Z :=
  let n := bytes_size * 100 in
  let d := 1024 * 1024 in
  let h := n `div` d in
  let r := n `mod` d in
  if bool_decide (2 * r < d) then h
  else if bool_decide (2 * r > d) then h + 1
  else if Z.even h then h else h + 1.

(** [s[:n]] on a string. *)
Definition py_prefix (n : Z) (s : string) : string :=
  let len := Z.of_nat (String.length s) in
  let k := if bool_decide (n < 0) then Z.max 0 (len + n) else n in
  String.substring 0 (Z.to_nat k) s.

(** [s.split(";")[0]] *)
Fixpoint before_semicolon (s : string) : string :=
  match s with
  | EmptyString => EmptyString
  | String c rest =>
      if bool_decide (c = ";"%char) then EmptyString
      else String c (before_semicolon rest)
  end.

(** [append] on a [deque(maxlen=n)]. *)
Definition deque_append {A : Type} (maxlen : Z) (x : A) (dq : list A) : list A :=
  let l := dq ++ [x] in
  drop (length l - Z.to_nat maxlen)%nat l.

(** The statement that the fetcher waits as long as the server asks:
    after an attempt ended by [RetryAfter T], the next attempt in the log
    starts at least [T] later. *)
Definition honours_retry_after (log : list attempt_log) : Prop :=
  ∀ i a b T,
    log !! i = Some a → log !! S i = Some b →
    how_ended a = Exc (RetryAfter T) →
    ended a + T ≤ started b.

(** The attempts one retry loop logs, for the attempt numbers [attempts]
    entered at clock [t0]: numbered in order, each starting the moment
    the one before ended, going on after [RetryAfter] and [NetworkError]
    while a number is left, and stopping at anything else. *)
Fixpoint retry_chain (t0 : Z) (attempts : list Z) (log : list attempt_log) : Prop :=
  match log, attempts with
  | [], [] => True
  | a :: rest, n :: ns =>
      attempt_no a = n ∧ started a = t0 ∧
      match how_ended a with
      | Exc (RetryAfter _) | Exc NetworkError => retry_chain (ended a) ns rest
      | _ => rest = []
      end
  | _, _ => False
  end.

(** A computation that only ever adds entries to [ocr_cache]. *)
Definition grows_cache {A : Type} (c : M A) : Prop :=
  ∀ w, ocr_cache w ⊆ ocr_cache (c w).2.

Section media.
Variable E : media_env.

Definition _sanitize_text (s : string) : string :=
  let s :=
    if bool_decide (Z.of_nat (String.length s) > MAX_TEXT_CHARS E)
    then (py_prefix (MAX_TEXT_CHARS E) s +:+ "

[Truncado por longitud]")%string
    else s in
  str_strip E s.

Definition _is_mime_allowed (mime : string) : bool :=
  if bool_decide (mime = EmptyString) then false
  else bool_decide (before_semicolon (str_lower E mime) ∈ ALLOWED_DOC_MIME E).

Definition _remember (user_id : Z) (kind text : string) : M unit :=
  modify (λ w,
    {| clock := clock w; rate_limit := rate_limit w;
       user_history :=
         <[user_id := deque_append (HISTORY_MAX E) (kind, py_prefix 500 text)
                        (default [] (user_history w !! user_id))]> (user_history w);
       ocr_cache := ocr_cache w; ocr_runs := ocr_runs w;
       tmp_files := tmp_files w; tmp_count := tmp_count w;
       downloads := downloads w |}).

(** [_rate_limited(user_id)] on the process state: [now = time.time()]. *)
Definition rate_limited (user_id : Z) : M bool := λ w,
  let '(limited, rl) :=
    _rate_limited (RATE_LIMIT_WINDOW_S E) (RATE_LIMIT_MAX E) user_id (clock w)
      (rate_limit w) in
  (Val limited,
   {| clock := clock w; rate_limit := rl; user_history := user_history w;
      ocr_cache := ocr_cache w; ocr_runs := ocr_runs w;
      tmp_files := tmp_files w; tmp_count := tmp_count w;
      downloads := downloads w |}).

(** [tempfile.NamedTemporaryFile(suffix=suffix, delete=False)] followed
    by [tmp.close()]: a fresh empty file that stays on disk. *)
Definition named_temporary_file (suffix : string) : M nat := λ w,
  let p := tmp_count w in
  (Val p,
   {| clock := clock w; rate_limit := rate_limit w; user_history := user_history w;
      ocr_cache := ocr_cache w; ocr_runs := ocr_runs w;
      tmp_files := <[p := []]> (tmp_files w); tmp_count := S p;
      downloads := downloads w |}).

(** [os.remove(tmp_path)] guarded by [Path(tmp_path).exists()]. *)
Definition remove_if_exists (p : nat) : M unit :=
  modify (λ w,
    {| clock := clock w; rate_limit := rate_limit w; user_history := user_history w;
       ocr_cache := ocr_cache w; ocr_runs := ocr_runs w;
       tmp_files := delete p (tmp_files w); tmp_count := tmp_count w;
       downloads := downloads w |}).

(** One [await file_info.download_to_drive(tmp_path, ...)]: time passes,
    the attempt is logged, and on success the content is on disk. *)
Definition download (fi : file_info) (attempt_n : Z) (tmp_path : nat) : M unit := λ w,
  let t := download_to_drive fi attempt_n in
  let finish := clock w + duration t in
  let w' files :=
    {| clock := finish; rate_limit := rate_limit w; user_history := user_history w;
       ocr_cache := ocr_cache w; ocr_runs := ocr_runs w;
       tmp_files := files; tmp_count := tmp_count w;
       downloads := downloads w ++
         [{| attempt_no := attempt_n; started := clock w; ended := finish;
             how_ended := ending t |}] |} in
  match ending t with
  | Val content => (Val (), w' (<[tmp_path := content]> (tmp_files w)))
  | Exc e => (Exc e, w' (tmp_files w))
  end.

(** The [for attempt in range(1, DOWNLOAD_MAX_RETRIES + 1)] loop of
    [_download_with_retry], over the attempt numbers still to come; the
    empty list is the fall-through to the final [return None].  Logging
    is left out. *)
Fixpoint download_loop (fi : file_info) (tmp_path : nat) (attempts : list Z)
  : M (option nat) :=
  match attempts with
  | [] => mret None
  | attempt_n :: rest =>
      r ← attempt (download fi attempt_n tmp_path);
      match r with
      | Val _ => mret (Some tmp_path)
      | Exc (RetryAfter _) => download_loop fi tmp_path rest
      | Exc NetworkError => download_loop fi tmp_path rest
      | Exc e => raise e
      end
  end.

Definition _download_with_retry (f : file_obj) (suffix : string) (max_mb : Z)
  : M (option nat) :=
  match get_file f with
  | Exc e => raise e
  | Val fi =>
      let size_mb := _mb (default 0 (file_size fi)) in
      if bool_decide (size_mb > max_mb) then mret None
      else
        tmp_path ← named_temporary_file suffix;
        download_loop fi tmp_path (seqZ 1 (DOWNLOAD_MAX_RETRIES E))
  end.

(** Lines 973-978 of [handle_photo]: the OCR text of the downloaded file
    through [ocr_cache], keyed by [_hash_file]. *)
Definition ocr_cached (content : list byte) : M string := λ w,
  let file_hash := sha256_hexdigest E content in
  match ocr_cache w !! file_hash with
  | Some extracted => (Val extracted, w)
  | None =>
      let extracted := ocr_image_path E (length (ocr_runs w)) content in
      (Val extracted,
       {| clock := clock w; rate_limit := rate_limit w; user_history := user_history w;
          ocr_cache := <[file_hash := extracted]> (ocr_cache w);
          ocr_runs := ocr_runs w ++ [content];
          tmp_files := tmp_files w; tmp_count := tmp_count w;
          downloads := downloads w |})
  end.

(** The [finally] block of both handlers, on the value the local
    variable [tmp_path] has when control leaves the [try]. *)
Definition finally_remove (tmp_path : option nat) : M unit :=
  match tmp_path with
  | Some p => remove_if_exists p
  | None => mret ()
  end.

Definition file_content (p : nat) : M (list byte) :=
  gets (λ w, default [] (tmp_files w !! p)).

(** [handle_photo]; [None] is a return without a reply.  [tmp_path] is
    bound only when [_download_with_retry] returns: when it raises, the
    [except] branch and the [finally] block see [tmp_path = None].  Chat
    actions and logging are left out; [_reply_safe] is the value
    returned. *)
Definition handle_photo (uid : Z) (photos : list file_obj) : M (option media_reply) :=
  limited ← rate_limited uid;
  if (limited : bool) then mret (Some MsgTooFast)
  else match last photos with
  | None => mret None
  | Some best =>
      r ← attempt (_download_with_retry best ".jpg" (MAX_PHOTO_SIZE_MB E));
      match r with
      | Exc _ => _ ← finally_remove None; mret (Some MsgPhotoError)
      | Val None => _ ← finally_remove None; mret (Some MsgPhotoLimitOrFailed)
      | Val (Some p) =>
          content ← file_content p;
          extracted ← ocr_cached content;
          let extracted := _sanitize_text extracted in
          if bool_decide (str_strip E extracted = EmptyString)
          then _ ← finally_remove (Some p); mret (Some MsgNoTextInImage)
          else
            let analysis := analyze_code E extracted in
            _ ← _remember uid "foto" (py_prefix 200 extracted);
            _ ← finally_remove (Some p);
            mret (Some (MsgAnalysis analysis))
      end
  end.

Definition handle_document (uid : Z) (doc : option file_obj) : M (option media_reply) :=
  limited ← rate_limited uid;
  if (limited : bool) then mret (Some MsgTooFast)
  else match doc with
  | None => mret None
  | Some d =>
      let mime := before_semicolon (str_lower E (default EmptyString (mime_type d))) in
      let size_mb := _mb (default 0 (doc_file_size d)) in
      if negb (_is_mime_allowed mime) then mret (Some (MsgMimeNotAllowed mime size_mb))
      else
        r ← attempt (_download_with_retry d EmptyString (MAX_DOC_SIZE_MB E));
        match r with
        | Exc _ => _ ← finally_remove None; mret (Some MsgDocError)
        | Val None => _ ← finally_remove None; mret (Some MsgDocLimitOrFailed)
        | Val (Some p) =>
            bytes ← file_content p;
            let content := _sanitize_text (read_text E bytes) in
            if bool_decide (str_strip E content = EmptyString)
            then _ ← finally_remove (Some p); mret (Some MsgDocEmpty)
            else
              let analysis := analyze_code E content in
              _ ← _remember uid "documento" (py_prefix 200 content);
              _ ← finally_remove (Some p);
              mret (Some (MsgAnalysis analysis))
        end
  end.

Definition handle_text (uid : Z) (message_text : string) : M (option media_reply) :=
  limited ← rate_limited uid;
  if (limited : bool) then mret (Some MsgTooFast)
  else
    let text := _sanitize_text message_text in
    if bool_decide (text = EmptyString) then mret None
    else
      let analysis := analyze_code E text in
      _ ← _remember uid "texto" text;
      mret (Some (MsgAnalysis analysis)).

End media.

(** ** 4. Concrete data: an excerpt of the catalog and of the builtins *)

(** [TUTOR_CONTENT["python"][0]] *)
Definition python_0 : level_content := {|
  modules := [
    {| title := "Variables y tipos"; lesson := "int/float/str/bool, print, f-strings";
       code := "name='Ada'; age=30; print(f'Hola {name}, {age}')";
       exercises := ["Declara 3 vars y muéstralas"; "Concatena str + número convirtiendo tipo"];
       tasks := ["Script que pida nombre/edad y diga edad+5"] |};
    {| title := "Control de flujo"; lesson := "if/elif/else, comparaciones, bool";
       code := "x=7
if x>10: print('grande')
elif x>=5: print('mediano')
else: print('pequeño')";
       exercises := ["Par/impar"; "Signo de un número"];
       tasks := ["Calculadora +,-,*,/ con manejo de /0"] |};
    {| title := "Bucles y colecciones"; lesson := "for/while, listas, dict, range, len, append";
       code := "nums=[1,2,3]
for n in nums: print(n)
for k,v in {'a':1}.items(): print(k,v)";
       exercises := ["Suma lista"; "Contar letras en string"];
       tasks := ["Aplicar 10% descuento a precios y totalizar"] |};
    {| title := "Funciones"; lesson := "def, params, return, scope básico";
       code := "def area(r): return 3.1416*r*r
print(area(3))";
       exercises := ["Max de 3 números"; "Filtrar pares de lista"];
       tasks := ["Validador de contraseña: >=8, 1 número, 1 letra -> True/False"] |}
  ];
  quiz := [
    {| q := "len('hola') ="; options := ["3"; "4"; "5"]; answer := 1 |};
    {| q := "if 5>3: print('ok') imprime"; options := ["nada"; "ok"; "error"]; answer := 1 |};
    {| q := "[n for n in [1,2,3] if n%2]==?"; options := ["[1,3]"; "[2]"; "[]"]; answer := 0 |}
  ];
  errors := [
    {| name := "SyntaxError"; why := "Falta : comillas o paréntesis";
       how := "Revisar línea previa e identación"; example := "if x>3 print(x)" |};
    {| name := "NameError"; why := "Variable no definida";
       how := "Definir antes, revisar typos"; example := "pritn(x)" |};
    {| name := "TypeError"; why := "Operación con tipos incompatibles";
       how := "Convertir tipos o ajustar operación"; example := "'a'+1" |}
  ];
|}.

(** [TUTOR_CONTENT["javascript"][0]]: one module and no quiz. *)
Definition javascript_0 : level_content := {|
  modules := [
    {| title := "Hola mundo y let/const"; lesson := "console.log, variables";
       code := "const n='Ada'; let a=30;";
       exercises := ["Declara 3 vars"]; tasks := ["Pedir nombre y saludar"] |}
  ];
  quiz := [];
  errors := [];
|}.

Definition catalog_excerpt : gmap string (gmap Z level_content) :=
  {[ "python"%string := {[ 0 := python_0 ]};
     "javascript"%string := {[ 0 := javascript_0 ]} ]}.

(** [str.lower] on ASCII letters. *)
Fixpoint ascii_lower (s : string) : string :=
  match s with
  | EmptyString => EmptyString
  | String c rest =>
      let n := nat_of_ascii c in
      String (if bool_decide (65 ≤ n ≤ 90)%nat then ascii_of_nat (n + 32) else c)
        (ascii_lower rest)
  end.

(** [int] on plain decimal numerals with an optional minus sign. *)
Definition decimal_int (s : string) : option Z :=
  Z.of_int <$> DecimalString.NilZero.int_of_string s.

(** [str.strip] for the blank character. *)
Fixpoint lstrip_blank (s : string) : string :=
  match s with
  | String " " rest => lstrip_blank rest
  | _ => s
  end.

Definition strip_blank (s : string) : string :=
  String.rev (lstrip_blank (String.rev (lstrip_blank s))).

(** Sample states: user 7 right after [/learn python 0]; the same user
    two answers into the quiz; and a session over the quiz-less
    [javascript] level 0 whose quiz fields are not 0, as a [STATE_FILE]
    written against another catalog would load it. *)
Definition fresh_python_world : tutor_world :=
  tutor_set 7 "python" 0 initial_world.

Definition mid_quiz_world : tutor_world :=
  (run_script catalog_excerpt ascii_lower decimal_int
     [(7, Learn ["Python"; "0"]); (7, Next); (7, Quiz); (7, Answer ["2"]); (7, Answer ["1"])]
     initial_world).2.

Definition stale_quiz_world : tutor_world :=
  {| tutor_state :=
       {[ 7 := {| lang := "javascript"; level := 0; module_idx := 1;
                  quiz_idx := 2; score := 1 |} ]};
     state_file := None |}.

(** A sample configuration of the media handlers: the default limits,
    and stand-ins for the collaborators.  The digest stand-in keeps the
    first eight bytes, so that distinct payloads can share a digest; the
    OCR stand-in reads the bytes as text on its first run and fails
    (empty text) on every later one. *)
Definition sample_env : media_env := {|
  DOWNLOAD_MAX_RETRIES := 3;
  MAX_PHOTO_SIZE_MB := 25600;
  MAX_DOC_SIZE_MB := 25600;
  MAX_TEXT_CHARS := 50000;
  HISTORY_MAX := 5;
  RATE_LIMIT_WINDOW_S := 30;
  RATE_LIMIT_MAX := 5;
  ALLOWED_DOC_MIME := {[ "text/plain"%string; "application/json"%string ]};
  sha256_hexdigest := λ content, string_of_list_byte (take 8 content);
  ocr_image_path := λ runs content,
    match runs with O => string_of_list_byte content | S _ => EmptyString end;
  analyze_code := λ text, ("Revisa: " +:+ text)%string;
  read_text := string_of_list_byte;
  str_strip := strip_blank;
  str_lower := ascii_lower;
|}.

Definition initial_media_world : media_world := {|
  clock := 0; rate_limit := ∅; user_history := ∅; ocr_cache := ∅; ocr_runs := [];
  tmp_files := ∅; tmp_count := 0; downloads := [];
|}.

(** A photo of 1 MiB whose transfer is answered by [RetryAfter 5] once
    and then succeeds; each call takes 2 seconds. *)
Definition throttled_photo : file_obj := {|
  mime_type := None;
  doc_file_size := Some 1048576;
  get_file := Val {|
    file_size := Some 1048576;
    download_to_drive := λ n,
      if bool_decide (n = 1)
      then {| duration := 2; ending := Exc (RetryAfter 5) |}
      else {| duration := 2; ending := Val (list_byte_of_string "x = 1/0") |};
  |};
|}.

(** A photo of 1 MiB whose transfer fails with [NetworkError] each time. *)
Definition unreachable_photo : file_obj := {|
  mime_type := None;
  doc_file_size := Some 1048576;
  get_file := Val {|
    file_size := Some 1048576;
    download_to_drive := λ _, {| duration := 60; ending := Exc NetworkError |};
  |};
|}.

(** A photo whose transfer is refused with an exception the retry loop
    does not catch. *)
Definition forbidden_photo : file_obj := {|
  mime_type := None;
  doc_file_size := Some 1048576;
  get_file := Val {|
    file_size := Some 1048576;
    download_to_drive := λ _, {| duration := 1; ending := Exc OtherError |};
  |};
|}.

(** A photo one byte above 256 MiB whose transfer succeeds at once. *)
Definition oversize_photo : file_obj := {|
  mime_type := None;
  doc_file_size := Some 268435457;
  get_file := Val {|
    file_size := Some 268435457;
    download_to_drive := λ _,
      {| duration := 30; ending := Val (list_byte_of_string "x = 1/0") |};
  |};
|}.

(** A text document whose transfer fails with [NetworkError] each time. *)
Definition unreachable_document : file_obj := {|
  mime_type := Some "text/plain"%string;
  doc_file_size := Some 2048;
  get_file := Val {|
    file_size := Some 2048;
    download_to_drive := λ _, {| duration := 60; ending := Exc NetworkError |};
  |};
|}.

(** ** 5. Runs of calls, for the properties of whole histories *)

(** The history of a user as [_get_history] reads it
    ([user_history.get(user_id, [])]). *)
Definition history_of (uid : Z) (w : media_world) : list (string * string) :=
  default [] (user_history w !! uid).

(** Successive [_remember] calls for one user, oldest first. *)
Definition remember_all (E : media_env) (uid : Z) (entries : list (string * string))
    (w : media_world) : media_world :=
  foldl (λ w e, (_remember E uid e.1 e.2 w).2) w entries.


(** A computation that leaves the component [f] of the state as it
    found it. *)
Definition preserves {A B : Type} (f : media_world → B) (c : M A) : Prop :=
  ∀ w, f (c w).2 = f w.

(** The updates the dispatcher hands to the media handlers, each arriving
    some time after the one before was handled. *)
Inductive media_event :=
| EvText (uid : Z) (text : string)
| EvPhoto (uid : Z) (photos : list file_obj)
| EvDocument (uid : Z) (doc : option file_obj).

Definition tick (d : Z) : M unit :=
  modify (λ w,
    {| clock := clock w + d; rate_limit := rate_limit w; user_history := user_history w;
       ocr_cache := ocr_cache w; ocr_runs := ocr_runs w;
       tmp_files := tmp_files w; tmp_count := tmp_count w;
       downloads := downloads w |}).

Definition handle_event (E : media_env) (ev : media_event) : M (option media_reply) :=
  match ev with
  | EvText uid text => handle_text E uid text
  | EvPhoto uid photos => handle_photo E uid photos
  | EvDocument uid doc => handle_document E uid doc
  end.

Fixpoint run_media (E : media_env) (events : list (Z * media_event)) (w : media_world)
  : list (tg_result (option media_reply)) * media_world :=
  match events with
  | [] => ([], w)
  | (d, ev) :: rest =>
      let '(r, w1) := (_ ← tick d; handle_event E ev) w in
      let '(rs, w2) := run_media E rest w1 in
      (r :: rs, w2)
  end.

(** Every payload the OCR has run on has its digest in the cache, and no
    two of them have the same digest. *)
Definition ocr_inv (E : media_env) (w : media_world) : Prop :=
  NoDup (sha256_hexdigest E <$> ocr_runs w)
  ∧ ∀ b, b ∈ ocr_runs w → is_Some (ocr_cache w !! sha256_hexdigest E b).


(** A computation that keeps [ocr_inv]. *)
Definition keeps_ocr_inv {A : Type} (E : media_env) (c : M A) : Prop :=
  ∀ w, ocr_inv E w → ocr_inv E (c w).2.


(** The number of right answers among [ns], the numbers typed for the
    questions [qz] in order (numbers beyond the last question do not
    count). *)
Fixpoint count_right (qz : list question) (ns : list Z) : Z :=
  match qz, ns with
  | qu :: qz', n :: ns' =>
      (if bool_decide (n - 1 = answer qu) then 1 else 0) + count_right qz' ns'
  | _, _ => 0
  end.

(** A session restored from a snapshot whose language the catalog no
    longer has. *)
Definition orphan_world : tutor_world :=
  {| tutor_state :=
       {[ 7 := {| lang := "rust"; level := 0; module_idx := 1;
                  quiz_idx := 0; score := 0 |} ]};
     state_file := None |}.

(** ** 6. Start-up: the snapshot read back *)

(** What [STATE_FILE] holds when [load_state] runs: no file; a file on
    which [read_text], [json.loads] or the look-ups raise (every such
    case ends in the [except] branch); or a JSON object, with the items
    of the dict that [json.loads] returns for the object under its key
    [tutor_state], in the order of the dict ([None] when the key is
    absent).  The keys are strings, as JSON has them, and distinct:
    [json.loads] has merged a name the file repeats, which keeps its
    first position and its last value ([distinct_names]).  The values
    are taken to be well-formed sessions. *)
Inductive state_document :=
| NoStateFile
| BadStateFile
| StateDocument (members : option (list (string * session))).

(** The keys of a dict are distinct. *)
Definition distinct_names (doc : state_document) : Prop :=
  match doc with
  | StateDocument (Some items) => NoDup items.*1
  | _ => True
  end.

(** [{int(k): v for k, v in items}]: the members are taken in order, a
    later one replacing an earlier one under the same number, and the
    whole comprehension raises as soon as one [int(k)] does ([None]). *)
Definition int_keys (py_int : string → option Z) (items : list (string * session))
  : option (gmap Z session) :=
  foldl (λ acc kv, d ← acc; k ← py_int kv.1; Some (<[k := kv.2]> d)) (Some ∅) items.

(** [load_state()]: [tutor_state.update(...)] puts the sessions read over
    those in memory; any exception is logged and leaves the state. *)
Definition load_state (py_int : string → option Z) (doc : state_document)
    (w : tutor_world) : tutor_world :=
  match doc with
  | StateDocument members =>
      match int_keys py_int (default [] members) with
      | Some d => set_tutor_state (d ∪ tutor_state w) w
      | None => w
      end
  | NoStateFile | BadStateFile => w
  end.

(** The members [json.dumps] writes for the sessions [ts]: one per
    session, in the order the dict holds them, each [int] key turned
    into its string. *)
Definition dumped_as (py_str : Z → string) (ts : gmap Z session)
    (items : list (string * session)) : Prop :=
  ∃ kvs, kvs ≡ₚ map_to_list ts ∧ items = (λ kv, (py_str kv.1, kv.2)) <$> kvs.

(** The file a process finds at its start after the run that ended in
    [w], the first run having started without a file. *)
Definition on_disk (py_str : Z → string) (w : tutor_world) (doc : state_document) : Prop :=
  match state_file w with
  | None => doc = NoStateFile
  | Some ts => ∃ items, doc = StateDocument (Some items) ∧ dumped_as py_str ts items
  end.

(** [str] on an [int]. *)
Definition decimal_str (z : Z) : string :=
  DecimalString.NilZero.string_of_int (Z.to_int z).

(** Two users at work: one a module into Python, one starting JavaScript. *)
Definition two_user_world : tutor_world :=
  (run_script catalog_excerpt ascii_lower decimal_int
     [(7, Learn ["Python"; "0"]); (8, Learn ["javascript"; "0"]); (7, Next)]
     initial_world).2.

(** The members of the snapshot of [two_user_world], listed last user
    first. *)
Definition two_user_members : list (string * session) :=
  [("8"%string, {| lang := "javascript"; level := 0; module_idx := 0;
                   quiz_idx := 0; score := 0 |});
   ("7"%string, {| lang := "python"; level := 0; module_idx := 1;
                   quiz_idx := 0; score := 0 |})].

(** A handler all of whose replies satisfy [P]. *)
Definition replies_with {A : Type} (P : A → Prop) (c : M (option A)) : Prop :=
  ∀ w r, (c w).1 = Val (Some r) → P r.

(** An analysis of a non-empty text of at most [MAX_TEXT_CHARS] characters
    plus the 25 of the truncation notice. *)
Definition bounded_analysis (E : media_env) (r : media_reply) : Prop :=
  ∀ a, r = MsgAnalysis a →
    ∃ t, a = analyze_code E t ∧ t ≠ EmptyString
         ∧ Z.of_nat (String.length t) ≤ MAX_TEXT_CHARS E + 25.

(** ** 7. Configuration, the shared helpers and the WhatsApp webhook *)

Module common.

(** The Python values a configuration entry can be: [None], a JSON
    scalar, or a JSON array or object, of which only the number of
    members matters here.  JSON numbers are taken to be integers. *)
Inductive py_value :=
| PyNone
| PyBool (b : bool)
| PyInt (n : Z)
| PyStr (s : string)
| PyContainer (len : nat).

(** Truth value of a Python value, as [not], [or] and [if] test it. *)
Definition truthy (v : py_value) : bool :=
  match v with
  | PyNone => false
  | PyBool b => b
  | PyInt n => bool_decide (n ≠ 0)
  | PyStr s => bool_decide (s ≠ EmptyString)
  | PyContainer len => bool_decide (len ≠ 0%nat)
  end.

(** [a or b] *)
Definition py_or (a b : py_value) : py_value := if truthy a then a else b.

(** [config.json] as start-up finds it: absent; present but [read_text]
    or [json.loads] raises; JSON that is not an object (a scalar or an
    array, which has no [get]); or a JSON object. *)
Inductive config_json :=
| NoConfig
| BadConfig
| ConfigNotObject
| ConfigObject (data : gmap string py_value).

(** [os.environ.get(k, dflt)] *)
Definition environ_get (env : gmap string string) (k : string) (dflt : py_value)
  : py_value :=
  match env !! k with
  | Some s => PyStr s
  | None => dflt
  end.

(** [data.get(k)] on a dict. *)
Definition dict_get (data : gmap string py_value) (k : string) : py_value :=
  default PyNone (data !! k).

(** [load_config()]: [None] stands for the [AttributeError] that
    [data.get] raises, outside the [try], when [config.json] parsed to
    something that is not an object. *)
Definition load_config (env : gmap string string) (f : config_json)
  : option (gmap string py_value) :=
  match f with
  | ConfigNotObject => None
  | NoConfig | BadConfig | ConfigObject _ =>
      let data := match f with ConfigObject d => d | _ => ∅ end in
      let entry k := environ_get env k (dict_get data k) in
      Some {[ "CODE_AI_API_URL"%string := entry "CODE_AI_API_URL"%string;
              "CODE_AI_API_KEY"%string := entry "CODE_AI_API_KEY"%string;
              "BOT_TOKEN"%string := entry "BOT_TOKEN"%string;
              "TWILIO_ACCOUNT_SID"%string := entry "TWILIO_ACCOUNT_SID"%string;
              "TWILIO_AUTH_TOKEN"%string := entry "TWILIO_AUTH_TOKEN"%string;
              "TWILIO_WHATSAPP_NUMBER"%string := entry "TWILIO_WHATSAPP_NUMBER"%string ]}
  end.

(** What [analyze_code] returns: the notice that the configuration is
    missing, the answer of the model, or the notice that the call
    failed, with the text of the exception. *)
Inductive analysis :=
| ConfigMissing
| ModelSaid (content : string)
| ModelFailed (error : string).

(** The state of a process that uses the helpers: the temporary files on
    disk, the number of names [NamedTemporaryFile] has handed out, the
    texts posted to the model, and the URLs fetched, each with whether
    the fetch delivered a body. *)
Record world := {
  files : gmap nat (list byte);
  names : nat;
  posts : list string;
  gets : list (option string * bool);
}.

Definition initial : world :=
  {| files := ∅; names := 0; posts := []; gets := [] |}.

Section helpers.
(** [CFG], and the network and the OCR engine as the helpers meet them:
    [requests_post n url key text] is what the [n+1]-th call of the
    model gives, the content of the first choice or the text of the
    exception raised on the way; [requests_get n url] is the body the
    [n+1]-th fetch delivers, [None] when [get] or [raise_for_status]
    raises; [ocr_image_path] catches its own exceptions and then returns
    the empty text. *)
Context (CFG : gmap string py_value).
Context (requests_post : nat → py_value → py_value → string → string + string).
Context (requests_get : nat → option string → option (list byte)).
Context (ocr_image_path : list byte → string).

Definition AI_URL : py_value := dict_get CFG "CODE_AI_API_URL".
Definition AI_KEY : py_value := dict_get CFG "CODE_AI_API_KEY".

Definition analyze_code (text : string) (w : world) : analysis * world :=
  if negb (truthy AI_URL) || negb (truthy AI_KEY) then (ConfigMissing, w)
  else
    let w' := {| files := files w; names := names w;
                 posts := posts w ++ [text]; gets := gets w |} in
    match requests_post (length (posts w)) AI_URL AI_KEY text with
    | inl content => (ModelSaid content, w')
    | inr e => (ModelFailed e, w')
    end.

(** [ocr_image_url(url)]: the body fetched is written to a temporary file
    made with [delete=False], which is read by the OCR and stays. *)
Definition ocr_image_url (url : option string) (w : world) : string * world :=
  match requests_get (length (gets w)) url with
  | None =>
      (EmptyString,
       {| files := files w; names := names w; posts := posts w;
          gets := gets w ++ [(url, false)] |})
  | Some content =>
      (ocr_image_path content,
       {| files := <[names w := content]> (files w); names := S (names w);
          posts := posts w; gets := gets w ++ [(url, true)] |})
  end.

End helpers.
End common.

(** [BOT_TOKEN] of [telegram_bot]: the environment first; failing that
    the keys [BOT_TOKEN] and [bot_token] of [config.json], any exception
    on the way leaving what the environment gave. *)
Definition BOT_TOKEN (env : gmap string string) (f : common.config_json)
  : common.py_value :=
  let tok := common.environ_get env "BOT_TOKEN" common.PyNone in
  if common.truthy tok then tok
  else match f with
       | common.ConfigObject data =>
           common.py_or (common.dict_get data "BOT_TOKEN")
                        (common.dict_get data "bot_token")
       | common.NoConfig | common.BadConfig | common.ConfigNotObject => tok
       end.

Module whatsapp_bot.

(** The form values of a request that the webhook reads. *)
Record request := {
  Body : option string;
  NumMedia : option string;
  MediaUrl0 : option string;
}.

(** The body of the message sent back. *)
Inductive reply_body :=
| Unreadable
| Prompt
| Analysis (a : common.analysis).

Section webhook.
Context (CFG : gmap string common.py_value).
Context (requests_post : nat → common.py_value → common.py_value → string → string + string).
Context (requests_get : nat → option string → option (list byte)).
Context (ocr_image_path : list byte → string).
Context (str_strip : string → string) (py_int : string → option Z).

Local Abbreviation analyze_code := (common.analyze_code CFG requests_post).
Local Abbreviation ocr_image_url := (common.ocr_image_url requests_get ocr_image_path).

(** [whatsapp_webhook()]: [None] stands for the [ValueError] of
    [int(...)] on a [NumMedia] that is not a number. *)
Definition whatsapp_webhook (req : request) (w : common.world)
  : option reply_body * common.world :=
  let incoming_msg := str_strip (default EmptyString (Body req)) in
  match py_int (default "0"%string (NumMedia req)) with
  | None => (None, w)
  | Some num_media =>
      if bool_decide (num_media > 0) then
        let '(extracted, w1) := ocr_image_url (MediaUrl0 req) w in
        if bool_decide (str_strip extracted = EmptyString) then (Some Unreadable, w1)
        else
          let '(a, w2) := analyze_code extracted w1 in
          (Some (Analysis a), w2)
      else if bool_decide (incoming_msg ≠ EmptyString) then
        let '(a, w1) := analyze_code incoming_msg w in
        (Some (Analysis a), w1)
      else (Some Prompt, w)
  end.

(** The webhook serving the requests [reqs] one after the other. *)
Fixpoint serve (reqs : list request) (w : common.world)
  : list (option reply_body) * common.world :=
  match reqs with
  | [] => ([], w)
  | req :: rest =>
      let '(r, w1) := whatsapp_webhook req w in
      let '(rs, w2) := serve rest w1 in
      (r :: rs, w2)
  end.

End webhook.
End whatsapp_bot.

(** ** 8. Sample data for the webhook *)

(** An environment whose model key is set but empty, beside a
    [config.json] that has both the URL and the key. *)
Definition empty_key_environ : gmap string string :=
  {[ "CODE_AI_API_KEY"%string := EmptyString ]}.

Definition full_config : common.config_json :=
  common.ConfigObject
    {[ "CODE_AI_API_URL"%string := common.PyStr "https://example.org/v1/chat";
       "CODE_AI_API_KEY"%string := common.PyStr "k-123" ]}.

Definition empty_key_cfg : gmap string common.py_value :=
  default ∅ (common.load_config empty_key_environ full_config).

(** Stand-ins for the network and the OCR engine: the model echoes the
    text, a fetch delivers the characters of its URL and fails without
    one, and the OCR reads the bytes as text. *)
Definition echo_post (n : nat) (url key : common.py_value) (text : string)
  : string + string :=
  inl ("Revisa: " +:+ text)%string.

Definition url_body (n : nat) (url : option string) : option (list byte) :=
  list_byte_of_string <$> url.

Definition photo_request : whatsapp_bot.request :=
  {| whatsapp_bot.Body := Some "mira esto"%string;
     whatsapp_bot.NumMedia := Some "1"%string;
     whatsapp_bot.MediaUrl0 := Some "Traceback"%string |}.

Definition text_request : whatsapp_bot.request :=
  {| whatsapp_bot.Body := Some " NameError: x "%string;
     whatsapp_bot.NumMedia := None;
     whatsapp_bot.MediaUrl0 := None |}.

(** A snapshot that lists user 7 under two spellings of the number. *)
Definition two_spellings : state_document :=
  StateDocument (Some
    [("7"%string, {| lang := "python"; level := 0; module_idx := 3;
                     quiz_idx := 0; score := 0 |});
     ("07"%string, {| lang := "javascript"; level := 0; module_idx := 1;
                      quiz_idx := 0; score := 0 |})]).

(** * Properties *)

(** ** Rate limiter *)

Section rate_limiter_facts.
Context (W M : Z).
Hypothesis W_nonneg : 0 ≤ W.
Hypothesis M_nonneg : 0 ≤ M.

Local Abbreviation popleft_expired := (popleft_expired W).
Local Abbreviation _rate_limited := (_rate_limited W M).
Local Abbreviation admit_step := (admit_step W M).
Local Abbreviation admit_all := (admit_all W M).
Local Abbreviation count_in := (count_in W).
Local Abbreviation window_inv := (window_inv W M).

(** The loop removes a prefix of expired timestamps. *)
Lemma popleft_expired_split now dq :
  ∃ dropped, dq = dropped ++ popleft_expired now dq
             ∧ Forall (λ t, t < now - W) dropped.
Proof.
  induction dq as [|t rest IH]; simpl.
  - exists []. split; [done | constructor].
  - case_bool_decide as Hexp.
    + destruct IH as (dropped & Heq & Hall).
      exists (t :: dropped). split.
      * simpl. by rewrite <- Heq.
      * constructor; [lia | done].
    + exists []. split; [done | constructor].
Qed.

(** On a non-decreasing deque, what the loop keeps is inside the window. *)
Lemma popleft_expired_fresh now dq :
  StronglySorted Z.le dq →
  Forall (λ t, now - t ≤ W) (popleft_expired now dq).
Proof.
  induction 1 as [|t rest Hsorted IH Hle]; simpl; [constructor|].
  case_bool_decide as Hexp; [done|].
  constructor; [lia|].
  eapply Forall_impl; [exact Hle|]. simpl. intros t' Ht'. lia.
Qed.

Lemma StronglySorted_app_inv_r (l1 l2 : list Z) :
  StronglySorted Z.le (l1 ++ l2) → StronglySorted Z.le l2.
Proof.
  induction l1 as [|x l1 IH]; simpl; [done|].
  intros Hs. apply IH. by inversion Hs.
Qed.

Lemma StronglySorted_snoc (l : list Z) (x : Z) :
  StronglySorted Z.le l → Forall (λ t, t ≤ x) l → StronglySorted Z.le (l ++ [x]).
Proof.
  induction 1 as [|t rest Hsorted IH Hle]; simpl; intros Hall.
  - repeat constructor.
  - inversion Hall as [|? ? Htx Hrest]; subst.
    constructor; [by apply IH|].
    apply Forall_app. split; [done|]. by repeat constructor.
Qed.

Lemma count_in_app a (l1 l2 : list Z) :
  count_in a (l1 ++ l2) = (count_in a l1 + count_in a l2)%nat.
Proof. unfold count_in. by rewrite filter_app, length_app. Qed.

Lemma count_in_le_length a (l : list Z) : (count_in a l ≤ length l)%nat.
Proof. apply length_filter. Qed.

(** Timestamps below [a] do not count in a window starting at [a]. *)
Lemma count_in_below a b (l : list Z) :
  Forall (λ t, t < b) l → b ≤ a → count_in a l = 0%nat.
Proof.
  intros Hall Hba. unfold count_in.
  induction Hall as [|t rest Ht Hrest IH]; [done|].
  rewrite filter_cons_False; [done | lia].
Qed.

Lemma accepted_of_snoc u log (c : Z * Z) :
  accepted_of u (log ++ [c]) =
  if decide (c.1 = u) then accepted_of u log ++ [c.2] else accepted_of u log.
Proof.
  unfold accepted_of. rewrite filter_app, fmap_app.
  case_decide as Hc.
  - by rewrite filter_cons_True, filter_nil.
  - rewrite filter_cons_False, filter_nil by done. simpl. by rewrite app_nil_r.
Qed.

Lemma window_inv_init hi : window_inv hi (∅, []).
Proof using M_nonneg.
  intros u. unfold window_of. simpl. rewrite lookup_empty. simpl.
  repeat split; try constructor; try lia.
  - exists []. split; [done | constructor].
  - intros a. unfold accepted_of, count_in. simpl. lia.
Qed.

Lemma window_inv_mono hi hi' s u :
  hi ≤ hi' → window_inv hi s →
  Forall (λ t, t ≤ hi') (window_of u s.1)
  ∧ ∃ older, accepted_of u s.2 = older ++ window_of u s.1
             ∧ Forall (λ t, t < hi' - W) older.
Proof.
  intros Hhi Hinv. destruct (Hinv u) as (_ & Hle & _ & (older & Heq & Hold) & _).
  split.
  - eapply Forall_impl; [exact Hle|]. simpl. intros; lia.
  - exists older. split; [done|].
    eapply Forall_impl; [exact Hold|]. simpl. intros; lia.
Qed.

(** One call keeps the invariant, and leaves the caller's window inside
    the trailing window of its own clock reading. *)
Lemma admit_step_inv hi s u now :
  hi ≤ now → window_inv hi s →
  window_inv now (admit_step s (u, now))
  ∧ Forall (λ t, now - W ≤ t ≤ now) (window_of u (admit_step s (u, now)).1).
Proof using W_nonneg M_nonneg.
  intros Hhi Hinv. destruct s as [rl log].
  destruct (Hinv u) as (Hsorted & Hle & Hlen & (older & Hacc & Hold) & Hcount).
  simpl in *.
  destruct (popleft_expired_split now (window_of u rl)) as (dropped & Hsplit & Hdropped).
  pose proof (popleft_expired_fresh now _ Hsorted) as Hfresh.
  set (dq := popleft_expired now (window_of u rl)) in *.
  assert (Hsorted' : StronglySorted Z.le dq).
  { apply (StronglySorted_app_inv_r dropped). by rewrite <- Hsplit. }
  assert (Hle' : Forall (λ t, t ≤ now) dq).
  { rewrite Hsplit in Hle. apply Forall_app in Hle as [_ Hle].
    eapply Forall_impl; [exact Hle|]. simpl. intros; lia. }
  assert (Hlen' : (length dq ≤ length (window_of u rl))%nat).
  { rewrite Hsplit, length_app. lia. }
  assert (Hold' : Forall (λ t, t < now - W) (older ++ dropped)).
  { apply Forall_app. split; [|done].
    eapply Forall_impl; [exact Hold|]. simpl. intros; lia. }
  assert (Hacc' : accepted_of u log = (older ++ dropped) ++ dq).
  { rewrite Hacc. rewrite Hsplit at 1. by rewrite app_assoc. }
  unfold admit_step, _rate_limited. simpl. fold (window_of u rl). fold dq.
  case_bool_decide as Hfull; simpl.
  - (* rejected *)
    split.
    + intros u'. simpl. unfold window_of at 1 2 3 4.
      destruct (decide (u' = u)) as [->|Hne].
      * rewrite lookup_insert_eq. simpl.
        repeat split; try done; try lia.
        exists (older ++ dropped). by split.
      * rewrite lookup_insert_ne by done. fold (window_of u' rl).
        destruct (Hinv u') as (? & ? & ? & _ & ?).
        destruct (window_inv_mono hi now (rl, log) u' Hhi Hinv) as (? & ?).
        repeat split; done.
    + unfold window_of. rewrite lookup_insert_eq. simpl.
      apply Forall_forall. intros t Ht.
      rewrite Forall_forall in Hfresh, Hle'.
      specialize (Hfresh t Ht). specialize (Hle' t Ht). lia.
  - (* admitted *)
    split.
    + intros u'. simpl. unfold window_of at 1 2 3 4.
      rewrite accepted_of_snoc. simpl.
      destruct (decide (u' = u)) as [->|Hne].
      * rewrite lookup_insert_eq. simpl. rewrite decide_True by done.
        repeat split.
        -- by apply StronglySorted_snoc.
        -- apply Forall_app. split; [done|]. repeat constructor. lia.
        -- rewrite length_app. simpl. lia.
        -- exists (older ++ dropped). split; [|done].
           by rewrite Hacc', app_assoc.
        -- intros a. rewrite count_in_app.
           destruct (decide (a ≤ now ≤ a + W)) as [Hin|Hout].
           ++ rewrite Hacc', count_in_app.
              rewrite (count_in_below a (now - W)) by (done || lia).
              pose proof (count_in_le_length a dq).
              pose proof (count_in_le_length a [now]). simpl in *. lia.
           ++ unfold count_in at 2. rewrite filter_cons_False, filter_nil by done.
              specialize (Hcount a). simpl. lia.
      * rewrite lookup_insert_ne by done. fold (window_of u' rl).
        rewrite decide_False by done.
        destruct (Hinv u') as (? & ? & ? & _ & ?).
        destruct (window_inv_mono hi now (rl, log) u' Hhi Hinv) as (? & ?).
        repeat split; done.
    + unfold window_of. rewrite lookup_insert_eq. simpl.
      apply Forall_app. split.
      * apply Forall_forall. intros t Ht.
        rewrite Forall_forall in Hfresh, Hle'.
        specialize (Hfresh t Ht). specialize (Hle' t Ht). lia.
      * repeat constructor; lia.
Qed.

Lemma StronglySorted_snoc_inv (l : list Z) (x : Z) :
  StronglySorted Z.le (l ++ [x]) → StronglySorted Z.le l ∧ Forall (λ t, t ≤ x) l.
Proof.
  induction l as [|y l IH]; simpl; intros Hs.
  - split; constructor.
  - inversion Hs as [|? ? Hrest Hall]; subst.
    destruct (IH Hrest) as [Hl Hle].
    apply Forall_app in Hall as [Hyl Hyx].
    split; constructor; try done.
    by inversion Hyx.
Qed.

Lemma admit_all_snoc calls c : admit_all (calls ++ [c]) = admit_step (admit_all calls) c.
Proof. unfold admit_all. by rewrite foldl_app. Qed.

(** The invariant holds after any run with non-decreasing clock
    readings, for a bound [hi] below any later reading. *)
Lemma admit_all_inv calls :
  StronglySorted Z.le (calls.*2) →
  ∀ bound, Forall (λ t, t ≤ bound) (calls.*2) →
  ∃ hi, hi ≤ bound ∧ window_inv hi (admit_all calls).
Proof using W_nonneg M_nonneg.
  induction calls as [|c calls IH] using rev_ind; intros Hsorted bound Hbound.
  - exists bound. split; [lia | apply window_inv_init].
  - rewrite fmap_app in Hsorted, Hbound. simpl in *.
    apply StronglySorted_snoc_inv in Hsorted as [Hsorted Hle].
    destruct (IH Hsorted (c.2) Hle) as (hi & Hhi & Hinv).
    apply Forall_app in Hbound as [_ Hc]. inversion Hc; subst.
    exists (c.2). split; [done|].
    rewrite admit_all_snoc. destruct c as [u now].
    by apply admit_step_inv with (hi := hi).
Qed.

Lemma list_upper_bound (l : list Z) : ∃ b, Forall (λ t, t ≤ b) l.
Proof.
  induction l as [|x l [b Hb]].
  - exists 0. constructor.
  - exists (Z.max x b). constructor; [lia|].
    eapply Forall_impl; [exact Hb|]. simpl. intros; lia.
Qed.

(** C1. For calls with non-decreasing clock readings, started from the
    empty windows, and for every user: the number of admitted calls
    whose timestamps lie in any interval of length [W] never exceeds [M];
    and right after a call of the user at [now], the user's retained
    timestamps all lie in [[now - W, now]] and are at most [M] in number.
    ([W] and [M] are taken non-negative.) *)
Theorem rate_limit_sliding_window (calls : list (Z * Z)) (u : Z) :
  Sorted Z.le (calls.*2) →
  (∀ a, Z.of_nat (count_in a (accepted_of u (admit_all calls).2)) ≤ M)
  ∧ (∀ pre now, calls = pre ++ [(u, now)] →
       Forall (λ t, now - W ≤ t ≤ now) (window_of u (admit_all calls).1)
       ∧ Z.of_nat (length (window_of u (admit_all calls).1)) ≤ M).
Proof using W_nonneg M_nonneg.
  intros Hsorted%Sorted_StronglySorted; [|intros x y z; lia].
  split.
  - intros a.
    destruct (list_upper_bound (calls.*2)) as [b Hb].
    destruct (admit_all_inv calls Hsorted b Hb) as (hi & _ & Hinv).
    by destruct (Hinv u) as (_ & _ & _ & _ & Hcount).
  - intros pre now ->.
    rewrite fmap_app in Hsorted. simpl in Hsorted.
    apply StronglySorted_snoc_inv in Hsorted as [Hsorted Hle].
    destruct (admit_all_inv pre Hsorted now Hle) as (hi & Hhi & Hinv).
    rewrite admit_all_snoc.
    destruct (admit_step_inv hi (admit_all pre) u now Hhi Hinv) as [Hinv' Hwin].
    split; [done|].
    by destruct (Hinv' u) as (_ & _ & Hlen & _).
Qed.

End rate_limiter_facts.

(** The scenario of the specification: with [W = 30] and [M = 5], five
    calls at [t = 0] are admitted, a sixth at [t = 1] is rejected and a
    call at [t = 31] is admitted again. *)
Example rate_limit_scenario :
  (admit_all 30 5 [(7, 0); (7, 0); (7, 0); (7, 0); (7, 0); (7, 1); (7, 31)]).2
  = [(7, 0); (7, 0); (7, 0); (7, 0); (7, 0); (7, 31)].
Proof. vm_compute. reflexivity. Qed.

Lemma rate_limit_sliding_window_witness :
  let calls := [(7, 0); (7, 0); (7, 0); (7, 0); (7, 0); (7, 1); (7, 31)] in
  (∀ a, Z.of_nat (count_in 30 a (accepted_of 7 (admit_all 30 5 calls).2)) ≤ 5)
  ∧ (∀ pre now, calls = pre ++ [(7, now)] →
       Forall (λ t, now - 30 ≤ t ≤ now) (window_of 7 (admit_all 30 5 calls).1)
       ∧ Z.of_nat (length (window_of 7 (admit_all 30 5 calls).1)) ≤ 5).
Proof.
  apply (rate_limit_sliding_window 30 5); [lia | lia |].
  simpl. repeat constructor; lia.
Defined.

(** ** Tutor *)

Lemma py_getitem_nonneg {A : Type} (l : list A) (i : nat) (x : A) :
  l !! i = Some x → py_getitem l (Z.of_nat i) = Ok x.
Proof.
  intros Hx. pose proof (lookup_lt_Some _ _ _ Hx) as Hlt.
  unfold py_getitem.
  rewrite (bool_decide_eq_false_2 (Z.of_nat i < 0)) by lia.
  rewrite bool_decide_eq_true_2 by lia.
  by rewrite Nat2Z.id, Hx.
Qed.

Lemma py_getitem_in_range {A : Type} (l : list A) (i : Z) :
  0 ≤ i < Z.of_nat (length l) → ∃ x, l !! Z.to_nat i = Some x ∧ py_getitem l i = Ok x.
Proof.
  intros Hi.
  destruct (lookup_lt_is_Some_2 l (Z.to_nat i)) as [x Hx]; [lia|].
  exists x. split; [done|].
  rewrite <- (Z2Nat.id i) by lia. by apply py_getitem_nonneg.
Qed.

Lemma set_tutor_state_id w : set_tutor_state (tutor_state w) w = w.
Proof. by destruct w. Qed.

Section tutor_facts.
Context (TC : gmap string (gmap Z level_content)).
Context (py_lower : string → string) (py_int : string → option Z).

Local Abbreviation content_at := (content_at TC).
Local Abbreviation next_cmd := (next_cmd TC).
Local Abbreviation quiz_cmd := (quiz_cmd TC).
Local Abbreviation answer_cmd := (answer_cmd TC py_int).
Local Abbreviation learn_cmd := (learn_cmd TC py_lower py_int).
Local Abbreviation progress_cmd := (progress_cmd TC).
Local Abbreviation handle := (handle TC py_lower py_int).
Local Abbreviation run_script := (run_script TC py_lower py_int).
Local Abbreviation session_ok := (session_ok TC).
Local Abbreviation sessions_ok := (sessions_ok TC).

(** [next_cmd] below the end of the module list: the module at the
    cursor is sent, the cursor moves by one and the state is saved. *)
Lemma next_cmd_step uid w st c (i : nat) m :
  tutor_state w !! uid = Some st →
  content_at (lang st) (level st) = Some c →
  module_idx st = Z.of_nat i →
  modules c !! i = Some m →
  next_cmd uid w =
    (Replied (MsgModule m (Z.of_nat i) (Z.of_nat (length (modules c)))),
     save_state (set_tutor_state
       (<[uid := {| lang := lang st; level := level st;
                    module_idx := Z.of_nat i + 1;
                    quiz_idx := quiz_idx st; score := score st |}]> (tutor_state w)) w)).
Proof.
  intros Hst Hc Hidx Hm.
  pose proof (lookup_lt_Some _ _ _ Hm) as Hlt.
  unfold next_cmd, tutor_current_module. rewrite Hst, Hc, Hidx.
  rewrite bool_decide_eq_false_2 by lia.
  rewrite (py_getitem_nonneg _ _ _ Hm). simpl. by rewrite Hidx.
Qed.

(** [next_cmd] at or past the end: the exhausted reply, nothing changes. *)
Lemma next_cmd_exhausted uid w st c :
  tutor_state w !! uid = Some st →
  content_at (lang st) (level st) = Some c →
  module_idx st >= Z.of_nat (length (modules c)) →
  next_cmd uid w = (Replied MsgNoMoreModules, w).
Proof.
  intros Hst Hc Hidx. unfold next_cmd, tutor_current_module. rewrite Hst, Hc.
  by rewrite bool_decide_eq_true_2.
Qed.

Lemma run_next_from (k : nat) : ∀ uid w st c (i : nat),
  tutor_state w !! uid = Some st →
  content_at (lang st) (level st) = Some c →
  module_idx st = Z.of_nat i →
  (i + k = length (modules c))%nat →
  ∃ w' st',
    run_script (replicate k (uid, Next)) w =
      (module_replies (Z.of_nat i) (Z.of_nat (length (modules c))) (drop i (modules c)), w')
    ∧ tutor_state w' !! uid = Some st'
    ∧ lang st' = lang st ∧ level st' = level st
    ∧ module_idx st' = Z.of_nat (length (modules c)).
Proof.
  induction k as [|k IH]; intros uid w st c i Hst Hc Hidx Hlen.
  - exists w, st. simpl. rewrite drop_ge by lia. simpl.
    repeat split; try done. rewrite Hidx. f_equal. lia.
  - destruct (lookup_lt_is_Some_2 (modules c) i) as [m Hm]; [lia|].
    simpl. fold (next_cmd uid w).
    rewrite (next_cmd_step uid w st c i m Hst Hc Hidx Hm).
    set (st1 := {| lang := lang st; level := level st; module_idx := Z.of_nat i + 1;
                   quiz_idx := quiz_idx st; score := score st |}).
    set (w1 := save_state _).
    destruct (IH uid w1 st1 c (S i)) as (w' & st' & Hrun & Hst' & Hl & Hlv & Hfin).
    + subst w1. simpl. by rewrite lookup_insert_eq.
    + done.
    + subst st1. simpl. lia.
    + lia.
    + exists w', st'. rewrite Hrun. rewrite (drop_S _ _ _ Hm). simpl.
      replace (Z.of_nat (S i)) with (Z.of_nat i + 1) by lia.
      repeat split; done.
Qed.

Lemma run_next_exhausted (k : nat) uid w st c :
  tutor_state w !! uid = Some st →
  content_at (lang st) (level st) = Some c →
  module_idx st >= Z.of_nat (length (modules c)) →
  run_script (replicate k (uid, Next)) w = (replicate k (Replied MsgNoMoreModules), w).
Proof.
  intros Hst Hc Hidx. induction k as [|k IH]; [done|].
  simpl. fold (next_cmd uid w).
  rewrite (next_cmd_exhausted uid w st c Hst Hc Hidx). by rewrite IH.
Qed.

(** C2. From a session whose module cursor is 0, over a catalog entry
    with [n] modules, [n] calls of [next_cmd] send every module once, in
    catalog order, each at its own index and then moving the cursor by
    one; every later call answers that no module is left and leaves the
    whole state, the cursor included, as it was. *)
Theorem next_cmd_walks_modules uid w st c :
  tutor_state w !! uid = Some st →
  content_at (lang st) (level st) = Some c →
  module_idx st = 0 →
  ∃ w' st',
    run_script (replicate (length (modules c)) (uid, Next)) w =
      (module_replies 0 (Z.of_nat (length (modules c))) (modules c), w')
    ∧ tutor_state w' !! uid = Some st'
    ∧ module_idx st' = Z.of_nat (length (modules c))
    ∧ ∀ k, run_script (replicate k (uid, Next)) w' =
             (replicate k (Replied MsgNoMoreModules), w').
Proof.
  intros Hst Hc Hidx.
  destruct (run_next_from (length (modules c)) uid w st c 0 Hst Hc Hidx eq_refl)
    as (w' & st' & Hrun & Hst' & Hl & Hlv & Hfin).
  exists w', st'. repeat split; try done.
  intros k. apply (run_next_exhausted k uid w' st' c); try done.
  - by rewrite Hl, Hlv.
  - lia.
Qed.

(** [answer_cmd] on a pending question. *)
Lemma answer_cmd_step uid w st c a0 rest n (i : nat) qu :
  tutor_state w !! uid = Some st →
  content_at (lang st) (level st) = Some c →
  quiz_idx st = Z.of_nat i →
  quiz c !! i = Some qu →
  py_int a0 = Some n →
  let correct := bool_decide (n - 1 = answer qu) in
  let sc := if correct then score st + 1 else score st in
  let total := Z.of_nat (length (quiz c)) in
  answer_cmd uid (a0 :: rest) w =
    (Replied (MsgVerdict correct (answer qu + 1)
                (match quiz c !! S i with
                 | Some next_q => QuizNext next_q (Z.of_nat i + 1) total
                 | None => QuizEnd sc total
                 end)),
     save_state (set_tutor_state
       (<[uid := {| lang := lang st; level := level st; module_idx := module_idx st;
                    quiz_idx := Z.of_nat i + 1; score := sc |}]> (tutor_state w)) w)).
Proof.
  intros Hst Hc Hidx Hqu Hint. simpl.
  pose proof (lookup_lt_Some _ _ _ Hqu) as Hlt.
  unfold answer_cmd, tutor_quiz_question. rewrite Hst, Hint, Hc, Hidx.
  rewrite bool_decide_eq_false_2 by lia.
  rewrite (py_getitem_nonneg _ _ _ Hqu). simpl.
  destruct (quiz c !! S i) as [next_q|] eqn:Hnext.
  - pose proof (lookup_lt_Some _ _ _ Hnext).
    rewrite bool_decide_eq_false_2 by lia.
    replace (Z.of_nat i + 1) with (Z.of_nat (S i)) by lia.
    by rewrite (py_getitem_nonneg _ _ _ Hnext).
  - apply lookup_ge_None in Hnext.
    by rewrite bool_decide_eq_true_2 by lia.
Qed.

(** [quiz_cmd] on a level with questions. *)
Lemma quiz_cmd_start uid w st c q0 qs :
  tutor_state w !! uid = Some st →
  content_at (lang st) (level st) = Some c →
  quiz c = q0 :: qs →
  quiz_cmd uid w =
    (Replied (MsgQuiz q0 0 (Z.of_nat (length (quiz c)))),
     save_state (set_tutor_state
       (<[uid := {| lang := lang st; level := level st; module_idx := module_idx st;
                    quiz_idx := 0; score := 0 |}]> (tutor_state w)) w)).
Proof.
  intros Hst Hc Hq. unfold quiz_cmd, tutor_quiz_question. rewrite Hst. simpl.
  rewrite lookup_insert_eq. simpl. by rewrite Hc, Hq.
Qed.

Lemma run_script_cons uid cmd rest w :
  run_script ((uid, cmd) :: rest) w =
  (((handle uid cmd w).1 :: (run_script rest (handle uid cmd w).2).1),
   (run_script rest (handle uid cmd w).2).2).
Proof.
  simpl. destruct (handle uid cmd w) as [o w1]. simpl.
  by destruct (run_script rest w1).
Qed.

Lemma run_right_answers (inputs : list string) : ∀ uid w st c (i : nat),
  tutor_state w !! uid = Some st →
  content_at (lang st) (level st) = Some c →
  quiz_idx st = Z.of_nat i →
  Forall2 (λ s qu, py_int s = Some (answer qu + 1)) inputs (drop i (quiz c)) →
  ∃ outs w' st',
    run_script ((λ s, (uid, Answer [s])) <$> inputs) w = (outs, w')
    ∧ tutor_state w' !! uid = Some st'
    ∧ quiz_idx st' = Z.of_nat (length (quiz c)) `max` Z.of_nat i
    ∧ score st' = score st + Z.of_nat (length inputs)
    ∧ Forall right_verdict outs
    ∧ (inputs ≠ [] →
       ∃ r, last outs = Some (Replied (MsgVerdict true r
                (QuizEnd (score st + Z.of_nat (length inputs))
                         (Z.of_nat (length (quiz c))))))).
Proof.
  induction inputs as [|s inputs IH]; intros uid w st c i Hst Hc Hidx Hall.
  - apply Forall2_nil_inv_l in Hall.
    assert (length (quiz c) ≤ i)%nat.
    { destruct (decide (length (quiz c) ≤ i)%nat); [done|].
      apply (f_equal length) in Hall. rewrite length_drop in Hall. simpl in Hall. lia. }
    exists [], w, st. simpl. repeat split; try done; try lia.
  - destruct (drop i (quiz c)) as [|qu qs] eqn:Hdrop; [by inversion Hall|].
    apply Forall2_cons in Hall as [Hs Hall].
    assert (Hqu : quiz c !! i = Some qu).
    { rewrite <- (Nat.add_0_r i), <- lookup_drop, Hdrop. done. }
    assert (Hqs : drop (S i) (quiz c) = qs).
    { pose proof (drop_S _ _ _ Hqu) as Hd. rewrite Hdrop in Hd. by injection Hd. }
    pose proof (lookup_lt_Some _ _ _ Hqu) as Hlt.
    rewrite fmap_cons, run_script_cons.
    change (handle uid (Answer [s]) w) with (answer_cmd uid [s] w).
    rewrite (answer_cmd_step uid w st c s [] _ i qu Hst Hc Hidx Hqu Hs).
    replace (answer qu + 1 - 1) with (answer qu) by lia.
    rewrite bool_decide_eq_true_2 by done.
    set (st1 := {| lang := lang st; level := level st; module_idx := module_idx st;
                   quiz_idx := Z.of_nat i + 1; score := score st + 1 |}).
    set (w1 := save_state _).
    destruct (IH uid w1 st1 c (S i)) as (outs & w' & st' & Hrun & Hst' & Hqi & Hsc & Hv & Hlast).
    + subst w1. simpl. by rewrite lookup_insert_eq.
    + done.
    + subst st1. simpl. lia.
    + by rewrite Hqs.
    + cbn [fst snd]. rewrite Hrun. cbn [fst snd].
      eexists _, w', st'. split; [done|].
      split; [done|]. split; [lia|]. split; [subst st1; simpl in *; lia|].
      split.
      * constructor; [|done]. by eexists _, _.
      * intros _. destruct inputs as [|s' inputs].
        -- simpl in Hrun. injection Hrun as <- <-. simpl.
           subst w1. simpl.
           apply Forall2_nil_inv_l in Hall. rewrite <- Hqs in Hall.
           assert (Hnone : quiz c !! S i = None).
           { apply lookup_ge_None.
             apply (f_equal length) in Hall. rewrite length_drop in Hall. simpl in Hall. lia. }
           rewrite Hnone. eexists. do 3 f_equal.
        -- destruct Hlast as [r Hr]; [done|].
           exists r. rewrite last_cons, Hr. subst st1. simpl.
           do 4 f_equal. simpl length. lia.
Qed.

(** C5. With a question pending ([0 ≤ quiz_idx < quizCount]),
    [answer_cmd] compares the typed number minus one with the stored
    [answer], adds one to [score] exactly when they are equal, adds one
    to [quiz_idx] in both cases, and replies with the verdict followed by
    the next question when one is left and by the final
    [score/quizCount] otherwise.  Hence [quiz_cmd] on a non-empty quiz
    followed by the right number for every question ends with
    [score = quiz_idx = quizCount], the last reply carrying that score. *)
Theorem answer_cmd_scores :
  (∀ uid w st c a0 rest n,
     tutor_state w !! uid = Some st →
     content_at (lang st) (level st) = Some c →
     0 ≤ quiz_idx st < Z.of_nat (length (quiz c)) →
     py_int a0 = Some n →
     ∃ qu, quiz c !! Z.to_nat (quiz_idx st) = Some qu ∧
       let correct := bool_decide (n - 1 = answer qu) in
       let sc := if correct then score st + 1 else score st in
       let total := Z.of_nat (length (quiz c)) in
       answer_cmd uid (a0 :: rest) w =
         (Replied (MsgVerdict correct (answer qu + 1)
                     (match quiz c !! Z.to_nat (quiz_idx st + 1) with
                      | Some next_q => QuizNext next_q (quiz_idx st + 1) total
                      | None => QuizEnd sc total
                      end)),
          save_state (set_tutor_state
            (<[uid := {| lang := lang st; level := level st;
                         module_idx := module_idx st;
                         quiz_idx := quiz_idx st + 1; score := sc |}]>
               (tutor_state w)) w)))
  ∧ (∀ uid w st c inputs,
       tutor_state w !! uid = Some st →
       content_at (lang st) (level st) = Some c →
       quiz c ≠ [] →
       Forall2 (λ s qu, py_int s = Some (answer qu + 1)) inputs (quiz c) →
       ∃ outs w' st' r,
         run_script ((uid, Quiz) :: ((λ s, (uid, Answer [s])) <$> inputs)) w = (outs, w')
         ∧ tutor_state w' !! uid = Some st'
         ∧ score st' = Z.of_nat (length (quiz c))
         ∧ quiz_idx st' = Z.of_nat (length (quiz c))
         ∧ last outs = Some (Replied (MsgVerdict true r
                           (QuizEnd (Z.of_nat (length (quiz c)))
                                    (Z.of_nat (length (quiz c))))))).
Proof.
  split.
  - intros uid w st c a0 rest n Hst Hc Hrange Hint.
    destruct (py_getitem_in_range (quiz c) (quiz_idx st) Hrange) as (qu & Hqu & _).
    exists qu. split; [done|]. simpl.
    rewrite (answer_cmd_step uid w st c a0 rest n (Z.to_nat (quiz_idx st)) qu);
      try done; [|lia].
    rewrite Z2Nat.id by lia.
    by replace (Z.to_nat (quiz_idx st + 1)) with (S (Z.to_nat (quiz_idx st))) by lia.
  - intros uid w st c inputs Hst Hc Hne Hall.
    destruct (quiz c) as [|q0 qs] eqn:Hq; [done|].
    rewrite run_script_cons.
    change (handle uid Quiz w) with (quiz_cmd uid w).
    rewrite (quiz_cmd_start uid w st c q0 qs Hst Hc Hq). cbn [fst snd].
    set (st0 := {| lang := lang st; level := level st; module_idx := module_idx st;
                   quiz_idx := 0; score := 0 |}).
    set (w0 := save_state _).
    destruct (run_right_answers inputs uid w0 st0 c 0)
      as (outs & w' & st' & Hrun & Hst' & Hqi & Hsc & _ & Hlast).
    + subst w0. simpl. by rewrite lookup_insert_eq.
    + done.
    + done.
    + by rewrite drop_0, Hq.
    + pose proof (Forall2_length _ _ _ Hall) as Hlen.
      destruct Hlast as [r Hr].
      { intros ->. simpl in Hlen. lia. }
      rewrite Hrun. cbn [fst snd].
      exists (Replied (MsgQuiz q0 0 (Z.of_nat (length (quiz c)))) :: outs), w', st', r.
      rewrite Hq in *. subst st0. simpl in *.
      split; [done|]. split; [done|]. split; [lia|]. split; [lia|].
      rewrite last_cons, Hr. do 4 f_equal. lia.
Qed.

(** C6. For a user whose session satisfies the session invariants
    ([0 ≤ score ≤ quiz_idx ≤ quizCount]): on a level with an empty quiz
    [quiz_cmd] answers that there is no quiz and leaves the whole state as
    it was, the quiz cursor and the score of the session included; on a
    level with questions it puts the quiz cursor and the score at 0,
    saves, and returns the first question. *)
Theorem quiz_cmd_empty_quiz uid w st c :
  tutor_state w !! uid = Some st →
  content_at (lang st) (level st) = Some c →
  0 ≤ score st ≤ quiz_idx st →
  quiz_idx st ≤ Z.of_nat (length (quiz c)) →
  match quiz c with
  | [] => quiz_cmd uid w = (Replied MsgNoQuiz, w)
  | q0 :: _ =>
      quiz_cmd uid w =
        (Replied (MsgQuiz q0 0 (Z.of_nat (length (quiz c)))),
         save_state (set_tutor_state
           (<[uid := {| lang := lang st; level := level st; module_idx := module_idx st;
                        quiz_idx := 0; score := 0 |}]> (tutor_state w)) w))
  end
  ∧ quiz_failure_keeps_session TC uid w.
Proof.
  intros Hst Hc Hsc Hqi.
  assert (Hempty : quiz c = [] → quiz_cmd uid w = (Replied MsgNoQuiz, w)).
  { intros Hq. unfold quiz_cmd, tutor_quiz_question. rewrite Hst. simpl.
    rewrite lookup_insert_eq. simpl. rewrite Hc, Hq. simpl. f_equal.
    rewrite Hq in Hqi. simpl in Hqi.
    assert (quiz_idx st = 0) as Hq0 by lia.
    assert (score st = 0) as Hs0 by lia.
    rewrite <- Hq0 at 1. rewrite <- Hs0 at 1.
    replace {| lang := lang st; level := level st; module_idx := module_idx st;
               quiz_idx := quiz_idx st; score := score st |} with st by (by destruct st).
    by rewrite insert_id, set_tutor_state_id. }
  split.
  - destruct (quiz c) as [|q0 qs] eqn:Hq; [by apply Hempty|].
    rewrite (quiz_cmd_start uid w st c q0 qs Hst Hc Hq). by rewrite Hq.
  - intros st' c' Hst' Hc' Hq'.
    rewrite Hst in Hst'. injection Hst' as <-.
    rewrite Hc in Hc'. injection Hc' as <-.
    by rewrite (Hempty Hq').
Qed.

(** *** Session invariants *)

Lemma tutor_current_module_inv uid ts st om mods :
  tutor_current_module TC uid ts = Ok (Some (st, om, mods)) →
  ts !! uid = Some st
  ∧ ∃ c, content_at (lang st) (level st) = Some c ∧ mods = modules c
         ∧ match om with
           | Some _ => module_idx st < Z.of_nat (length (modules c))
           | None => module_idx st >= Z.of_nat (length (modules c))
           end.
Proof.
  unfold tutor_current_module. intros H.
  destruct (ts !! uid) as [st0|]; [|done].
  destruct (content_at (lang st0) (level st0)) as [c|] eqn:Hc; [|done].
  case_bool_decide as Hidx.
  - injection H as <- <- <-. split; [done|]. by exists c.
  - destruct (py_getitem (modules c) (module_idx st0)); [|done].
    injection H as <- <- <-. split; [done|]. exists c. repeat split; [done|lia].
Qed.

Lemma tutor_quiz_question_inv uid ts st oq qz :
  tutor_quiz_question TC uid ts = Ok (Some (st, oq, qz)) →
  ts !! uid = Some st
  ∧ ∃ c, content_at (lang st) (level st) = Some c ∧ qz = quiz c
         ∧ match oq with
           | Some _ => quiz_idx st < Z.of_nat (length (quiz c))
           | None => quiz_idx st >= Z.of_nat (length (quiz c))
           end.
Proof.
  unfold tutor_quiz_question. intros H.
  destruct (ts !! uid) as [st0|]; [|done].
  destruct (content_at (lang st0) (level st0)) as [c|] eqn:Hc; [|done].
  case_bool_decide as Hidx.
  - injection H as <- <- <-. split; [done|]. by exists c.
  - destruct (py_getitem (quiz c) (quiz_idx st0)); [|done].
    injection H as <- <- <-. split; [done|]. exists c. repeat split; [done|lia].
Qed.

Lemma sessions_ok_insert w uid st :
  sessions_ok w → session_ok st →
  sessions_ok (set_tutor_state (<[uid := st]> (tutor_state w)) w).
Proof.
  intros Hw Hst u st'. simpl. rewrite lookup_insert.
  case_decide; [naive_solver | apply Hw].
Qed.

Lemma sessions_ok_save w : sessions_ok w → sessions_ok (save_state w).
Proof. intros Hw u st. apply Hw. Qed.

Lemma sessions_ok_delete w uid :
  sessions_ok w → sessions_ok (set_tutor_state (delete uid (tutor_state w)) w).
Proof.
  intros Hw u st. simpl. rewrite lookup_delete.
  case_decide; [done | apply Hw].
Qed.

Lemma learn_cmd_ok uid args w : sessions_ok w → sessions_ok (learn_cmd uid args w).2.
Proof.
  intros Hw. unfold learn_cmd.
  destruct args as [|a0 [|a1 rest]]; try done.
  destruct (py_int a1) as [lv|]; [|done].
  destruct (TC !! py_lower a0) as [levels|] eqn:Hl; [|done].
  destruct (levels !! lv) as [c|] eqn:Hlv; [|done].
  simpl. unfold tutor_set. apply sessions_ok_save, sessions_ok_insert; [done|].
  exists c. simpl. unfold content_at. rewrite Hl. simpl. rewrite Hlv.
  repeat split; lia.
Qed.

Lemma next_cmd_ok uid w : sessions_ok w → sessions_ok (next_cmd uid w).2.
Proof.
  intros Hw. unfold next_cmd.
  destruct (tutor_current_module TC uid (tutor_state w)) as [[[[st [m|]] mods]|]|] eqn:Hcur;
    try done.
  apply tutor_current_module_inv in Hcur as (Hst & c & Hc & -> & Hlt).
  simpl. apply sessions_ok_save, sessions_ok_insert; [done|].
  destruct (Hw uid st Hst) as (c' & Hc' & Hm & Hq & Hs).
  rewrite Hc in Hc'. injection Hc' as <-.
  exists c. simpl. repeat split; try done; lia.
Qed.

Lemma quiz_cmd_ok uid w : sessions_ok w → sessions_ok (quiz_cmd uid w).2.
Proof.
  intros Hw. unfold quiz_cmd.
  destruct (tutor_state w !! uid) as [st|] eqn:Hst; [|done].
  destruct (Hw uid st Hst) as (c & Hc & Hm & Hq & Hs).
  assert (Hw0 : sessions_ok (set_tutor_state
    (<[uid := {| lang := lang st; level := level st; module_idx := module_idx st;
                 quiz_idx := 0; score := 0 |}]> (tutor_state w)) w)).
  { apply sessions_ok_insert; [done|]. exists c. simpl. repeat split; try done; lia. }
  destruct (tutor_quiz_question TC uid _) as [[[[st2 [qu|]] qz]|]|]; try done.
Qed.

Lemma answer_cmd_ok uid args w : sessions_ok w → sessions_ok (answer_cmd uid args w).2.
Proof.
  intros Hw. unfold answer_cmd.
  destruct (tutor_state w !! uid) as [st|] eqn:Hst; [|done].
  destruct args as [|a0 rest]; [done|].
  destruct (py_int a0) as [n|]; [|done].
  destruct (tutor_quiz_question TC uid (tutor_state w)) as [[[[st2 [qu|]] qz]|]|] eqn:Hcur;
    try done.
  apply tutor_quiz_question_inv in Hcur as (Hst2 & c & Hc & -> & Hlt).
  rewrite Hst in Hst2. injection Hst2 as <-.
  destruct (Hw uid st Hst) as (c' & Hc' & Hm & Hq & Hs).
  rewrite Hc in Hc'. injection Hc' as <-.
  match goal with
  | |- context [set_tutor_state (<[uid := ?s]> _) w] =>
      assert (Hw' : sessions_ok (set_tutor_state (<[uid := s]> (tutor_state w)) w))
  end.
  { apply sessions_ok_insert; [done|]. exists c. simpl.
    repeat split; try done; try lia; case_bool_decide; lia. }
  revert Hw'. simpl. destruct (bool_decide (n - 1 = answer qu)); intros Hw';
    (case_bool_decide; [exact (sessions_ok_save _ Hw')|]);
    (destruct (py_getitem (quiz c) (quiz_idx st + 1));
      [exact (sessions_ok_save _ Hw') | exact Hw']).
Qed.

Lemma handle_ok uid cmd w : sessions_ok w → sessions_ok (handle uid cmd w).2.
Proof.
  intros Hw. destruct cmd; simpl.
  - by apply learn_cmd_ok.
  - by apply next_cmd_ok.
  - by apply quiz_cmd_ok.
  - by apply answer_cmd_ok.
  - unfold progress_cmd.
    destruct (tutor_state w !! uid) as [st|]; [|done].
    by destruct (content_at (lang st) (level st)).
  - by apply sessions_ok_save, sessions_ok_delete.
  - unfold modules_cmd.
    destruct (tutor_state w !! uid) as [st|]; [|done].
    by destruct (content_at (lang st) (level st)).
  - unfold errors_cmd.
    destruct (tutor_state w !! uid) as [st|]; [|done].
    by destruct (content_at (lang st) (level st)).
Qed.

(** C9. Every tutoring command keeps the invariants
    [0 ≤ module_idx ≤ moduleCount], [0 ≤ quiz_idx ≤ quizCount] and
    [0 ≤ score ≤ quiz_idx] of every session; they hold of every session
    created by [learn_cmd], and so after any script of commands run from
    the empty state. *)
Theorem tutor_commands_keep_invariants :
  (∀ uid cmd w, sessions_ok w → sessions_ok (handle uid cmd w).2)
  ∧ (∀ script, sessions_ok (run_script script initial_world).2).
Proof.
  split; [exact handle_ok|].
  assert (Hrun : ∀ script w, sessions_ok w → sessions_ok (run_script script w).2).
  { induction script as [|[uid cmd] script IH]; intros w Hw; [done|].
    rewrite run_script_cons. simpl. by apply IH, handle_ok. }
  intros script. apply Hrun. intros uid st. simpl. by rewrite lookup_empty.
Qed.

(** C10 (as amended). [next_cmd], [answer_cmd], [progress_cmd],
    [modules_cmd] and [errors_cmd] lower neither cursor of any session;
    [quiz_cmd] leaves the module cursor and puts the quiz cursor of its
    user back to 0.  The sessions stay in place in all these cases. *)
Theorem cursors_monotone_except_quiz uid cmd w u st :
  tutor_state w !! u = Some st →
  match cmd with
  | Learn _ | Reset => True
  | Quiz =>
      ∃ st', tutor_state (handle uid cmd w).2 !! u = Some st'
             ∧ module_idx st' = module_idx st
             ∧ quiz_idx st' = if decide (u = uid) then 0 else quiz_idx st
  | _ => cursors_never_decrease TC py_lower py_int uid cmd w
  end.
Proof.
  intros Hu. destruct cmd as [args| | |args| | | |]; try done.
  - (* next_cmd *)
    intros u' st' Hu'. simpl. unfold next_cmd.
    destruct (tutor_current_module TC uid (tutor_state w)) as [[[[st0 [m|]] mods]|]|] eqn:Hcur;
      simpl; try (exists st'; repeat split; [done|lia|lia]).
    apply tutor_current_module_inv in Hcur as (Hst0 & _).
    rewrite lookup_insert. case_decide as Heq.
    + subst u'. rewrite Hst0 in Hu'. injection Hu' as ->.
      eexists. split; [done|]. simpl. lia.
    + exists st'. repeat split; [done|lia|lia].
  - (* quiz_cmd *)
    simpl. unfold quiz_cmd.
    destruct (tutor_state w !! uid) as [st0|] eqn:Hst0.
    + assert (Hlook : tutor_state (set_tutor_state
        (<[uid := {| lang := lang st0; level := level st0; module_idx := module_idx st0;
                     quiz_idx := 0; score := 0 |}]> (tutor_state w)) w) !! u
        = Some (if decide (u = uid)
                then {| lang := lang st0; level := level st0;
                        module_idx := module_idx st0; quiz_idx := 0; score := 0 |}
                else st)).
      { simpl. rewrite lookup_insert. destruct (decide (uid = u)) as [->|Hne].
        - by rewrite decide_True.
        - by rewrite decide_False. }
      assert (Hgoal : ∃ st', Some (if decide (u = uid)
                then {| lang := lang st0; level := level st0;
                        module_idx := module_idx st0; quiz_idx := 0; score := 0 |}
                else st) = Some st'
             ∧ module_idx st' = module_idx st
             ∧ quiz_idx st' = if decide (u = uid) then 0 else quiz_idx st).
      { eexists. split; [done|]. case_decide as Heq; [|done].
        subst u. rewrite Hst0 in Hu. by injection Hu as ->. }
      rewrite <- Hlook in Hgoal.
      destruct (tutor_quiz_question TC uid _) as [[[[st2 [qu|]] qz]|]|]; exact Hgoal.
    + simpl. exists st. split; [done|]. split; [done|].
      case_decide as Heq; [|done]. subst u. by rewrite Hst0 in Hu.
  - (* answer_cmd *)
    intros u' st' Hu'. simpl. unfold answer_cmd.
    destruct (tutor_state w !! uid) as [st0|] eqn:Hst0;
      [|exists st'; repeat split; [done|lia|lia]].
    destruct args as [|a0 rest]; [exists st'; repeat split; [done|lia|lia]|].
    destruct (py_int a0) as [n|]; [|exists st'; repeat split; [done|lia|lia]].
    destruct (tutor_quiz_question TC uid (tutor_state w)) as [[[[st2 [qu|]] qz]|]|];
      try (exists st'; repeat split; [done|lia|lia]).
    assert (Hgoal : ∀ sc, ∃ st'0,
      tutor_state (set_tutor_state
        (<[uid := {| lang := lang st0; level := level st0; module_idx := module_idx st0;
                     quiz_idx := quiz_idx st0 + 1; score := sc |}]> (tutor_state w)) w)
        !! u' = Some st'0
      ∧ module_idx st' ≤ module_idx st'0 ∧ quiz_idx st' ≤ quiz_idx st'0).
    { intros sc. simpl. rewrite lookup_insert. case_decide as Heq.
      - subst u'. rewrite Hst0 in Hu'. injection Hu' as ->.
        eexists. split; [done|]. simpl. lia.
      - exists st'. repeat split; [done|lia|lia]. }
    simpl. case_bool_decide; [apply Hgoal|].
    destruct (py_getitem qz (quiz_idx st0 + 1)); apply Hgoal.
  - (* progress_cmd *)
    intros u' st' Hu'. simpl. unfold progress_cmd.
    destruct (tutor_state w !! uid) as [st0|];
      [destruct (content_at (lang st0) (level st0))|];
      exists st'; repeat split; done || lia.
  - (* modules_cmd *)
    intros u' st' Hu'. simpl. unfold modules_cmd.
    destruct (tutor_state w !! uid) as [st0|];
      [destruct (content_at (lang st0) (level st0))|];
      exists st'; repeat split; done || lia.
  - (* errors_cmd *)
    intros u' st' Hu'. simpl. unfold errors_cmd.
    destruct (tutor_state w !! uid) as [st0|];
      [destruct (content_at (lang st0) (level st0))|];
      exists st'; repeat split; done || lia.
Qed.

End tutor_facts.

(** *** The tutor on the catalog excerpt *)

Example mid_quiz_session :
  tutor_state mid_quiz_world !! 7
  = Some {| lang := "python"; level := 0; module_idx := 1; quiz_idx := 2; score := 1 |}.
Proof. vm_compute. reflexivity. Qed.

Lemma next_cmd_walks_modules_witness :
  ∃ w' st',
    run_script catalog_excerpt ascii_lower decimal_int
      (replicate (length (modules python_0)) (7, Next)) fresh_python_world =
      (module_replies 0 (Z.of_nat (length (modules python_0))) (modules python_0), w')
    ∧ tutor_state w' !! 7 = Some st'
    ∧ module_idx st' = Z.of_nat (length (modules python_0))
    ∧ ∀ k, run_script catalog_excerpt ascii_lower decimal_int (replicate k (7, Next)) w' =
             (replicate k (Replied MsgNoMoreModules), w').
Proof.
  apply (next_cmd_walks_modules catalog_excerpt ascii_lower decimal_int 7
           fresh_python_world
           {| lang := "python"; level := 0; module_idx := 0; quiz_idx := 0; score := 0 |}
           python_0).
  - vm_compute. reflexivity.
  - vm_compute. reflexivity.
  - reflexivity.
Defined.

Lemma answer_cmd_scores_witness :
  (∃ qu, quiz python_0 !! 2%nat = Some qu ∧
     answer_cmd catalog_excerpt decimal_int 7 ["1"] mid_quiz_world =
       (Replied (MsgVerdict true 1 (QuizEnd 2 3)),
        save_state (set_tutor_state
          (<[7 := {| lang := "python"; level := 0; module_idx := 1;
                     quiz_idx := 3; score := 2 |}]> (tutor_state mid_quiz_world))
          mid_quiz_world)))
  ∧ (∃ outs w' st' r,
       run_script catalog_excerpt ascii_lower decimal_int
         ((7, Quiz) :: ((λ s, (7, Answer [s])) <$> ["2"; "2"; "1"])) fresh_python_world
       = (outs, w')
       ∧ tutor_state w' !! 7 = Some st'
       ∧ score st' = 3 ∧ quiz_idx st' = 3
       ∧ last outs = Some (Replied (MsgVerdict true r (QuizEnd 3 3)))).
Proof.
  destruct (answer_cmd_scores catalog_excerpt ascii_lower decimal_int) as [Hstep Hrun].
  split.
  - destruct (Hstep 7 mid_quiz_world
                {| lang := "python"; level := 0; module_idx := 1; quiz_idx := 2; score := 1 |}
                python_0 "1"%string [] 1) as (qu & Hqu & Hans).
    + vm_compute. reflexivity.
    + vm_compute. reflexivity.
    + simpl. lia.
    + vm_compute. reflexivity.
    + exists qu. split; [exact Hqu|].
      simpl in Hqu. injection Hqu as <-. exact Hans.
  - apply (Hrun 7 fresh_python_world
             {| lang := "python"; level := 0; module_idx := 0; quiz_idx := 0; score := 0 |}
             python_0 ["2"; "2"; "1"]%string).
    + vm_compute. reflexivity.
    + vm_compute. reflexivity.
    + discriminate.
    + repeat constructor.
Defined.

(** The invariants are needed for C6: on a session over [javascript]
    level 0 with [quiz_idx = 2] and [score = 1], which no command
    produces, the failing [quiz_cmd] shows its assignments. *)
Lemma quiz_failure_resets_session :
  ¬ quiz_failure_keeps_session catalog_excerpt 7 stale_quiz_world.
Proof.
  intros Hclaim.
  destruct (Hclaim
    {| lang := "javascript"; level := 0; module_idx := 1; quiz_idx := 2; score := 1 |}
    javascript_0) as [_ Hkept].
  - vm_compute. reflexivity.
  - vm_compute. reflexivity.
  - reflexivity.
  - vm_compute in Hkept. discriminate Hkept.
Qed.

Lemma quiz_cmd_empty_quiz_witness :
  let w := tutor_set 7 "javascript" 0 initial_world in
  quiz_cmd catalog_excerpt 7 w = (Replied MsgNoQuiz, w)
  ∧ quiz_failure_keeps_session catalog_excerpt 7 w.
Proof.
  apply (quiz_cmd_empty_quiz catalog_excerpt 7 (tutor_set 7 "javascript" 0 initial_world)
           {| lang := "javascript"; level := 0; module_idx := 0; quiz_idx := 0; score := 0 |}
           javascript_0).
  - vm_compute. reflexivity.
  - vm_compute. reflexivity.
  - simpl. lia.
  - simpl. lia.
Defined.

Lemma tutor_commands_keep_invariants_witness :
  sessions_ok catalog_excerpt
    (handle catalog_excerpt ascii_lower decimal_int 7 (Answer ["3"]) initial_world).2
  ∧ sessions_ok catalog_excerpt mid_quiz_world.
Proof.
  destruct (tutor_commands_keep_invariants catalog_excerpt ascii_lower decimal_int)
    as [Hstep Hrun].
  split.
  - apply Hstep. intros uid st Hst. vm_compute in Hst. discriminate Hst.
  - apply Hrun.
Defined.

(** C10, counterexample: two answers into the quiz, [quiz_cmd] takes the
    quiz cursor of the user from 2 back to 0. *)
Lemma quiz_cmd_lowers_quiz_cursor :
  ¬ cursors_never_decrease catalog_excerpt ascii_lower decimal_int 7 Quiz mid_quiz_world.
Proof.
  intros Hclaim.
  destruct (Hclaim 7
    {| lang := "python"; level := 0; module_idx := 1; quiz_idx := 2; score := 1 |})
    as (st' & Hst' & _ & Hquiz).
  - vm_compute. reflexivity.
  - vm_compute in Hst'. injection Hst' as <-. simpl in Hquiz. lia.
Qed.

Lemma cursors_monotone_except_quiz_witness :
  (∃ st', tutor_state (handle catalog_excerpt ascii_lower decimal_int 7 Quiz mid_quiz_world).2
            !! 7 = Some st'
          ∧ module_idx st' = 1
          ∧ quiz_idx st' = 0)
  ∧ cursors_never_decrease catalog_excerpt ascii_lower decimal_int 7 Next mid_quiz_world.
Proof.
  split.
  - apply (cursors_monotone_except_quiz catalog_excerpt ascii_lower decimal_int
             7 Quiz mid_quiz_world 7
             {| lang := "python"; level := 0; module_idx := 1; quiz_idx := 2; score := 1 |}).
    vm_compute. reflexivity.
  - apply (cursors_monotone_except_quiz catalog_excerpt ascii_lower decimal_int
             7 Next mid_quiz_world 7
             {| lang := "python"; level := 0; module_idx := 1; quiz_idx := 2; score := 1 |}).
    vm_compute. reflexivity.
Defined.

(** ** Media *)

Section media_facts.
Context (E : media_env).

Local Abbreviation ocr_cached := (ocr_cached E).
Local Abbreviation _download_with_retry := (_download_with_retry E).

(** [ocr_cached] never raises, runs the OCR at most once, leaves the text
    it returns in the cache under the digest, and only adds to the cache. *)
Lemma ocr_cached_stores content w :
  ∃ text,
    (ocr_cached content w).1 = Val text
    ∧ ocr_cache (ocr_cached content w).2 !! sha256_hexdigest E content = Some text
    ∧ ocr_cache w ⊆ ocr_cache (ocr_cached content w).2
    ∧ (length (ocr_runs (ocr_cached content w).2) ≤ length (ocr_runs w) + 1)%nat.
Proof.
  unfold ocr_cached.
  destruct (ocr_cache w !! sha256_hexdigest E content) as [text|] eqn:Hhit.
  - exists text. simpl. repeat split; try done. lia.
  - eexists. simpl. repeat split.
    + by rewrite lookup_insert_eq.
    + by apply insert_subseteq.
    + rewrite length_app. simpl. lia.
Qed.

(** A hit: the cached text is returned and nothing changes. *)
Lemma ocr_cached_hit content w text :
  ocr_cache w !! sha256_hexdigest E content = Some text →
  ocr_cached content w = (Val text, w).
Proof. intros Hhit. unfold ocr_cached. by rewrite Hhit. Qed.

(** C3. Two [ocr_cached] calls on payloads with the same digest
    (byte-identical payloads in particular), the second in any state
    whose cache extends the one the first call left.  The first call
    returns the text derived from its payload, the text [ocr_image_path]
    gives on this one run, and stores it under the digest (or, the digest
    being in the cache already, returns the cached text without a run);
    the second call returns the same text, changes nothing and does not
    run the OCR; the two calls together run it at most once. *)
Theorem ocr_cache_computes_once (b1 b2 : list byte) (w w2 : media_world) :
  sha256_hexdigest E b1 = sha256_hexdigest E b2 →
  ocr_cache (ocr_cached b1 w).2 ⊆ ocr_cache w2 →
  ∃ text,
    (ocr_cached b1 w).1 = Val text
    ∧ ocr_cache (ocr_cached b1 w).2 !! sha256_hexdigest E b1 = Some text
    ∧ match ocr_cache w !! sha256_hexdigest E b1 with
      | Some cached =>
          text = cached ∧ ocr_runs (ocr_cached b1 w).2 = ocr_runs w
      | None =>
          text = ocr_image_path E (length (ocr_runs w)) b1
          ∧ ocr_runs (ocr_cached b1 w).2 = ocr_runs w ++ [b1]
      end
    ∧ ocr_cached b2 w2 = (Val text, w2)
    ∧ ((length (ocr_runs (ocr_cached b1 w).2) - length (ocr_runs w))
       + (length (ocr_runs (ocr_cached b2 w2).2) - length (ocr_runs w2)) ≤ 1)%nat.
Proof.
  intros Hdigest Hgrow.
  assert (Hfirst : ∃ text,
    (ocr_cached b1 w).1 = Val text
    ∧ ocr_cache (ocr_cached b1 w).2 !! sha256_hexdigest E b1 = Some text
    ∧ match ocr_cache w !! sha256_hexdigest E b1 with
      | Some cached =>
          text = cached ∧ ocr_runs (ocr_cached b1 w).2 = ocr_runs w
      | None =>
          text = ocr_image_path E (length (ocr_runs w)) b1
          ∧ ocr_runs (ocr_cached b1 w).2 = ocr_runs w ++ [b1]
      end).
  { unfold ocr_cached.
    destruct (ocr_cache w !! sha256_hexdigest E b1) as [cached|] eqn:Hhit; simpl.
    - by exists cached.
    - eexists. split; [done|]. split; [by rewrite lookup_insert_eq | done]. }
  destruct Hfirst as (text & Hret & Hstored & Hderived).
  assert (Hhit : ocr_cache w2 !! sha256_hexdigest E b2 = Some text).
  { rewrite <- Hdigest. eapply lookup_weaken; [exact Hstored | exact Hgrow]. }
  exists text. rewrite (ocr_cached_hit b2 w2 text Hhit). cbn [fst snd].
  split; [done|]. split; [done|]. split; [done|]. split; [done|].
  destruct (ocr_cache w !! sha256_hexdigest E b1) as [cached|];
    destruct Hderived as [_ ->]; [|rewrite length_app; simpl]; lia.
Qed.

(** *** The cache grows monotonically under every handler *)

Lemma grows_ret {A : Type} (a : A) : grows_cache (mret a).
Proof. by intros w. Qed.

Lemma grows_raise {A : Type} (e : tg_exn) : grows_cache (raise e : M A).
Proof. by intros w. Qed.

Lemma grows_bind {A B : Type} (c : M A) (f : A → M B) :
  grows_cache c → (∀ a, grows_cache (f a)) → grows_cache (c ≫= f).
Proof.
  intros Hc Hf w. unfold mbind, M_bind.
  specialize (Hc w). destruct (c w) as [[a|e] w1]; simpl in *; [|done].
  by etrans; [exact Hc | apply Hf].
Qed.

Lemma grows_attempt {A : Type} (c : M A) : grows_cache c → grows_cache (attempt c).
Proof. intros Hc w. unfold attempt. specialize (Hc w). by destruct (c w). Qed.

Lemma grows_modify (f : media_world → media_world) :
  (∀ w, ocr_cache (f w) = ocr_cache w) → grows_cache (modify f).
Proof. intros Hf w. simpl. by rewrite Hf. Qed.

Lemma grows_rate_limited uid : grows_cache (rate_limited E uid).
Proof. intros w. unfold rate_limited. by destruct (_rate_limited _ _ _ _ _). Qed.

Lemma grows_download fi n p : grows_cache (download fi n p).
Proof. intros w. unfold download. by destruct (ending (download_to_drive fi n)). Qed.

Lemma grows_download_loop fi p attempts : grows_cache (download_loop fi p attempts).
Proof.
  induction attempts as [|n rest IH]; simpl; [apply grows_ret|].
  apply grows_bind; [apply grows_attempt, grows_download|].
  intros [?|[T| |]]; by (apply grows_ret || apply grows_raise || apply IH).
Qed.

Lemma grows_download_with_retry f suffix max_mb :
  grows_cache (_download_with_retry f suffix max_mb).
Proof.
  unfold _download_with_retry.
  destruct (get_file f) as [fi|e]; [|apply grows_raise].
  case_bool_decide; [apply grows_ret|].
  apply grows_bind; [by intros w|]. intros p. apply grows_download_loop.
Qed.

Lemma grows_finally_remove tmp_path : grows_cache (finally_remove tmp_path).
Proof. destruct tmp_path; [by apply grows_modify | apply grows_ret]. Qed.

Lemma grows_ocr_cached content : grows_cache (ocr_cached content).
Proof. intros w. by destruct (ocr_cached_stores content w) as (? & _ & _ & ? & _). Qed.

Lemma grows_remember uid kind text : grows_cache (_remember E uid kind text).
Proof. by apply grows_modify. Qed.

Lemma grows_handle_photo uid photos : grows_cache (handle_photo E uid photos).
Proof.
  unfold handle_photo.
  apply grows_bind; [apply grows_rate_limited|]. intros [|]; [apply grows_ret|].
  destruct (last photos) as [best|]; [|apply grows_ret].
  apply grows_bind; [apply grows_attempt, grows_download_with_retry|].
  intros [[p|]|e];
    try (apply grows_bind; [apply grows_finally_remove | intros; apply grows_ret]).
  apply grows_bind; [by intros w|]. intros content.
  apply grows_bind; [apply grows_ocr_cached|]. intros extracted.
  case_bool_decide.
  - apply grows_bind; [apply grows_finally_remove | intros; apply grows_ret].
  - apply grows_bind; [apply grows_remember|]. intros _.
    apply grows_bind; [apply grows_finally_remove | intros; apply grows_ret].
Qed.

Lemma grows_handle_document uid doc : grows_cache (handle_document E uid doc).
Proof.
  unfold handle_document.
  apply grows_bind; [apply grows_rate_limited|]. intros [|]; [apply grows_ret|].
  destruct doc as [d|]; [|apply grows_ret].
  destruct (negb _); [apply grows_ret|].
  apply grows_bind; [apply grows_attempt, grows_download_with_retry|].
  intros [[p|]|e];
    try (apply grows_bind; [apply grows_finally_remove | intros; apply grows_ret]).
  apply grows_bind; [by intros w|]. intros content.
  case_bool_decide.
  - apply grows_bind; [apply grows_finally_remove | intros; apply grows_ret].
  - apply grows_bind; [apply grows_remember|]. intros _.
    apply grows_bind; [apply grows_finally_remove | intros; apply grows_ret].
Qed.

Lemma grows_handle_text uid text : grows_cache (handle_text E uid text).
Proof.
  unfold handle_text.
  apply grows_bind; [apply grows_rate_limited|]. intros [|]; [apply grows_ret|].
  case_bool_decide; [apply grows_ret|].
  apply grows_bind; [apply grows_remember | intros; apply grows_ret].
Qed.

(** *** The retry loop *)

Lemma download_loop_chain fi p attempts : ∀ w,
  ∃ new, downloads (download_loop fi p attempts w).2 = downloads w ++ new
         ∧ retry_chain (clock w) attempts new.
Proof.
  induction attempts as [|n rest IH]; intros w.
  - exists []. simpl. by rewrite app_nil_r.
  - simpl. unfold mbind, M_bind, attempt, download.
    destruct (ending (download_to_drive fi n)) as [content|[T| |]] eqn:Hend; simpl.
    + eexists [_]. by repeat split.
    + match goal with |- context [download_loop fi p rest ?w1] =>
        destruct (IH w1) as (new & Hnew & Hchain) end.
      rewrite Hnew. simpl. eexists (_ :: new). rewrite <- app_assoc. by repeat split.
    + match goal with |- context [download_loop fi p rest ?w1] =>
        destruct (IH w1) as (new & Hnew & Hchain) end.
      rewrite Hnew. simpl. eexists (_ :: new). rewrite <- app_assoc. by repeat split.
    + eexists [_]. by repeat split.
Qed.

(** In a retry chain the next attempt starts when the one before ends. *)
Lemma retry_chain_back_to_back log : ∀ t0 attempts i a b,
  retry_chain t0 attempts log →
  log !! i = Some a → log !! S i = Some b →
  started b = ended a.
Proof.
  induction log as [|x log IH]; intros t0 attempts i a b Hchain Ha Hb; [done|].
  destruct attempts as [|n ns]; [done|].
  destruct Hchain as (_ & _ & Hrest).
  assert (Hlog : retry_chain (ended x) ns log).
  { destruct (how_ended x) as [?|[?| |]]; try done; subst log; done. }
  destruct i as [|i].
  - simpl in Ha, Hb. injection Ha as ->.
    destruct log as [|y log]; [done|]. simpl in Hb. injection Hb as ->.
    destruct ns as [|n' ns]; [done|]. by destruct Hlog as (_ & -> & _).
  - simpl in Ha, Hb. by eapply IH.
Qed.

(** In a retry chain an attempt ended by [RetryAfter] is followed by a
    further attempt whenever an attempt number is left. *)
Lemma retry_chain_retries log : ∀ t0 attempts i a T,
  retry_chain t0 attempts log →
  log !! i = Some a →
  how_ended a = Exc (RetryAfter T) →
  (S i < length attempts)%nat →
  is_Some (log !! S i).
Proof.
  induction log as [|x log IH]; intros t0 attempts i a T Hchain Ha Hend Hleft; [done|].
  destruct attempts as [|n ns]; [done|].
  destruct Hchain as (_ & _ & Hrest).
  destruct i as [|i].
  - simpl in Ha. injection Ha as ->. rewrite Hend in Hrest.
    destruct log as [|y log]; [|by eexists].
    destruct ns; [simpl in Hleft; lia | done].
  - simpl in Ha. simpl in Hleft.
    assert (Hlog : retry_chain (ended x) ns log).
    { destruct (how_ended x) as [?|[?| |]]; try done; subst log; done. }
    eapply (IH _ ns i a T); try done. lia.
Qed.

(** C4 (as amended). The attempts [_download_with_retry] adds to the log
    follow one another without any wait, each starting at the clock
    reading at which the one before ended; an attempt ended by
    [RetryAfter] is followed by a further attempt as long as fewer than
    [DOWNLOAD_MAX_RETRIES] were made. *)
Theorem retry_after_retried_without_wait f suffix max_mb w :
  ∃ new,
    downloads (_download_with_retry f suffix max_mb w).2 = downloads w ++ new
    ∧ (∀ i a b, new !! i = Some a → new !! S i = Some b → started b = ended a)
    ∧ (∀ i a T, new !! i = Some a → how_ended a = Exc (RetryAfter T) →
                Z.of_nat (S i) < DOWNLOAD_MAX_RETRIES E →
                is_Some (new !! S i)).
Proof.
  unfold _download_with_retry.
  assert (Hnone : ∃ new : list attempt_log,
    downloads w = downloads w ++ new
    ∧ (∀ i a b, new !! i = Some a → new !! S i = Some b → started b = ended a)
    ∧ (∀ i a T, new !! i = Some a → how_ended a = Exc (RetryAfter T) →
                Z.of_nat (S i) < DOWNLOAD_MAX_RETRIES E → is_Some (new !! S i))).
  { exists []. by rewrite app_nil_r. }
  destruct (get_file f) as [fi|e]; [|exact Hnone].
  case_bool_decide; [exact Hnone|].
  unfold mbind, M_bind, named_temporary_file. simpl.
  match goal with |- context [download_loop fi ?p ?l ?w1] =>
    destruct (download_loop_chain fi p l w1) as (new & Hnew & Hchain) end.
  simpl in Hnew. exists new. split; [exact Hnew|]. split.
  - intros i a b. by eapply retry_chain_back_to_back.
  - intros i a T Ha Hend Hleft. eapply retry_chain_retries; try done.
    rewrite length_seqZ. lia.
Qed.

(** *** The size check *)

(** [_mb] is within half a hundredth of a MB of the exact size. *)
Lemma _mb_bounds b :
  1048576 * _mb b - 524288 ≤ 100 * b ≤ 1048576 * _mb b + 524288.
Proof.
  unfold _mb.
  change (1024 * 1024) with 1048576.
  pose proof (Z.div_mod (b * 100) 1048576 ltac:(lia)) as Hdm.
  pose proof (Z.mod_pos_bound (b * 100) 1048576 ltac:(lia)) as Hr.
  repeat case_bool_decide; try destruct (Z.even _); lia.
Qed.

(** A file whose rounded size is above the limit is turned down before
    anything is allocated or transferred. *)
Lemma oversize_rejected f fi suffix max_mb w :
  get_file f = Val fi →
  _mb (default 0 (file_size fi)) > max_mb →
  _download_with_retry f suffix max_mb w = (Val None, w).
Proof.
  intros Hf Hsize. unfold _download_with_retry. rewrite Hf.
  by rewrite bool_decide_eq_true_2.
Qed.

(** What a successful fetch guarantees about the declared size: its
    rounded value is within the limit, so the size itself may exceed the
    limit by up to half a hundredth of a MB. *)
Lemma fetched_size_bound f suffix max_mb w p :
  (_download_with_retry f suffix max_mb w).1 = Val (Some p) →
  ∃ fi, get_file f = Val fi
        ∧ _mb (default 0 (file_size fi)) ≤ max_mb
        ∧ 100 * default 0 (file_size fi) ≤ 1048576 * max_mb + 524288.
Proof.
  unfold _download_with_retry.
  destruct (get_file f) as [fi|e]; [|done].
  case_bool_decide as Hsize; [done|]. intros _.
  exists fi. split; [done|]. split; [lia|].
  pose proof (_mb_bounds (default 0 (file_size fi))). lia.
Qed.

(** *** The temporary file *)

Lemma download_loop_keeps_file fi p attempts : ∀ w,
  is_Some (tmp_files w !! p) →
  is_Some (tmp_files (download_loop fi p attempts w).2 !! p).
Proof.
  induction attempts as [|n rest IH]; intros w Hp; [done|].
  simpl. unfold mbind, M_bind, attempt, download.
  destruct (ending (download_to_drive fi n)) as [content|[T| |]]; simpl.
  - rewrite lookup_insert_eq. by eexists.
  - by apply IH.
  - by apply IH.
  - done.
Qed.

(** Past the size check, [_download_with_retry] leaves the file it
    created on disk, however the transfer ends. *)
Lemma fetch_leaves_temp_file f fi suffix max_mb w :
  get_file f = Val fi →
  ¬ _mb (default 0 (file_size fi)) > max_mb →
  is_Some (tmp_files (_download_with_retry f suffix max_mb w).2 !! tmp_count w).
Proof.
  intros Hf Hsize. unfold _download_with_retry. rewrite Hf.
  rewrite bool_decide_eq_false_2 by done.
  unfold mbind, M_bind, named_temporary_file. simpl.
  apply download_loop_keeps_file. simpl. rewrite lookup_insert_eq. by eexists.
Qed.

(** When the fetch of [handle_photo] gets past the size check and does
    not return a path, the temporary file is still there once the handler
    is through: its [finally] block sees [tmp_path = None]. *)
Lemma handle_photo_failed_fetch_leaks uid photos best fi w w1 :
  rate_limited E uid w = (Val false, w1) →
  last photos = Some best →
  get_file best = Val fi →
  ¬ _mb (default 0 (file_size fi)) > MAX_PHOTO_SIZE_MB E →
  (∀ p, (_download_with_retry best ".jpg" (MAX_PHOTO_SIZE_MB E) w1).1 ≠ Val (Some p)) →
  is_Some (tmp_files (handle_photo E uid photos w).2 !! tmp_count w1).
Proof.
  intros Hrate Hlast Hf Hsize Hfail.
  pose proof (fetch_leaves_temp_file best fi ".jpg" _ w1 Hf Hsize) as Hleft.
  unfold handle_photo, mbind, M_bind at 1. rewrite Hrate, Hlast.
  unfold mbind, M_bind, attempt.
  destruct (_download_with_retry best ".jpg" (MAX_PHOTO_SIZE_MB E) w1)
    as [[[p|]|e] w2] eqn:Hdl; simpl in *.
  - by destruct (Hfail p).
  - done.
  - done.
Qed.

End media_facts.

(** *** The media handlers on the sample configuration *)

Lemma ocr_cache_computes_once_witness :
  let b := list_byte_of_string "x = 1/0 # first" in
  let w1 := (ocr_cached sample_env b initial_media_world).2 in
  let w2 := ((handle_text sample_env 7 "hola") w1).2 in
  ∃ text,
    (ocr_cached sample_env b initial_media_world).1 = Val text
    ∧ ocr_cache w1 !! sha256_hexdigest sample_env b = Some text
    ∧ (text = ocr_image_path sample_env 0 b ∧ ocr_runs w1 = [b])
    ∧ ocr_cached sample_env b w2 = (Val text, w2)
    ∧ ((length (ocr_runs w1) - length (ocr_runs initial_media_world))
       + (length (ocr_runs (ocr_cached sample_env b w2).2) - length (ocr_runs w2)) ≤ 1)%nat.
Proof.
  apply (ocr_cache_computes_once sample_env
           (list_byte_of_string "x = 1/0 # first") (list_byte_of_string "x = 1/0 # first")
           initial_media_world).
  - reflexivity.
  - reflexivity.
Defined.

(** The same photo sent twice: the second [handle_photo] gives the same
    analysis from the cached text, and the OCR has run once (on a second
    run the OCR stand-in would have read nothing). *)
Example same_photo_twice_one_ocr_run :
  let r1 := handle_photo sample_env 7 [throttled_photo] initial_media_world in
  let r2 := handle_photo sample_env 7 [throttled_photo] r1.2 in
  r1.1 = Val (Some (MsgAnalysis "Revisa: x = 1/0"))
  ∧ r2.1 = r1.1
  ∧ length (ocr_runs r2.2) = 1%nat.
Proof. vm_compute. repeat split; reflexivity. Qed.

(** C4, counterexample: the server answers the first transfer of the
    photo, which ends at clock 2, with [RetryAfter 5]; the second
    transfer starts at clock 2. *)
Lemma retry_after_not_waited :
  ¬ honours_retry_after
      (downloads (_download_with_retry sample_env throttled_photo ".jpg" 25600
                    initial_media_world).2).
Proof.
  intros Hclaim.
  specialize (Hclaim 0%nat
    {| attempt_no := 1; started := 0; ended := 2; how_ended := Exc (RetryAfter 5) |}
    {| attempt_no := 2; started := 2; ended := 4;
       how_ended := Val (list_byte_of_string "x = 1/0") |}
    5 eq_refl eq_refl eq_refl).
  simpl in Hclaim. lia.
Qed.

Lemma retry_after_retried_without_wait_witness :
  ∃ new,
    downloads (_download_with_retry sample_env throttled_photo ".jpg" 25600
                 initial_media_world).2 = downloads initial_media_world ++ new
    ∧ (∀ i a b, new !! i = Some a → new !! S i = Some b → started b = ended a)
    ∧ (∀ i a T, new !! i = Some a → how_ended a = Exc (RetryAfter T) →
                Z.of_nat (S i) < DOWNLOAD_MAX_RETRIES sample_env →
                is_Some (new !! S i)).
Proof. apply (retry_after_retried_without_wait sample_env). Defined.

(** The scenario of the specification: with three attempts allowed, two
    transient failures and a success make a successful fetch of exactly
    three transfers. *)
Example third_attempt_succeeds :
  let f := {| mime_type := None; doc_file_size := Some 2048;
              get_file := Val {|
                file_size := Some 2048;
                download_to_drive := λ n,
                  if bool_decide (n < 3)
                  then {| duration := 60; ending := Exc NetworkError |}
                  else {| duration := 1; ending := Val [] |} |} |} in
  let r := _download_with_retry sample_env f EmptyString 25600 initial_media_world in
  r.1 = Val (Some 0%nat) ∧ attempt_no <$> downloads r.2 = [1; 2; 3].
Proof. vm_compute. split; reflexivity. Qed.

(** C7: when all three transfers fail, [handle_photo] replies that the
    photo could not be downloaded and returns with the temporary file 0,
    created for the fetch, still on disk. *)
Theorem exhausted_fetch_leaves_temp_file :
  let r := handle_photo sample_env 7 [unreachable_photo] initial_media_world in
  r.1 = Val (Some MsgPhotoLimitOrFailed)
  ∧ length (downloads r.2) = 3%nat
  ∧ tmp_files initial_media_world !! 0%nat = None
  ∧ tmp_files r.2 !! 0%nat = Some [].
Proof. vm_compute. repeat split; reflexivity. Qed.

(** The same after a failure the retry loop does not catch, and in
    [handle_document]; after a successful fetch the file is removed. *)
Example forbidden_fetch_leaves_temp_file :
  let r := handle_photo sample_env 7 [forbidden_photo] initial_media_world in
  r.1 = Val (Some MsgPhotoError)
  ∧ length (downloads r.2) = 1%nat
  ∧ tmp_files r.2 !! 0%nat = Some [].
Proof. vm_compute. repeat split; reflexivity. Qed.

Example exhausted_document_fetch_leaves_temp_file :
  let r := handle_document sample_env 7 (Some unreachable_document) initial_media_world in
  r.1 = Val (Some MsgDocLimitOrFailed)
  ∧ length (downloads r.2) = 3%nat
  ∧ tmp_files r.2 !! 0%nat = Some [].
Proof. vm_compute. repeat split; reflexivity. Qed.

Example successful_fetch_removes_temp_file :
  let r := handle_photo sample_env 7 [throttled_photo] initial_media_world in
  r.1 = Val (Some (MsgAnalysis "Revisa: x = 1/0"))
  ∧ length (downloads r.2) = 2%nat
  ∧ tmp_count r.2 = 1%nat
  ∧ tmp_files r.2 = ∅.
Proof. vm_compute. repeat split; reflexivity. Qed.

(** The same rounding under a limit of 1 MB ([MAX_PHOTO_SIZE_MB=1]): a
    photo of 1 MiB + 5000 bytes is let through. *)
Example oversize_fetch_succeeds_small_limit :
  _mb (1048576 + 5000) = 100
  ∧ (_download_with_retry sample_env
       {| mime_type := None; doc_file_size := Some 1053576;
          get_file := Val {| file_size := Some 1053576;
                             download_to_drive := λ _,
                               {| duration := 1; ending := Val [] |} |} |}
       ".jpg" 100 initial_media_world).1 = Val (Some 0%nat).
Proof. vm_compute. split; reflexivity. Qed.

(** C8: a photo declared at 256 MiB + 1 byte, against the limit of
    256 MB: [_mb] rounds its size to 256.00, the check lets it through,
    a temporary file is created and the transfer made, and the fetch
    returns the path. *)
Theorem oversize_fetch_succeeds :
  let r := _download_with_retry sample_env oversize_photo ".jpg"
             (MAX_PHOTO_SIZE_MB sample_env) initial_media_world in
  file_size <$> get_file_info oversize_photo = Some (Some 268435457)
  ∧ 268435457 > 256 * (1024 * 1024)
  ∧ _mb 268435457 = MAX_PHOTO_SIZE_MB sample_env
  ∧ r.1 = Val (Some 0%nat)
  ∧ length (downloads r.2) = 1%nat
  ∧ tmp_count r.2 = 1%nat.
Proof. vm_compute. repeat split; reflexivity. Qed.

(** * Further properties of the code *)

(** ** Rate limiter: the decision, recovery, and what a call leaves alone *)

Lemma filter_all_true (P : Z → Prop) `{!∀ x, Decision (P x)} (l : list Z) :
  Forall P l → filter P l = l.
Proof.
  induction 1 as [|x l Hx Hl IH]; [done|].
  by rewrite filter_cons_True, IH.
Qed.

Lemma popleft_expired_is_filter W now dq :
  StronglySorted Z.le dq →
  popleft_expired W now dq = filter (λ t, now - t ≤ W) dq.
Proof.
  induction 1 as [|t rest Hsorted IH Hle]; simpl; [done|].
  case_bool_decide as Hexp.
  - rewrite filter_cons_False by lia. exact IH.
  - symmetry. apply filter_all_true. constructor; [lia|].
    eapply Forall_impl; [exact Hle|]. simpl. intros; lia.
Qed.

(** X1. On a window in non-decreasing order, popping expired timestamps
    off the front keeps exactly the timestamps [t] with [now - t ≤ W],
    and the call is rejected exactly when at least [M] of the stored
    timestamps are that recent. *)
Theorem rate_limited_counts_recent W M u now rl :
  Sorted Z.le (window_of u rl) →
  popleft_expired W now (window_of u rl) = filter (λ t, now - t ≤ W) (window_of u rl)
  ∧ (_rate_limited W M u now rl).1
    = bool_decide (M ≤ Z.of_nat (length (filter (λ t, now - t ≤ W) (window_of u rl)))).
Proof.
  intros Hsorted%Sorted_StronglySorted; [|intros x y z; lia].
  pose proof (popleft_expired_is_filter W now _ Hsorted) as Hfilter.
  split; [done|].
  unfold _rate_limited. fold (window_of u rl). rewrite Hfilter.
  repeat case_bool_decide; try done; lia.
Qed.

Lemma rate_limited_counts_recent_witness :
  let rl : gmap Z (list Z) := {[ 7 := [0; 10; 20; 40] ]} in
  popleft_expired 30 45 (window_of 7 rl) = filter (λ t, 45 - t ≤ 30) (window_of 7 rl)
  ∧ (_rate_limited 30 2 7 45 rl).1
    = bool_decide (2 ≤ Z.of_nat (length (filter (λ t, 45 - t ≤ 30) (window_of 7 rl)))).
Proof.
  apply (rate_limited_counts_recent 30 2 7 45 {[ 7 := [0; 10; 20; 40] ]}).
  vm_compute. repeat constructor; discriminate.
Defined.

Lemma popleft_expired_all W now dq :
  Forall (λ t, now - t > W) dq → popleft_expired W now dq = [].
Proof.
  induction 1 as [|t rest Ht Hrest IH]; simpl; [done|].
  by rewrite bool_decide_eq_true_2.
Qed.

(** X2. With a limit of at least one, a user none of whose stored
    timestamps is within the window (a new user in particular) is
    admitted, and the window kept for the user is then just this call. *)
Theorem rate_limit_recovers W M u now rl :
  1 ≤ M →
  Forall (λ t, now - t > W) (window_of u rl) →
  _rate_limited W M u now rl = (false, <[u := [now]]> rl).
Proof.
  intros HM Hold. unfold _rate_limited. fold (window_of u rl).
  rewrite (popleft_expired_all W now _ Hold). simpl.
  by rewrite bool_decide_eq_false_2 by lia.
Qed.

Lemma rate_limit_recovers_witness :
  _rate_limited 30 5 7 31 {[ 7 := [0; 0; 0; 0; 0] ]}
  = (false, <[7 := [31]]> {[ 7 := [0; 0; 0; 0; 0] ]}).
Proof.
  apply (rate_limit_recovers 30 5 7 31 {[ 7 := [0; 0; 0; 0; 0] ]}).
  - lia.
  - vm_compute. repeat constructor.
Defined.

(** X3. A call touches the window of its own user only; and a rejected
    call records nothing: the window it leaves is a suffix of the window
    it found, at least [M] long. *)
Theorem rate_limit_rejection_records_nothing W M u now rl :
  (∀ u', u' ≠ u → (_rate_limited W M u now rl).2 !! u' = rl !! u')
  ∧ ((_rate_limited W M u now rl).1 = true →
     window_of u (_rate_limited W M u now rl).2 `suffix_of` window_of u rl
     ∧ M ≤ Z.of_nat (length (window_of u (_rate_limited W M u now rl).2))).
Proof.
  unfold _rate_limited. fold (window_of u rl).
  destruct (popleft_expired_split W now (window_of u rl)) as (dropped & Hsplit & _).
  split.
  - intros u' Hne. case_bool_decide; simpl; by rewrite lookup_insert_ne.
  - case_bool_decide as Hfull; simpl; [|done]. intros _.
    assert (Hwin : window_of u (<[u := popleft_expired W now (window_of u rl)]> rl)
                   = popleft_expired W now (window_of u rl)).
    { unfold window_of at 1. by rewrite lookup_insert_eq. }
    rewrite Hwin. split; [|lia]. by exists dropped.
Qed.

Lemma rate_limit_rejection_records_nothing_witness :
  let rl : gmap Z (list Z) := {[ 7 := [0; 0; 0; 0; 0] ]} in
  (∀ u', u' ≠ 7 → (_rate_limited 30 5 7 1 rl).2 !! u' = rl !! u')
  ∧ ((_rate_limited 30 5 7 1 rl).1 = true →
     window_of 7 (_rate_limited 30 5 7 1 rl).2 `suffix_of` window_of 7 rl
     ∧ 5 ≤ Z.of_nat (length (window_of 7 (_rate_limited 30 5 7 1 rl).2))).
Proof. apply (rate_limit_rejection_records_nothing 30 5 7 1). Defined.

(** ** History *)

Lemma history_of_remember E uid kind text w :
  history_of uid (_remember E uid kind text w).2
  = deque_append (HISTORY_MAX E) (kind, py_prefix 500 text) (history_of uid w).
Proof. unfold history_of at 1. simpl. by rewrite lookup_insert_eq. Qed.

Lemma remember_all_snoc E uid entries e w :
  remember_all E uid (entries ++ [e]) w
  = (_remember E uid e.1 e.2 (remember_all E uid entries w)).2.
Proof. unfold remember_all. by rewrite foldl_app. Qed.

(** X4. After any number of [_remember] calls for a user, the history
    kept for the user is the last [HISTORY_MAX] of what was there
    followed by the new entries, each text cut to 500 characters, oldest
    first. *)
Theorem remember_keeps_latest E uid entries w :
  0 ≤ HISTORY_MAX E →
  (length (history_of uid w) ≤ Z.to_nat (HISTORY_MAX E))%nat →
  let all := history_of uid w ++ ((λ e, (e.1, py_prefix 500 e.2)) <$> entries) in
  history_of uid (remember_all E uid entries w)
  = drop (length all - Z.to_nat (HISTORY_MAX E)) all.
Proof.
  intros _ Hold. simpl.
  induction entries as [|e entries IH] using rev_ind.
  - simpl. rewrite app_nil_r.
    replace (length (history_of uid w) - Z.to_nat (HISTORY_MAX E))%nat with 0%nat by lia.
    done.
  - rewrite remember_all_snoc, history_of_remember, IH.
    rewrite fmap_app. simpl. rewrite app_assoc.
    set (old := history_of uid w ++ _) in *.
    unfold deque_append.
    rewrite <- drop_app_le by lia.
    rewrite drop_drop. f_equal.
    rewrite !length_app, length_drop, length_app. simpl. lia.
Qed.

Lemma remember_keeps_latest_witness :
  history_of 7 (remember_all sample_env 7
                  [("texto", "a"); ("foto", "b"); ("texto", "c"); ("texto", "d");
                   ("documento", "e"); ("texto", "f"); ("foto", "g")]%string
                  initial_media_world)
  = [("texto", "c"); ("texto", "d"); ("documento", "e"); ("texto", "f"); ("foto", "g")]%string.
Proof.
  apply (remember_keeps_latest sample_env 7
           [("texto", "a"); ("foto", "b"); ("texto", "c"); ("texto", "d");
            ("documento", "e"); ("texto", "f"); ("foto", "g")]%string
           initial_media_world).
  - vm_compute. discriminate.
  - vm_compute. lia.
Defined.

(** ** Media: what each step of a handler leaves alone *)

Section preserves_facts.
Context (E : media_env) {B : Type} (f : media_world → B).

Lemma preserves_ret {A : Type} (a : A) : preserves f (mret a).
Proof. by intros w. Qed.

Lemma preserves_raise {A : Type} (e : tg_exn) : preserves f (raise e : M A).
Proof. by intros w. Qed.

Lemma preserves_bind {A C : Type} (c : M A) (k : A → M C) :
  preserves f c → (∀ a, preserves f (k a)) → preserves f (c ≫= k).
Proof.
  intros Hc Hk w. unfold mbind, M_bind.
  specialize (Hc w). destruct (c w) as [[a|e] w1]; simpl in *; [|done].
  by rewrite Hk.
Qed.

Lemma preserves_attempt {A : Type} (c : M A) : preserves f c → preserves f (attempt c).
Proof. intros Hc w. unfold attempt. specialize (Hc w). by destruct (c w). Qed.

Lemma preserves_modify (g : media_world → media_world) :
  (∀ w, f (g w) = f w) → preserves f (modify g).
Proof. intros Hg w. apply Hg. Qed.

Lemma preserves_gets {A : Type} (g : media_world → A) : preserves f (gets g).
Proof. by intros w. Qed.

Lemma preserves_download_loop fi p attempts :
  (∀ n, preserves f (download fi n p)) → preserves f (download_loop fi p attempts).
Proof.
  intros Hdl. induction attempts as [|n rest IH]; simpl; [apply preserves_ret|].
  apply preserves_bind; [apply preserves_attempt, Hdl|].
  intros [?|[T| |]]; by (apply preserves_ret || apply preserves_raise || apply IH).
Qed.

Lemma preserves_download_with_retry file suffix max_mb :
  (∀ s, preserves f (named_temporary_file s)) →
  (∀ fi n p, preserves f (download fi n p)) →
  preserves f (_download_with_retry E file suffix max_mb).
Proof.
  intros Htmp Hdl. unfold _download_with_retry.
  destruct (get_file file) as [fi|e]; [|apply preserves_raise].
  case_bool_decide; [apply preserves_ret|].
  apply preserves_bind; [apply Htmp|]. intros p. by apply preserves_download_loop.
Qed.

End preserves_facts.

Lemma preserves_rate_limited {B : Type} (f : media_world → B) E uid :
  (∀ w rl, f {| clock := clock w; rate_limit := rl; user_history := user_history w;
                ocr_cache := ocr_cache w; ocr_runs := ocr_runs w;
                tmp_files := tmp_files w; tmp_count := tmp_count w;
                downloads := downloads w |} = f w) →
  preserves f (rate_limited E uid).
Proof.
  intros Hf w. unfold rate_limited.
  destruct (_rate_limited _ _ _ _ _) as [limited rl]. apply Hf.
Qed.

Lemma preserves_download {B : Type} (f : media_world → B) fi n p :
  (∀ w t files log, f {| clock := t; rate_limit := rate_limit w;
                         user_history := user_history w;
                         ocr_cache := ocr_cache w; ocr_runs := ocr_runs w;
                         tmp_files := files; tmp_count := tmp_count w;
                         downloads := log |} = f w) →
  preserves f (download fi n p).
Proof.
  intros Hf w. unfold download.
  destruct (ending (download_to_drive fi n)); apply Hf.
Qed.

Lemma preserves_ocr_cached {B : Type} (f : media_world → B) E content :
  (∀ w cache runs, f {| clock := clock w; rate_limit := rate_limit w;
                        user_history := user_history w;
                        ocr_cache := cache; ocr_runs := runs;
                        tmp_files := tmp_files w; tmp_count := tmp_count w;
                        downloads := downloads w |} = f w) →
  preserves f (ocr_cached E content).
Proof.
  intros Hf w. unfold ocr_cached.
  destruct (ocr_cache w !! _); [done | apply Hf].
Qed.

Lemma preserves_finally_remove {B : Type} (f : media_world → B) tmp_path :
  (∀ w files, f {| clock := clock w; rate_limit := rate_limit w;
                   user_history := user_history w;
                   ocr_cache := ocr_cache w; ocr_runs := ocr_runs w;
                   tmp_files := files; tmp_count := tmp_count w;
                   downloads := downloads w |} = f w) →
  preserves f (finally_remove tmp_path).
Proof.
  intros Hf. destruct tmp_path; [|apply preserves_ret].
  apply preserves_modify. intros w. apply Hf.
Qed.

Lemma rate_limited_eq E uid w :
  rate_limited E uid w =
  (Val (_rate_limited (RATE_LIMIT_WINDOW_S E) (RATE_LIMIT_MAX E) uid (clock w) (rate_limit w)).1,
   {| clock := clock w;
      rate_limit :=
        (_rate_limited (RATE_LIMIT_WINDOW_S E) (RATE_LIMIT_MAX E) uid (clock w)
           (rate_limit w)).2;
      user_history := user_history w;
      ocr_cache := ocr_cache w; ocr_runs := ocr_runs w;
      tmp_files := tmp_files w; tmp_count := tmp_count w;
      downloads := downloads w |}).
Proof. unfold rate_limited. by destruct (_rate_limited _ _ _ _ _). Qed.

Lemma _rate_limited_rejected W M u now rl :
  (_rate_limited W M u now rl).1 = true →
  window_of u (_rate_limited W M u now rl).2 `suffix_of` window_of u rl
  ∧ ∀ u', u' ≠ u → (_rate_limited W M u now rl).2 !! u' = rl !! u'.
Proof.
  unfold _rate_limited. fold (window_of u rl).
  destruct (popleft_expired_split W now (window_of u rl)) as (dropped & Hsplit & _).
  case_bool_decide; simpl; [|done]. intros _. split.
  - unfold window_of at 1. rewrite lookup_insert_eq. simpl. by exists dropped.
  - intros u' Hne. by rewrite lookup_insert_ne.
Qed.

(** X5. A request of a rate-limited user is answered with the "too
    fast" message by all three handlers and commits nothing: the clock,
    the histories, the OCR cache and its runs, the temporary files and
    the transfers are as before, other users' windows too, and the
    user's own window gets no new timestamp (it is a suffix of the old
    one). *)
Theorem rate_limited_request_commits_nothing E uid w :
  (rate_limited E uid w).1 = Val true →
  let w' := (rate_limited E uid w).2 in
  (∀ text, handle_text E uid text w = (Val (Some MsgTooFast), w'))
  ∧ (∀ photos, handle_photo E uid photos w = (Val (Some MsgTooFast), w'))
  ∧ (∀ doc, handle_document E uid doc w = (Val (Some MsgTooFast), w'))
  ∧ clock w' = clock w
  ∧ user_history w' = user_history w
  ∧ ocr_cache w' = ocr_cache w
  ∧ ocr_runs w' = ocr_runs w
  ∧ tmp_files w' = tmp_files w
  ∧ tmp_count w' = tmp_count w
  ∧ downloads w' = downloads w
  ∧ (∀ u, u ≠ uid → rate_limit w' !! u = rate_limit w !! u)
  ∧ window_of uid (rate_limit w') `suffix_of` window_of uid (rate_limit w).
Proof.
  intros Hlim. simpl.
  unfold handle_text, handle_photo, handle_document, mbind, M_bind.
  destruct (rate_limited E uid w) as [[limited|e] w1] eqn:Hrl; [|done].
  simpl in Hlim. injection Hlim as ->.
  rewrite rate_limited_eq in Hrl. injection Hrl as Hdec <-. simpl.
  destruct (_rate_limited_rejected _ _ _ _ _ Hdec) as [Hsuffix Hothers].
  repeat split; done.
Qed.

Lemma rate_limited_request_commits_nothing_witness :
  let w := (run_media sample_env
              [(0, EvText 7 "a"); (0, EvText 7 "b"); (0, EvText 7 "c");
               (0, EvText 7 "d"); (0, EvText 7 "e")]%string initial_media_world).2 in
  let w' := (rate_limited sample_env 7 w).2 in
  (∀ text, handle_text sample_env 7 text w = (Val (Some MsgTooFast), w'))
  ∧ (∀ photos, handle_photo sample_env 7 photos w = (Val (Some MsgTooFast), w'))
  ∧ (∀ doc, handle_document sample_env 7 doc w = (Val (Some MsgTooFast), w'))
  ∧ clock w' = clock w
  ∧ user_history w' = user_history w
  ∧ ocr_cache w' = ocr_cache w
  ∧ ocr_runs w' = ocr_runs w
  ∧ tmp_files w' = tmp_files w
  ∧ tmp_count w' = tmp_count w
  ∧ downloads w' = downloads w
  ∧ (∀ u, u ≠ 7 → rate_limit w' !! u = rate_limit w !! u)
  ∧ window_of 7 (rate_limit w') `suffix_of` window_of 7 (rate_limit w).
Proof.
  apply (rate_limited_request_commits_nothing sample_env 7).
  vm_compute. reflexivity.
Defined.

(** A handler step that either leaves the histories alone or ends in an
    analysis reply. *)
Lemma history_or_analysis_bind {A : Type} (c : M A) (k : A → M (option media_reply)) :
  preserves user_history c →
  (∀ a w, user_history (k a w).2 = user_history w
          ∨ ∃ t, (k a w).1 = Val (Some (MsgAnalysis t))) →
  ∀ w, user_history ((c ≫= k) w).2 = user_history w
       ∨ ∃ t, ((c ≫= k) w).1 = Val (Some (MsgAnalysis t)).
Proof.
  intros Hc Hk w. unfold mbind, M_bind.
  specialize (Hc w). destruct (c w) as [[a|e] w1]; simpl in *; [|by left].
  destruct (Hk a w1) as [Hh|Ht]; [left; congruence | by right].
Qed.

Lemma history_or_analysis_pres (c : M (option media_reply)) :
  preserves user_history c →
  ∀ w, user_history (c w).2 = user_history w
       ∨ ∃ t, (c w).1 = Val (Some (MsgAnalysis t)).
Proof. intros Hc w. left. apply Hc. Qed.

Lemma handle_event_history_or_analysis E ev w :
  user_history (handle_event E ev w).2 = user_history w
  ∨ ∃ t, (handle_event E ev w).1 = Val (Some (MsgAnalysis t)).
Proof.
  revert w. destruct ev as [uid text|uid photos|uid doc]; simpl.
  - unfold handle_text.
    apply history_or_analysis_bind; [by apply preserves_rate_limited|].
    intros [|]; [by left|]. case_bool_decide; [by left|].
    intros w. right. by eexists.
  - unfold handle_photo.
    apply history_or_analysis_bind; [by apply preserves_rate_limited|].
    intros [|]; [by left|]. destruct (last photos) as [best|]; [|by left].
    apply history_or_analysis_bind.
    { apply preserves_attempt, preserves_download_with_retry;
        [by intros s w | intros; by apply preserves_download]. }
    intros [[p|]|e]; try (intros w; by left).
    apply history_or_analysis_bind; [apply preserves_gets|]. intros content.
    apply history_or_analysis_bind; [by apply preserves_ocr_cached|]. intros extracted.
    case_bool_decide; [intros w; by left|].
    intros w. right. by eexists.
  - unfold handle_document.
    apply history_or_analysis_bind; [by apply preserves_rate_limited|].
    intros [|]; [by left|]. destruct doc as [d|]; [|by left].
    destruct (negb _); [by left|].
    apply history_or_analysis_bind.
    { apply preserves_attempt, preserves_download_with_retry;
        [by intros s w | intros; by apply preserves_download]. }
    intros [[p|]|e]; try (intros w; by left).
    apply history_or_analysis_bind; [apply preserves_gets|]. intros content.
    case_bool_decide; [intros w; by left|].
    intros w. right. by eexists.
Qed.

(** X6. A media request that is not answered with an analysis (rejected,
    blank, refused, failed to download, nothing legible) leaves every
    user's history as it was. *)
Theorem history_only_after_analysis E ev w :
  (∀ t, (handle_event E ev w).1 ≠ Val (Some (MsgAnalysis t))) →
  user_history (handle_event E ev w).2 = user_history w.
Proof.
  intros Hno. destruct (handle_event_history_or_analysis E ev w) as [Hh|[t Ht]]; [done|].
  by destruct (Hno t).
Qed.

Lemma history_only_after_analysis_witness :
  user_history (handle_event sample_env (EvPhoto 7 [unreachable_photo]) initial_media_world).2
  = user_history initial_media_world.
Proof.
  apply (history_only_after_analysis sample_env (EvPhoto 7 [unreachable_photo])).
  intros t Ht. vm_compute in Ht. discriminate Ht.
Defined.

(** ** Media: the outcome of a fetch *)

(** What the retry loop logs and returns: the attempts made, in the order
    of the attempt numbers, how the last one ended, and that only the
    target file is touched. *)
Lemma download_loop_outcome fi p attempts : ∀ w,
  ∃ new,
    downloads (download_loop fi p attempts w).2 = downloads w ++ new
    ∧ (length new ≤ length attempts)%nat
    ∧ (∀ i a, new !! i = Some a → attempts !! i = Some (attempt_no a))
    ∧ delete p (tmp_files (download_loop fi p attempts w).2) = delete p (tmp_files w)
    ∧ tmp_count (download_loop fi p attempts w).2 = tmp_count w
    ∧ match (download_loop fi p attempts w).1 with
      | Val (Some p') =>
          p' = p ∧ ∃ a c, last new = Some a ∧ how_ended a = Val c
                          ∧ tmp_files (download_loop fi p attempts w).2 !! p = Some c
      | Val None =>
          length new = length attempts
          ∧ Forall (λ a, how_ended a = Exc NetworkError
                         ∨ ∃ T, how_ended a = Exc (RetryAfter T)) new
      | Exc e => ∃ a, last new = Some a ∧ how_ended a = Exc e
      end.
Proof.
  induction attempts as [|n rest IH]; intros w.
  - exists []. simpl. rewrite app_nil_r. repeat split; try done.
  - simpl. unfold mbind, M_bind, attempt, download.
    destruct (ending (download_to_drive fi n)) as [content|[T| |]] eqn:Hend; simpl.
    + eexists [_]. simpl. repeat split; try done.
      * lia.
      * intros [|i] a Ha; simpl in *; [by injection Ha as <-|done].
      * by rewrite delete_insert_eq.
      * eexists _, content. simpl. by rewrite lookup_insert_eq.
    + match goal with |- context [download_loop fi p rest ?w1] =>
        destruct (IH w1) as (new & Hnew & Hlen & Hno & Hdel & Hcnt & Hres) end.
      rewrite Hnew. simpl in *. eexists (_ :: new). rewrite <- app_assoc.
      split; [done|]. split; [simpl; lia|]. split.
      { intros [|i] a Ha; simpl in *; [by injection Ha as <-|by apply Hno]. }
      split; [done|]. split; [done|].
      match goal with |- context [download_loop fi p rest ?w1] =>
        destruct (download_loop fi p rest w1) as [[[p'|]|e] w2] end; simpl in *.
      * destruct Hres as (-> & a & c & Hlast & Ha & Hp). split; [done|].
        exists a, c. split; [|done]. rewrite last_cons, Hlast. done.
      * destruct Hres as [Hl Hall]. split; [lia|]. constructor; [|done]. right. by eexists.
      * destruct Hres as (a & Hlast & Ha). exists a. by rewrite last_cons, Hlast.
    + match goal with |- context [download_loop fi p rest ?w1] =>
        destruct (IH w1) as (new & Hnew & Hlen & Hno & Hdel & Hcnt & Hres) end.
      rewrite Hnew. simpl in *. eexists (_ :: new). rewrite <- app_assoc.
      split; [done|]. split; [simpl; lia|]. split.
      { intros [|i] a Ha; simpl in *; [by injection Ha as <-|by apply Hno]. }
      split; [done|]. split; [done|].
      match goal with |- context [download_loop fi p rest ?w1] =>
        destruct (download_loop fi p rest w1) as [[[p'|]|e] w2] end; simpl in *.
      * destruct Hres as (-> & a & c & Hlast & Ha & Hp). split; [done|].
        exists a, c. split; [|done]. rewrite last_cons, Hlast. done.
      * destruct Hres as [Hl Hall]. split; [lia|]. constructor; [|done]. by left.
      * destruct Hres as (a & Hlast & Ha). exists a. by rewrite last_cons, Hlast.
    + eexists [_]. simpl. repeat split; try done.
      * lia.
      * intros [|i] a Ha; simpl in *; [by injection Ha as <-|done].
      * by eexists.
Qed.

Lemma fetch_outcome E f fi suffix max_mb w :
  get_file f = Val fi →
  ¬ _mb (default 0 (file_size fi)) > max_mb →
  let r := _download_with_retry E f suffix max_mb w in
  let p := tmp_count w in
  ∃ new,
    downloads r.2 = downloads w ++ new
    ∧ (length new ≤ Z.to_nat (DOWNLOAD_MAX_RETRIES E))%nat
    ∧ (∀ i a, new !! i = Some a → attempt_no a = Z.of_nat i + 1)
    ∧ delete p (tmp_files r.2) = delete p (tmp_files w)
    ∧ tmp_count r.2 = S p
    ∧ match r.1 with
      | Val (Some p') =>
          p' = p ∧ ∃ a c, last new = Some a ∧ how_ended a = Val c
                          ∧ tmp_files r.2 !! p = Some c
      | Val None =>
          length new = Z.to_nat (DOWNLOAD_MAX_RETRIES E)
          ∧ Forall (λ a, how_ended a = Exc NetworkError
                         ∨ ∃ T, how_ended a = Exc (RetryAfter T)) new
      | Exc e => ∃ a, last new = Some a ∧ how_ended a = Exc e
      end.
Proof.
  intros Hf Hsize. simpl. unfold _download_with_retry. rewrite Hf.
  rewrite bool_decide_eq_false_2 by done.
  unfold mbind, M_bind, named_temporary_file. simpl.
  match goal with |- context [download_loop fi ?p ?l ?w1] =>
    destruct (download_loop_outcome fi p l w1)
      as (new & Hnew & Hlen & Hno & Hdel & Hcnt & Hres) end.
  simpl in *. rewrite length_seqZ in Hlen, Hres.
  exists new. split; [done|]. split; [done|]. split.
  { intros i a Ha. apply Hno, lookup_seqZ in Ha as [-> _]. lia. }
  split; [by rewrite Hdel, delete_insert_eq|]. split; [done|]. done.
Qed.

(** X7. When the fetch of [handle_photo] returns a path, the handler
    ends with that temporary file removed and no other file touched: the
    files on disk are those from before the request (less the fresh name
    itself), whatever the OCR and the analysis give. *)
Theorem photo_success_removes_temp_file E uid photos best w w1 p :
  rate_limited E uid w = (Val false, w1) →
  last photos = Some best →
  (_download_with_retry E best ".jpg" (MAX_PHOTO_SIZE_MB E) w1).1 = Val (Some p) →
  p = tmp_count w
  ∧ tmp_files (handle_photo E uid photos w).2 = delete p (tmp_files w)
  ∧ tmp_count (handle_photo E uid photos w).2 = S (tmp_count w).
Proof.
  intros Hrate Hlast Hok.
  assert (Hw1 : tmp_files w1 = tmp_files w ∧ tmp_count w1 = tmp_count w).
  { rewrite rate_limited_eq in Hrate. by injection Hrate as _ <-. }
  destruct Hw1 as [Hfiles Hcount].
  assert (∃ fi, get_file best = Val fi ∧ ¬ _mb (default 0 (file_size fi)) > MAX_PHOTO_SIZE_MB E)
    as (fi & Hf & Hsize).
  { revert Hok. unfold _download_with_retry.
    destruct (get_file best) as [fi|e]; [|done].
    case_bool_decide; [done|]. intros _. by exists fi. }
  destruct (fetch_outcome E best fi ".jpg" _ w1 Hf Hsize)
    as (new & _ & _ & _ & Hdel & Hcnt & Hres).
  simpl in Hdel, Hcnt, Hres.
  remember (handle_photo E uid photos w) as r eqn:Hr.
  unfold handle_photo, mbind, M_bind in Hr. rewrite Hrate, Hlast in Hr.
  unfold attempt in Hr.
  destruct (_download_with_retry E best ".jpg" (MAX_PHOTO_SIZE_MB E) w1)
    as [[[p'|]|e] w2] eqn:Hdl; simpl in Hok; try done.
  injection Hok as ->. simpl in Hdel, Hcnt, Hres. destruct Hres as [-> _].
  split; [done|]. unfold file_content, gets in Hr.
  pose proof (preserves_ocr_cached tmp_files E
                (default [] (tmp_files w2 !! tmp_count w1)) ltac:(done) w2) as Hf3.
  pose proof (preserves_ocr_cached tmp_count E
                (default [] (tmp_files w2 !! tmp_count w1)) ltac:(done) w2) as Hc3.
  destruct (ocr_cached_stores E (default [] (tmp_files w2 !! tmp_count w1)) w2)
    as (text & Hret & _).
  destruct (ocr_cached E (default [] (tmp_files w2 !! tmp_count w1)) w2)
    as [[extracted|e] w3] eqn:Hocr; simpl in *; [|done].
  destruct (bool_decide (str_strip E (_sanitize_text E extracted) = EmptyString));
    subst r; simpl; rewrite Hf3, Hc3, Hdel, Hcnt, Hfiles, Hcount; done.
Qed.

Lemma photo_success_removes_temp_file_witness :
  0%nat = tmp_count initial_media_world
  ∧ tmp_files (handle_photo sample_env 7 [throttled_photo] initial_media_world).2
    = delete 0%nat (tmp_files initial_media_world)
  ∧ tmp_count (handle_photo sample_env 7 [throttled_photo] initial_media_world).2
    = S (tmp_count initial_media_world).
Proof.
  apply (photo_success_removes_temp_file sample_env 7 [throttled_photo] throttled_photo
           initial_media_world (rate_limited sample_env 7 initial_media_world).2 0%nat).
  - vm_compute. reflexivity.
  - reflexivity.
  - vm_compute. reflexivity.
Defined.

(** X8. A fetch makes at most [DOWNLOAD_MAX_RETRIES] transfers, numbered
    from 1 in order.  It returns a path exactly after a transfer that
    succeeded, and the file at that path then holds what this transfer
    delivered; it returns [None] either without any transfer or after
    [DOWNLOAD_MAX_RETRIES] transfers that all ended in [NetworkError] or
    [RetryAfter]; and an exception that escapes is the one [get_file] or
    the last transfer raised. *)
Theorem fetch_respects_retry_budget E f suffix max_mb w :
  ∃ new,
    downloads (_download_with_retry E f suffix max_mb w).2 = downloads w ++ new
    ∧ Z.of_nat (length new) ≤ Z.max 0 (DOWNLOAD_MAX_RETRIES E)
    ∧ (∀ i a, new !! i = Some a → attempt_no a = Z.of_nat i + 1)
    ∧ (∀ p, (_download_with_retry E f suffix max_mb w).1 = Val (Some p) →
         ∃ a c, last new = Some a ∧ how_ended a = Val c
                ∧ tmp_files (_download_with_retry E f suffix max_mb w).2 !! p = Some c)
    ∧ ((_download_with_retry E f suffix max_mb w).1 = Val None →
         new = []
         ∨ (Z.of_nat (length new) = DOWNLOAD_MAX_RETRIES E
            ∧ Forall (λ a, how_ended a = Exc NetworkError
                           ∨ ∃ T, how_ended a = Exc (RetryAfter T)) new))
    ∧ (∀ e, (_download_with_retry E f suffix max_mb w).1 = Exc e →
         get_file f = Exc e ∨ ∃ a, last new = Some a ∧ how_ended a = Exc e).
Proof.
  destruct (get_file f) as [fi|e0] eqn:Hf.
  - destruct (decide (_mb (default 0 (file_size fi)) > max_mb)) as [Hbig|Hok].
    + rewrite (oversize_rejected E f fi suffix max_mb w Hf Hbig).
      exists []. simpl. rewrite app_nil_r. repeat split; try done; try lia. by left.
    + destruct (fetch_outcome E f fi suffix max_mb w Hf Hok)
        as (new & Hnew & Hlen & Hno & _ & _ & Hres).
      simpl in *. exists new. split; [done|]. split; [lia|]. split; [done|].
      destruct (_download_with_retry E f suffix max_mb w) as [[[p'|]|e] w2]; simpl in *.
      * split; [|done]. intros p Hp. injection Hp as <-.
        destruct Hres as (-> & a & c & ? & ? & ?). by exists a, c.
      * split; [done|]. split; [|done]. intros _. destruct Hres as [Hl Hall].
        destruct (decide (DOWNLOAD_MAX_RETRIES E ≤ 0)).
        -- left. apply length_zero_iff_nil. lia.
        -- right. split; [lia | done].
      * split; [done|]. split; [done|]. intros e' He'. injection He' as <-. by right.
  - unfold _download_with_retry. rewrite Hf. exists []. simpl. rewrite app_nil_r.
    repeat split; try done; try lia. intros e He. injection He as <-. by left.
Qed.

(** X9. A fetch leaves the state exactly as it was, no file created and
    no transfer made, if and only if [get_file] raised or the rounded
    declared size is above the limit. *)
Theorem fetch_refused_iff_untouched E f suffix max_mb w :
  (_download_with_retry E f suffix max_mb w).2 = w
  ↔ (∃ e, get_file f = Exc e)
    ∨ (∃ fi, get_file f = Val fi ∧ _mb (default 0 (file_size fi)) > max_mb).
Proof.
  split.
  - intros Hsame. destruct (get_file f) as [fi|e] eqn:Hf; [|left; by eexists].
    destruct (decide (_mb (default 0 (file_size fi)) > max_mb)) as [Hbig|Hok].
    + right. by exists fi.
    + destruct (fetch_outcome E f fi suffix max_mb w Hf Hok) as (_ & _ & _ & _ & _ & Hcnt & _).
      simpl in Hcnt. rewrite Hsame in Hcnt. lia.
  - intros [[e Hf]|(fi & Hf & Hbig)].
    + unfold _download_with_retry. by rewrite Hf.
    + by rewrite (oversize_rejected E f fi suffix max_mb w Hf Hbig).
Qed.

(** ** Media: the size in MB *)

(** X10. For sizes below [2^53] bytes, where the float quotient of
    [_mb] is exact, [_mb] is monotone in the size and never more than
    half a hundredth of a MB away from it (sizes counted in bytes, MB in
    hundredths). *)
Theorem _mb_monotone_accurate b b' :
  0 ≤ b →
  b ≤ b' →
  b' < 2 ^ 53 →
  _mb b ≤ _mb b'
  ∧ -524288 ≤ 100 * b - 1048576 * _mb b ≤ 524288.
Proof.
  intros _ Hle _. pose proof (_mb_bounds b) as Hb. pose proof (_mb_bounds b') as Hb'.
  split; [|lia].
  destruct (decide (b = b')) as [->|Hne]; [lia|].
  destruct (decide (_mb b ≤ _mb b')) as [|Hgt]; [done|]. lia.
Qed.

Lemma _mb_monotone_accurate_witness :
  _mb 268435456 ≤ _mb 268440699
  ∧ -524288 ≤ 100 * 268435456 - 1048576 * _mb 268435456 ≤ 524288.
Proof. apply (_mb_monotone_accurate 268435456 268440699); lia. Defined.

(** ** Media: when a document is transferred *)

(** X11. [handle_document] attempts a transfer only for a user who is not
    rate limited and a document whose MIME type is allowed, whose
    [get_file] succeeds and whose rounded declared size is within
    [MAX_DOC_SIZE_MB], and only when [DOWNLOAD_MAX_RETRIES] is at least 1. *)
Theorem document_transfer_requires E uid doc w :
  downloads (handle_document E uid doc w).2 ≠ downloads w →
  ∃ d fi,
    doc = Some d
    ∧ (rate_limited E uid w).1 = Val false
    ∧ _is_mime_allowed E
        (before_semicolon (str_lower E (default EmptyString (mime_type d)))) = true
    ∧ get_file d = Val fi
    ∧ _mb (default 0 (file_size fi)) ≤ MAX_DOC_SIZE_MB E
    ∧ 1 ≤ DOWNLOAD_MAX_RETRIES E.
Proof.
  intros Hchanged.
  remember (handle_document E uid doc w) as r eqn:Hr.
  unfold handle_document, mbind, M_bind in Hr.
  pose proof (rate_limited_eq E uid w) as Hrl.
  destruct (rate_limited E uid w) as [[limited|e] w1] eqn:Hrate; [|done].
  assert (Hd1 : downloads w1 = downloads w) by (by injection Hrl as _ ->).
  destruct limited; [subst r; simpl in *; congruence|].
  destruct doc as [d|]; [|subst r; simpl in *; congruence].
  destruct (_is_mime_allowed E _) eqn:Hmime; simpl in Hr;
    [|subst r; simpl in *; congruence].
  unfold attempt in Hr.
  destruct (get_file d) as [fi|e] eqn:Hf.
  2:{ unfold _download_with_retry in Hr. rewrite Hf in Hr. subst r.
      simpl in *. congruence. }
  destruct (decide (_mb (default 0 (file_size fi)) > MAX_DOC_SIZE_MB E)) as [Hbig|Hok].
  { rewrite (oversize_rejected E d fi _ _ w1 Hf Hbig) in Hr. subst r.
    simpl in *. congruence. }
  destruct (decide (1 ≤ DOWNLOAD_MAX_RETRIES E)) as [HR|HR].
  { exists d, fi. repeat split; try done; lia. }
  exfalso. apply Hchanged.
  unfold _download_with_retry in Hr. rewrite Hf in Hr.
  rewrite bool_decide_eq_false_2 in Hr by done.
  rewrite seqZ_nil in Hr by lia. subst r. simpl. done.
Qed.

Lemma document_transfer_requires_witness :
  ∃ d fi,
    Some unreachable_document = Some d
    ∧ (rate_limited sample_env 7 initial_media_world).1 = Val false
    ∧ _is_mime_allowed sample_env
        (before_semicolon (str_lower sample_env (default EmptyString (mime_type d)))) = true
    ∧ get_file d = Val fi
    ∧ _mb (default 0 (file_size fi)) ≤ MAX_DOC_SIZE_MB sample_env
    ∧ 1 ≤ DOWNLOAD_MAX_RETRIES sample_env.
Proof.
  apply (document_transfer_requires sample_env 7 (Some unreachable_document)
           initial_media_world).
  vm_compute. discriminate.
Defined.

(** ** Media: the OCR over the life of the process *)

Section ocr_lifetime.
Context (E : media_env).

Local Abbreviation ocr_part := (λ w : media_world, (ocr_cache w, ocr_runs w)).

Lemma keeps_of_preserves {A : Type} (c : M A) :
  preserves ocr_part c → keeps_ocr_inv E c.
Proof.
  intros Hc w Hinv. specialize (Hc w). simpl in Hc.
  injection Hc as Hcache Hruns. unfold ocr_inv. by rewrite Hcache, Hruns.
Qed.

Lemma keeps_bind {A C : Type} (c : M A) (k : A → M C) :
  keeps_ocr_inv E c → (∀ a, keeps_ocr_inv E (k a)) → keeps_ocr_inv E (c ≫= k).
Proof.
  intros Hc Hk w Hinv. unfold mbind, M_bind.
  specialize (Hc w Hinv). destruct (c w) as [[a|e] w1]; simpl in *; [|done].
  by apply Hk.
Qed.

Lemma keeps_ret {A : Type} (a : A) : keeps_ocr_inv E (mret a).
Proof. by intros w. Qed.

(** A miss runs the OCR on a payload whose digest no earlier run had. *)
Lemma keeps_ocr_cached content : keeps_ocr_inv E (ocr_cached E content).
Proof.
  intros w [Hnodup Hcached]. unfold ocr_cached.
  destruct (ocr_cache w !! sha256_hexdigest E content) as [text|] eqn:Hhit; [done|].
  unfold ocr_inv. cbn [snd ocr_runs ocr_cache]. split.
  - rewrite fmap_app. apply NoDup_app. split; [done|]. split.
    + intros h Hin Hnew. apply list_elem_of_singleton in Hnew as ->.
      apply list_elem_of_fmap in Hin as (b & Hb & Hin).
      destruct (Hcached b Hin) as [t Ht]. rewrite <- Hb in Ht. congruence.
    + apply NoDup_singleton.
  - intros b Hin. apply elem_of_app in Hin as [Hin|Hin].
    + destruct (Hcached b Hin) as [t Ht].
      destruct (decide (sha256_hexdigest E content = sha256_hexdigest E b)) as [Heq|Hne].
      * rewrite <- Heq in Ht. congruence.
      * rewrite lookup_insert_ne by done. by eexists.
    + apply list_elem_of_singleton in Hin as ->. rewrite lookup_insert_eq. by eexists.
Qed.

Lemma keeps_fetch f suffix max_mb :
  keeps_ocr_inv E (attempt (_download_with_retry E f suffix max_mb)).
Proof.
  apply keeps_of_preserves, preserves_attempt, preserves_download_with_retry;
    [by intros s w | intros; by apply preserves_download].
Qed.

Lemma keeps_finally tmp_path : keeps_ocr_inv E (finally_remove tmp_path).
Proof. by apply keeps_of_preserves, preserves_finally_remove. Qed.

Lemma keeps_handle_event ev : keeps_ocr_inv E (handle_event E ev).
Proof.
  destruct ev as [uid text|uid photos|uid doc]; simpl.
  - unfold handle_text.
    apply keeps_bind; [by apply keeps_of_preserves, preserves_rate_limited|].
    intros [|]; [apply keeps_ret|]. case_bool_decide; [apply keeps_ret|].
    apply keeps_bind; [by apply keeps_of_preserves, preserves_modify|].
    intros _. apply keeps_ret.
  - unfold handle_photo.
    apply keeps_bind; [by apply keeps_of_preserves, preserves_rate_limited|].
    intros [|]; [apply keeps_ret|]. destruct (last photos) as [best|]; [|apply keeps_ret].
    apply keeps_bind; [apply keeps_fetch|].
    intros [[p|]|e];
      try (apply keeps_bind; [apply keeps_finally | intros; apply keeps_ret]).
    apply keeps_bind; [by apply keeps_of_preserves, preserves_gets|]. intros content.
    apply keeps_bind; [apply keeps_ocr_cached|]. intros extracted.
    case_bool_decide.
    + apply keeps_bind; [apply keeps_finally | intros; apply keeps_ret].
    + apply keeps_bind; [by apply keeps_of_preserves, preserves_modify|]. intros _.
      apply keeps_bind; [apply keeps_finally | intros; apply keeps_ret].
  - unfold handle_document.
    apply keeps_bind; [by apply keeps_of_preserves, preserves_rate_limited|].
    intros [|]; [apply keeps_ret|]. destruct doc as [d|]; [|apply keeps_ret].
    destruct (negb _); [apply keeps_ret|].
    apply keeps_bind; [apply keeps_fetch|].
    intros [[p|]|e];
      try (apply keeps_bind; [apply keeps_finally | intros; apply keeps_ret]).
    apply keeps_bind; [by apply keeps_of_preserves, preserves_gets|]. intros content.
    case_bool_decide.
    + apply keeps_bind; [apply keeps_finally | intros; apply keeps_ret].
    + apply keeps_bind; [by apply keeps_of_preserves, preserves_modify|]. intros _.
      apply keeps_bind; [apply keeps_finally | intros; apply keeps_ret].
Qed.

Lemma run_media_keeps events : ∀ w, ocr_inv E w → ocr_inv E (run_media E events w).2.
Proof.
  induction events as [|[d ev] events IH]; intros w Hinv; [done|].
  simpl.
  assert (Hstep : keeps_ocr_inv E (_ ← tick d; handle_event E ev)).
  { apply keeps_bind; [by apply keeps_of_preserves, preserves_modify|].
    intros _. apply keeps_handle_event. }
  specialize (Hstep w Hinv).
  destruct ((_ ← tick d; handle_event E ev) w) as [r w1].
  specialize (IH w1 Hstep). by destruct (run_media E events w1).
Qed.

(** X12. Over any sequence of text, photo and document requests handled
    from start-up, whatever the users, the delays and the downloads, the
    OCR is run at most once per digest: no two of the payloads it has run
    on have the same digest, and each has its text in the cache. *)
Theorem ocr_runs_once_per_digest events :
  NoDup (sha256_hexdigest E <$> ocr_runs (run_media E events initial_media_world).2)
  ∧ ∀ b, b ∈ ocr_runs (run_media E events initial_media_world).2 →
         is_Some (ocr_cache (run_media E events initial_media_world).2
                    !! sha256_hexdigest E b).
Proof.
  apply run_media_keeps. split; [constructor|]. intros b Hb. simpl in Hb.
  by apply not_elem_of_nil in Hb.
Qed.

End ocr_lifetime.

(** ** Tutor: users, exceptions and the snapshot *)

Section tutor_more.
Context (TC : gmap string (gmap Z level_content)).
Context (py_lower : string → string) (py_int : string → option Z).

Local Abbreviation content_at := (content_at TC).
Local Abbreviation next_cmd := (next_cmd TC).
Local Abbreviation quiz_cmd := (quiz_cmd TC).
Local Abbreviation answer_cmd := (answer_cmd TC py_int).
Local Abbreviation learn_cmd := (learn_cmd TC py_lower py_int).
Local Abbreviation progress_cmd := (progress_cmd TC).
Local Abbreviation modules_cmd := (modules_cmd TC).
Local Abbreviation errors_cmd := (errors_cmd TC).
Local Abbreviation handle := (handle TC py_lower py_int).
Local Abbreviation run_script := (run_script TC py_lower py_int).
Local Abbreviation session_ok := (session_ok TC).
Local Abbreviation sessions_ok := (sessions_ok TC).

(** What a command does to the sessions: nothing, or it rewrites or
    deletes the session of its own user. *)
Lemma handle_state_shape uid cmd w :
  tutor_state (handle uid cmd w).2 = tutor_state w
  ∨ (∃ st, tutor_state (handle uid cmd w).2 = <[uid := st]> (tutor_state w))
  ∨ tutor_state (handle uid cmd w).2 = delete uid (tutor_state w).
Proof.
  destruct cmd as [args| | |args| | | |]; simpl.
  - unfold learn_cmd. destruct args as [|a0 [|a1 rest]]; try by left.
    destruct (py_int a1); [|by left].
    destruct (TC !! py_lower a0) as [levels|]; [|by left].
    destruct (levels !! _); [|by left]. right. left. by eexists.
  - unfold next_cmd.
    destruct (tutor_current_module TC uid (tutor_state w)) as [[[[st [m|]] mods]|]|];
      try by left.
    right. left. by eexists.
  - unfold quiz_cmd. destruct (tutor_state w !! uid) as [st|]; [|by left].
    destruct (tutor_quiz_question TC uid _) as [[[[st2 [qu|]] qz]|]|];
      right; left; by eexists.
  - unfold answer_cmd. destruct (tutor_state w !! uid) as [st|]; [|by left].
    destruct args as [|a0 rest]; [by left|].
    destruct (py_int a0); [|by left].
    destruct (tutor_quiz_question TC uid (tutor_state w)) as [[[[st2 [qu|]] qz]|]|];
      try by left.
    simpl. case_bool_decide; [right; left; by eexists|].
    destruct (py_getitem qz _); right; left; by eexists.
  - unfold progress_cmd. destruct (tutor_state w !! uid) as [st|]; [|by left].
    destruct (content_at _ _); by left.
  - by right; right.
  - unfold modules_cmd. destruct (tutor_state w !! uid) as [st|]; [|by left].
    destruct (content_at _ _); by left.
  - unfold errors_cmd. destruct (tutor_state w !! uid) as [st|]; [|by left].
    destruct (content_at _ _); by left.
Qed.

(** X13. A command of one user never touches the session of another. *)
Theorem commands_isolate_users uid cmd w u :
  u ≠ uid →
  tutor_state (handle uid cmd w).2 !! u = tutor_state w !! u.
Proof.
  intros Hne.
  destruct (handle_state_shape uid cmd w) as [->|[[st ->]| ->]]; [done| |].
  - by rewrite lookup_insert_ne.
  - by rewrite lookup_delete_ne.
Qed.

Lemma tutor_current_module_ok uid w :
  sessions_ok w → ∃ x, tutor_current_module TC uid (tutor_state w) = Ok x.
Proof.
  intros Hw. unfold tutor_current_module.
  destruct (tutor_state w !! uid) as [st|] eqn:Hst; [|by eexists].
  destruct (Hw uid st Hst) as (c & Hc & Hm & _). rewrite Hc.
  case_bool_decide; [by eexists|].
  destruct (py_getitem_in_range (modules c) (module_idx st)) as (m & _ & ->); [lia|].
  by eexists.
Qed.

Lemma tutor_quiz_question_ok uid w :
  sessions_ok w → ∃ x, tutor_quiz_question TC uid (tutor_state w) = Ok x.
Proof.
  intros Hw. unfold tutor_quiz_question.
  destruct (tutor_state w !! uid) as [st|] eqn:Hst; [|by eexists].
  destruct (Hw uid st Hst) as (c & Hc & _ & Hq & _). rewrite Hc.
  case_bool_decide; [by eexists|].
  destruct (py_getitem_in_range (quiz c) (quiz_idx st)) as (qu & _ & ->); [lia|].
  by eexists.
Qed.

(** With the invariants, resetting the quiz fields of a session over a
    level without questions changes nothing. *)
Lemma quiz_reset_noop uid w st c :
  sessions_ok w →
  tutor_state w !! uid = Some st →
  content_at (lang st) (level st) = Some c →
  quiz c = [] →
  set_tutor_state
    (<[uid := {| lang := lang st; level := level st; module_idx := module_idx st;
                 quiz_idx := 0; score := 0 |}]> (tutor_state w)) w = w.
Proof.
  intros Hw Hst Hc Hq.
  destruct (Hw uid st Hst) as (c' & Hc' & _ & Hqi & Hsc).
  rewrite Hc in Hc'. injection Hc' as <-. rewrite Hq in Hqi. simpl in Hqi.
  assert (quiz_idx st = 0) as Hq0 by lia.
  assert (score st = 0) as Hs0 by lia.
  rewrite <- Hq0 at 1. rewrite <- Hs0 at 1.
  replace {| lang := lang st; level := level st; module_idx := module_idx st;
             quiz_idx := quiz_idx st; score := score st |} with st by (by destruct st).
  by rewrite insert_id, set_tutor_state_id.
Qed.

(** What a command does under the invariants: it replies, and it either
    leaves the state or ends with a save. *)
Lemma handle_replies_and_saves uid cmd w :
  sessions_ok w →
  (∃ r, (handle uid cmd w).1 = Replied r)
  ∧ ((handle uid cmd w).2 = w
     ∨ state_file (handle uid cmd w).2 = Some (tutor_state (handle uid cmd w).2)).
Proof.
  intros Hw. destruct cmd as [args| | |args| | | |]; simpl.
  - unfold learn_cmd. destruct args as [|a0 [|a1 rest]];
      try (split; [by eexists | by left]).
    destruct (py_int a1); [|split; [by eexists | by left]].
    destruct (TC !! py_lower a0) as [levels|]; [|split; [by eexists | by left]].
    destruct (levels !! _); split; first [by eexists | by left | by right].
  - unfold next_cmd. destruct (tutor_current_module_ok uid w Hw) as [x ->].
    destruct x as [[[st [m|]] mods]|]; split; first [by eexists | by left | by right].
  - unfold quiz_cmd. destruct (tutor_state w !! uid) as [st|] eqn:Hst;
      [|split; [by eexists | by left]].
    destruct (Hw uid st Hst) as (c & Hc & Hm & Hq & Hs).
    unfold tutor_quiz_question. simpl. rewrite lookup_insert_eq. simpl. rewrite Hc.
    destruct (quiz c) as [|q0 qs] eqn:Hquiz; simpl.
    + split; [by eexists|]. left. by apply (quiz_reset_noop uid w st c).
    + split; [by eexists | by right].
  - unfold answer_cmd. destruct (tutor_state w !! uid) as [st|] eqn:Hst;
      [|split; [by eexists | by left]].
    destruct args as [|a0 rest]; [split; [by eexists | by left]|].
    destruct (py_int a0) as [n|]; [|split; [by eexists | by left]].
    destruct (tutor_quiz_question TC uid (tutor_state w)) as [[[[st2 [qu|]] qz]|]|] eqn:Hcur.
    + apply tutor_quiz_question_inv in Hcur as (Hst2 & c & Hc & -> & Hlt).
      rewrite Hst in Hst2. injection Hst2 as <-.
      destruct (Hw uid st Hst) as (c' & Hc' & _ & Hq & _).
      rewrite Hc in Hc'. injection Hc' as <-.
      simpl. case_bool_decide; [split; [by eexists | by right]|].
      destruct (py_getitem_in_range (quiz c) (quiz_idx st + 1)) as (nq & _ & ->); [lia|].
      split; [by eexists | by right].
    + split; [by eexists | by left].
    + split; [by eexists | by left].
    + destruct (tutor_quiz_question_ok uid w Hw) as [x Hx]. congruence.
  - unfold progress_cmd. destruct (tutor_state w !! uid) as [st|] eqn:Hst;
      [|split; [by eexists | by left]].
    destruct (Hw uid st Hst) as (c & -> & _). split; [by eexists | by left].
  - split; [by eexists | by right].
  - unfold modules_cmd. destruct (tutor_state w !! uid) as [st|] eqn:Hst;
      [|split; [by eexists | by left]].
    destruct (Hw uid st Hst) as (c & -> & _). split; [by eexists | by left].
  - unfold errors_cmd. destruct (tutor_state w !! uid) as [st|] eqn:Hst;
      [|split; [by eexists | by left]].
    destruct (Hw uid st Hst) as (c & -> & _). split; [by eexists | by left].
Qed.

(** X14. On sessions that satisfy the invariants no command lets an
    exception escape: every command ends in a reply. *)
Theorem commands_never_raise uid cmd w :
  sessions_ok w → ∃ r, (handle uid cmd w).1 = Replied r.
Proof. intros Hw. by destruct (handle_replies_and_saves uid cmd w Hw). Qed.

(** X15. The session of a user whose language and level are not in the
    catalog makes [next_cmd], [progress_cmd], [modules_cmd],
    [errors_cmd], [quiz_cmd] and [answer_cmd] (given a number) raise
    [KeyError]; all but [quiz_cmd] leave the state as it was, and
    [reset_cmd] still removes the session. *)
Theorem stale_session_raises_key_error uid w st :
  tutor_state w !! uid = Some st →
  content_at (lang st) (level st) = None →
  next_cmd uid w = (Raised KeyError, w)
  ∧ progress_cmd uid w = (Raised KeyError, w)
  ∧ modules_cmd uid w = (Raised KeyError, w)
  ∧ errors_cmd uid w = (Raised KeyError, w)
  ∧ (quiz_cmd uid w).1 = Raised KeyError
  ∧ (∀ a0 rest n, py_int a0 = Some n →
       answer_cmd uid (a0 :: rest) w = (Raised KeyError, w))
  ∧ tutor_state (reset_cmd uid w).2 !! uid = None.
Proof.
  intros Hst Hc.
  unfold next_cmd, progress_cmd, modules_cmd, errors_cmd, quiz_cmd, answer_cmd,
    tutor_current_module, tutor_quiz_question.
  rewrite Hst. simpl. rewrite lookup_insert_eq. simpl. rewrite Hc.
  repeat split; try done.
  - intros a0 rest n ->. done.
  - by rewrite lookup_delete_eq.
Qed.

(** X16. On sessions that satisfy the invariants every command either
    leaves the whole state as it was or changes sessions in memory and
    then calls [save_state] after its last change: the state it
    leaves is what [save_state] returns on the new sessions beside the
    old snapshot.  [save_state] logs and ignores a failed write; provided
    the write succeeds, as the model takes every write to, the snapshot
    then equals the sessions in memory. *)
Theorem mutations_written_through uid cmd w :
  sessions_ok w →
  (handle uid cmd w).2 = w
  ∨ (handle uid cmd w).2
    = save_state (set_tutor_state (tutor_state (handle uid cmd w).2) w).
Proof.
  intros Hw. destruct (handle_replies_and_saves uid cmd w Hw) as [_ [Hsame|Hsaved]];
    [by left|].
  right. destruct (handle uid cmd w).2 as [ts sf]. simpl in Hsaved.
  unfold save_state, set_tutor_state. simpl. by rewrite Hsaved.
Qed.

(** ** Tutor: reset, restarting the quiz, scores and progress *)

(** X17. After [reset_cmd] the user has no session and the snapshot says
    so; every command but [learn_cmd] then only asks for [/learn] (or
    confirms the reset) and changes nothing; and a valid [learn_cmd]
    starts a session with both cursors and the score at 0. *)
Theorem reset_forgets_session uid w :
  let w' := (reset_cmd uid w).2 in
  tutor_state w' !! uid = None
  ∧ state_file w' = Some (tutor_state w')
  ∧ (∀ cmd, (∀ args, cmd ≠ Learn args) →
       handle uid cmd w' =
         (Replied match cmd with
                  | Answer _ => MsgFirstLearnQuiz
                  | Reset => MsgReset
                  | _ => MsgFirstLearn
                  end, w'))
  ∧ (∀ a0 a1 rest lv c,
       py_int a1 = Some lv → content_at (py_lower a0) lv = Some c →
       tutor_state (learn_cmd uid (a0 :: a1 :: rest) w').2 !! uid
       = Some {| lang := py_lower a0; level := lv;
                 module_idx := 0; quiz_idx := 0; score := 0 |}).
Proof.
  simpl.
  assert (Hgone : delete uid (tutor_state w) !! uid = None) by apply lookup_delete_eq.
  split; [done|]. split; [done|]. split.
  - intros cmd Hcmd. destruct cmd as [args| | |args| | | |]; simpl.
    + by destruct (Hcmd args).
    + unfold next_cmd, tutor_current_module. simpl. by rewrite Hgone.
    + unfold quiz_cmd. simpl. by rewrite Hgone.
    + unfold answer_cmd. simpl. by rewrite Hgone.
    + unfold progress_cmd. simpl. by rewrite Hgone.
    + unfold reset_cmd, save_state, set_tutor_state. simpl.
      by rewrite delete_delete_eq.
    + unfold modules_cmd. simpl. by rewrite Hgone.
    + unfold errors_cmd. simpl. by rewrite Hgone.
  - intros a0 a1 rest lv c Hint Hc. unfold learn_cmd. rewrite Hint.
    unfold content_at in Hc.
    destruct (TC !! py_lower a0) as [levels|]; [|done]. simpl in Hc. rewrite Hc.
    simpl. by rewrite lookup_insert_eq.
Qed.

(** X18. [quiz_cmd] is idempotent: a second [/quiz] right after the first
    gives the same reply and leaves the same state, whether the quiz
    started, the level has no quiz, the user has no session or the
    catalog entry is missing. *)
Theorem quiz_cmd_idempotent uid w :
  quiz_cmd uid (quiz_cmd uid w).2 = quiz_cmd uid w.
Proof.
  unfold quiz_cmd.
  destruct (tutor_state w !! uid) as [st|] eqn:Hst; simpl; [|by rewrite Hst].
  destruct (tutor_quiz_question TC uid _) as [[[[st2 [qu|]] qz]|]|] eqn:Hq;
    simpl; rewrite lookup_insert_eq; simpl; rewrite insert_insert_eq, Hq; done.
Qed.

Lemma answer_cmd_finished uid w st c a0 rest n :
  tutor_state w !! uid = Some st →
  content_at (lang st) (level st) = Some c →
  quiz_idx st >= Z.of_nat (length (quiz c)) →
  py_int a0 = Some n →
  answer_cmd uid (a0 :: rest) w = (Replied MsgNoMoreQuestions, w).
Proof.
  intros Hst Hc Hidx Hint. unfold answer_cmd, tutor_quiz_question.
  rewrite Hst, Hint, Hc. by rewrite bool_decide_eq_true_2.
Qed.

Lemma run_script_step uid cmd rest w :
  (run_script ((uid, cmd) :: rest) w).2 = (run_script rest (handle uid cmd w).2).2.
Proof.
  simpl. destruct (handle uid cmd w) as [o w1]. simpl.
  by destruct (run_script rest w1).
Qed.

Lemma run_answers (inputs : list string) : ∀ (ns : list Z) uid w st c (i : nat),
  tutor_state w !! uid = Some st →
  content_at (lang st) (level st) = Some c →
  quiz_idx st = Z.of_nat i →
  Forall2 (λ s n, py_int s = Some n) inputs ns →
  ∃ st',
    tutor_state (run_script ((λ s, (uid, Answer [s])) <$> inputs) w).2 !! uid = Some st'
    ∧ lang st' = lang st ∧ level st' = level st
    ∧ module_idx st' = module_idx st
    ∧ quiz_idx st' = Z.of_nat i + Z.of_nat (length ns `min` (length (quiz c) - i))
    ∧ score st' = score st + count_right (drop i (quiz c)) ns.
Proof.
  induction inputs as [|s inputs IH]; intros ns uid w st c i Hst Hc Hidx Hall.
  - apply Forall2_nil_inv_l in Hall as ->. exists st. simpl.
    repeat split; try done; try lia. destruct (drop i (quiz c)); simpl; lia.
  - apply Forall2_cons_inv_l in Hall as (n & ns' & Hs & Hall & ->).
    rewrite fmap_cons, run_script_step.
    change (handle uid (Answer [s]) w) with (answer_cmd uid [s] w).
    destruct (quiz c !! i) as [qu|] eqn:Hqu.
    + pose proof (lookup_lt_Some _ _ _ Hqu) as Hlt.
      rewrite (answer_cmd_step TC py_int uid w st c s [] n i qu Hst Hc Hidx Hqu Hs).
      cbn [snd].
      set (st1 := {| lang := lang st; level := level st; module_idx := module_idx st;
                     quiz_idx := Z.of_nat i + 1;
                     score := if bool_decide (n - 1 = answer qu)
                              then score st + 1 else score st |}).
      set (w1 := save_state _).
      destruct (IH ns' uid w1 st1 c (S i)) as (st' & Hst' & Hl & Hlv & Hm & Hqi & Hsc);
        try done.
      { subst w1. simpl. by rewrite lookup_insert_eq. }
      { subst st1. simpl. lia. }
      exists st'. rewrite (drop_S _ _ _ Hqu). subst st1.
      cbn [lang level module_idx quiz_idx score count_right length] in *.
      repeat split; try done; try lia.
      case_bool_decide; lia.
    + apply lookup_ge_None in Hqu.
      rewrite (answer_cmd_finished uid w st c s [] n Hst Hc ltac:(lia) Hs). cbn [snd].
      destruct (IH ns' uid w st c i Hst Hc Hidx Hall)
        as (st' & Hst' & Hl & Hlv & Hm & Hqi & Hsc).
      exists st'. rewrite drop_ge in * by lia.
      cbn [count_right length] in *.
      repeat split; try done; lia.
Qed.

(** X19. After [quiz_cmd], whatever numbers the user sends with
    [answer_cmd], the score is the number of those that are right for
    their question, and the quiz cursor is the number of questions
    answered: answers sent after the last question are turned down and
    change nothing. *)
Theorem quiz_score_counts_right_answers uid w st c inputs ns :
  tutor_state w !! uid = Some st →
  content_at (lang st) (level st) = Some c →
  Forall2 (λ s n, py_int s = Some n) inputs ns →
  ∃ st',
    tutor_state (run_script ((uid, Quiz) :: ((λ s, (uid, Answer [s])) <$> inputs)) w).2
      !! uid = Some st'
    ∧ module_idx st' = module_idx st
    ∧ quiz_idx st' = Z.of_nat (length ns `min` length (quiz c))
    ∧ score st' = count_right (quiz c) ns.
Proof.
  intros Hst Hc Hall. rewrite run_script_step.
  change (handle uid Quiz w) with (quiz_cmd uid w).
  set (st0 := {| lang := lang st; level := level st; module_idx := module_idx st;
                 quiz_idx := 0; score := 0 |}).
  assert (Hst0 : tutor_state (quiz_cmd uid w).2 !! uid = Some st0).
  { unfold quiz_cmd. rewrite Hst.
    destruct (tutor_quiz_question TC uid _) as [[[[st2 [qu|]] qz]|]|];
      simpl; by rewrite lookup_insert_eq. }
  destruct (run_answers inputs ns uid (quiz_cmd uid w).2 st0 c 0 Hst0 Hc eq_refl Hall)
    as (st' & Hst' & _ & _ & Hm & Hqi & Hsc).
  exists st'. rewrite drop_0 in Hsc. rewrite Nat.sub_0_r in Hqi. simpl in *.
  repeat split; try done; lia.
Qed.

Lemma next_cmd_min uid w st c :
  tutor_state w !! uid = Some st →
  content_at (lang st) (level st) = Some c →
  0 ≤ module_idx st ≤ Z.of_nat (length (modules c)) →
  ∃ st',
    tutor_state (next_cmd uid w).2 !! uid = Some st'
    ∧ lang st' = lang st ∧ level st' = level st
    ∧ quiz_idx st' = quiz_idx st ∧ score st' = score st
    ∧ module_idx st' = (module_idx st + 1) `min` Z.of_nat (length (modules c)).
Proof.
  intros Hst Hc Hm.
  destruct (decide (module_idx st < Z.of_nat (length (modules c)))) as [Hlt|Hge].
  - destruct (py_getitem_in_range (modules c) (module_idx st)) as (m & Hmod & _); [lia|].
    rewrite (next_cmd_step TC uid w st c (Z.to_nat (module_idx st)) m Hst Hc) by (done || lia).
    simpl. rewrite lookup_insert_eq. eexists. split; [done|]. simpl.
    repeat split; try done. lia.
  - rewrite (next_cmd_exhausted TC uid w st c Hst Hc) by lia.
    exists st. repeat split; try done. lia.
Qed.

Lemma run_next_min (k : nat) : ∀ uid w st c,
  tutor_state w !! uid = Some st →
  content_at (lang st) (level st) = Some c →
  0 ≤ module_idx st ≤ Z.of_nat (length (modules c)) →
  ∃ st',
    tutor_state (run_script (replicate k (uid, Next)) w).2 !! uid = Some st'
    ∧ lang st' = lang st ∧ level st' = level st
    ∧ quiz_idx st' = quiz_idx st ∧ score st' = score st
    ∧ module_idx st' = (module_idx st + Z.of_nat k) `min` Z.of_nat (length (modules c)).
Proof.
  induction k as [|k IH]; intros uid w st c Hst Hc Hm.
  - exists st. simpl. repeat split; try done. lia.
  - cbn [replicate]. rewrite run_script_step.
    change (handle uid Next w) with (next_cmd uid w).
    destruct (next_cmd_min uid w st c Hst Hc Hm) as (st1 & Hst1 & Hl & Hlv & Hq & Hs & Hm1).
    destruct (IH uid (next_cmd uid w).2 st1 c Hst1) as (st' & Hst' & Hl' & Hlv' & Hq' & Hs' & Hm');
      [by rewrite Hl, Hlv | lia |].
    exists st'. repeat split; try congruence. lia.
Qed.

(** X20. After a valid [learn_cmd] and any number [k] of [next_cmd],
    [progress_cmd] reports [min k moduleCount] modules done out of
    [moduleCount] and a score of 0, and changes nothing. *)
Theorem progress_counts_modules_seen uid a0 a1 rest lv c (k : nat) w :
  py_int a1 = Some lv →
  content_at (py_lower a0) lv = Some c →
  let w' := (run_script ((uid, Learn (a0 :: a1 :: rest)) :: replicate k (uid, Next)) w).2 in
  progress_cmd uid w'
  = (Replied (MsgProgress (py_lower a0) lv
                (Z.of_nat k `min` Z.of_nat (length (modules c)))
                (Z.of_nat (length (modules c))) 0), w').
Proof.
  intros Hint Hc w'. subst w'. rewrite run_script_step.
  change (handle uid (Learn (a0 :: a1 :: rest)) w) with (learn_cmd uid (a0 :: a1 :: rest) w).
  set (st0 := {| lang := py_lower a0; level := lv;
                 module_idx := 0; quiz_idx := 0; score := 0 |}).
  assert (Hst0 : tutor_state (learn_cmd uid (a0 :: a1 :: rest) w).2 !! uid = Some st0).
  { unfold learn_cmd. rewrite Hint. pose proof Hc as Hc'. unfold content_at in Hc'.
    destruct (TC !! py_lower a0) as [levels|]; [|done]. simpl in Hc'. rewrite Hc'.
    simpl. by rewrite lookup_insert_eq. }
  destruct (run_next_min k uid (learn_cmd uid (a0 :: a1 :: rest) w).2 st0 c Hst0 Hc)
    as (st' & Hst' & Hl & Hlv & _ & Hs & Hm); [simpl; lia|].
  unfold progress_cmd. rewrite Hst', Hl, Hlv. simpl. rewrite Hc, Hs, Hm. simpl.
  do 3 f_equal. lia.
Qed.

End tutor_more.

(** ** Tutor: the properties above on the catalog excerpt *)

Lemma run_script_ok TC py_lower py_int script : ∀ w,
  sessions_ok TC w → sessions_ok TC (run_script TC py_lower py_int script w).2.
Proof.
  induction script as [|[uid cmd] script IH]; intros w Hw; [done|].
  rewrite run_script_cons. simpl. by apply IH, handle_ok.
Qed.

Lemma initial_world_ok TC : sessions_ok TC initial_world.
Proof. intros uid st. simpl. by rewrite lookup_empty. Qed.

Lemma mid_quiz_world_ok : sessions_ok catalog_excerpt mid_quiz_world.
Proof. apply run_script_ok, initial_world_ok. Qed.

Lemma commands_isolate_users_witness :
  7 ≠ 8
  ∧ tutor_state
      (handle catalog_excerpt ascii_lower decimal_int 8 (Learn ["javascript"; "0"])
         mid_quiz_world).2 !! 7
    = tutor_state mid_quiz_world !! 7.
Proof.
  split; [lia|].
  apply (commands_isolate_users catalog_excerpt ascii_lower decimal_int
           8 (Learn ["javascript"; "0"]) mid_quiz_world 7).
  lia.
Defined.

Lemma commands_never_raise_witness :
  sessions_ok catalog_excerpt mid_quiz_world
  ∧ ∃ r, (handle catalog_excerpt ascii_lower decimal_int 7 (Answer ["1"])
            mid_quiz_world).1 = Replied r.
Proof.
  split; [exact mid_quiz_world_ok|].
  apply (commands_never_raise catalog_excerpt ascii_lower decimal_int
           7 (Answer ["1"]) mid_quiz_world).
  exact mid_quiz_world_ok.
Defined.

Lemma stale_session_raises_key_error_witness :
  content_at catalog_excerpt "rust" 0 = None
  ∧ next_cmd catalog_excerpt 7 orphan_world = (Raised KeyError, orphan_world)
  ∧ (quiz_cmd catalog_excerpt 7 orphan_world).1 = Raised KeyError.
Proof.
  destruct (stale_session_raises_key_error catalog_excerpt decimal_int 7 orphan_world
              {| lang := "rust"; level := 0; module_idx := 1; quiz_idx := 0; score := 0 |})
    as (Hnext & _ & _ & _ & Hquiz & _).
  - vm_compute. reflexivity.
  - vm_compute. reflexivity.
  - split; [vm_compute; reflexivity|]. split; [exact Hnext | exact Hquiz].
Defined.

Lemma mutations_written_through_witness :
  (handle catalog_excerpt ascii_lower decimal_int 7 Next mid_quiz_world).2 = mid_quiz_world
  ∨ (handle catalog_excerpt ascii_lower decimal_int 7 Next mid_quiz_world).2
    = save_state
        (set_tutor_state
           (tutor_state (handle catalog_excerpt ascii_lower decimal_int 7 Next
                           mid_quiz_world).2)
           mid_quiz_world).
Proof.
  apply (mutations_written_through catalog_excerpt ascii_lower decimal_int
           7 Next mid_quiz_world).
  exact mid_quiz_world_ok.
Defined.

Lemma quiz_score_counts_right_answers_witness :
  ∃ st',
    tutor_state
      (run_script catalog_excerpt ascii_lower decimal_int
         [(7, Quiz); (7, Answer ["2"]); (7, Answer ["3"]); (7, Answer ["1"])]
         fresh_python_world).2 !! 7 = Some st'
    ∧ quiz_idx st' = 3 ∧ score st' = 2.
Proof.
  destruct (quiz_score_counts_right_answers catalog_excerpt ascii_lower decimal_int
              7 fresh_python_world
              {| lang := "python"; level := 0; module_idx := 0; quiz_idx := 0; score := 0 |}
              python_0 ["2"; "3"; "1"] [2; 3; 1])
    as (st' & Hst' & _ & Hq & Hs).
  - vm_compute. reflexivity.
  - vm_compute. reflexivity.
  - repeat constructor.
  - exists st'. split; [exact Hst'|]. split; [exact Hq | exact Hs].
Defined.

Lemma progress_counts_modules_seen_witness :
  decimal_int "0" = Some 0
  ∧ content_at catalog_excerpt (ascii_lower "Python") 0 = Some python_0
  ∧ progress_cmd catalog_excerpt 7
      (run_script catalog_excerpt ascii_lower decimal_int
         ((7, Learn ["Python"; "0"]) :: replicate 9 (7, Next)) initial_world).2
    = (Replied (MsgProgress (ascii_lower "Python") 0
                  (Z.of_nat 9 `min` Z.of_nat (length (modules python_0)))
                  (Z.of_nat (length (modules python_0))) 0),
       (run_script catalog_excerpt ascii_lower decimal_int
         ((7, Learn ["Python"; "0"]) :: replicate 9 (7, Next)) initial_world).2).
Proof.
  split; [vm_compute; reflexivity|]. split; [vm_compute; reflexivity|].
  apply (progress_counts_modules_seen catalog_excerpt ascii_lower decimal_int
           7 "Python" "0" [] 0 python_0 9 initial_world).
  - vm_compute. reflexivity.
  - vm_compute. reflexivity.
Defined.

(** ** Start-up: what [load_state] restores *)

Section load_state_facts.
Context (py_int : string → option Z).
Local Abbreviation int_keys := (int_keys py_int).
Local Abbreviation load_state := (load_state py_int).

Lemma int_keys_snoc items kv :
  int_keys (items ++ [kv])
  = d ← int_keys items; k ← py_int kv.1; Some (<[k := kv.2]> d).
Proof. unfold int_keys. by rewrite foldl_app. Qed.

Lemma int_keys_shape items :
  match int_keys items with
  | Some d =>
      Forall (λ kv, is_Some (py_int kv.1)) items
      ∧ ∀ u, d !! u = snd <$> last (filter (λ kv, py_int kv.1 = Some u) items)
  | None => Exists (λ kv, py_int kv.1 = None) items
  end.
Proof.
  induction items as [|kv items IH] using rev_ind.
  - split; [constructor|]. intros u. by rewrite lookup_empty.
  - rewrite int_keys_snoc. destruct (int_keys items) as [d|]; simpl.
    + destruct IH as [Hall Hlook].
      destruct (py_int kv.1) as [k|] eqn:Hk; simpl.
      * split.
        { apply Forall_app. split; [done|]. constructor; [by rewrite Hk | constructor]. }
        intros u. rewrite filter_app, filter_cons, filter_nil.
        destruct (decide (py_int kv.1 = Some u)) as [Hu|Hu].
        -- rewrite last_snoc. simpl. rewrite Hk in Hu. injection Hu as ->.
           by rewrite lookup_insert_eq.
        -- rewrite app_nil_r, lookup_insert_ne; [apply Hlook | congruence].
      * apply Exists_app. right. by constructor.
    + apply Exists_app. by left.
Qed.

(** X21. [load_state] takes a snapshot whole or not at all.  When every
    key of the parsed snapshot reads as a number, each user gets the
    session of the last key that reads as that number (two spellings of
    one number can be two keys), and a user the snapshot does not list
    keeps the session in memory; if one key does not read as a number,
    or the file is missing or unreadable, or has no sessions, nothing
    changes.  The file itself is never written. *)
Theorem load_state_all_or_nothing doc w :
  distinct_names doc →
  state_file (load_state doc w) = state_file w
  ∧ match doc with
    | StateDocument (Some items) =>
        if bool_decide (Forall (λ kv, is_Some (py_int kv.1)) items)
        then ∀ u, tutor_state (load_state doc w) !! u
                  = match last (filter (λ kv, py_int kv.1 = Some u) items) with
                    | Some kv => Some kv.2
                    | None => tutor_state w !! u
                    end
        else load_state doc w = w
    | _ => load_state doc w = w
    end.
Proof.
  intros _. destruct doc as [| |[items|]]; simpl; try done.
  - pose proof (int_keys_shape items) as Hshape.
    unfold load_state. simpl.
    destruct (int_keys items) as [d|] eqn:Hd.
    + destruct Hshape as [Hall Hlook]. split; [done|].
      rewrite bool_decide_eq_true_2 by done.
      intros u. simpl. rewrite lookup_union, Hlook.
      destruct (last _) as [kv|]; simpl; [|by rewrite (left_id_L None _)].
      by rewrite union_Some_l.
    + split; [done|]. rewrite bool_decide_eq_false_2; [done|].
      intros Hall. apply Exists_exists in Hshape as (kv & Hin & Hnone).
      rewrite Forall_forall in Hall. destruct (Hall kv Hin) as [k Hk]. congruence.
  - split; [done|]. unfold load_state. simpl.
    rewrite (left_id_L ∅ (∪)). by destruct w.
Qed.

Context (py_str : Z → string).
Hypothesis py_int_str : ∀ z, py_int (py_str z) = Some z.

Lemma int_keys_of_strs kvs :
  int_keys ((λ kv, (py_str kv.1, kv.2)) <$> kvs) = Some (list_to_map (reverse kvs)).
Proof.
  induction kvs as [|kv kvs IH] using rev_ind; [done|].
  rewrite fmap_snoc, int_keys_snoc, IH. simpl. rewrite py_int_str. simpl.
  by rewrite reverse_snoc.
Qed.

Lemma int_keys_dumped ts items :
  dumped_as py_str ts items → int_keys items = Some ts.
Proof.
  intros (kvs & Hperm & ->). rewrite int_keys_of_strs. f_equal.
  rewrite <- (list_to_map_to_list ts). apply list_to_map_proper.
  - rewrite reverse_Permutation, Hperm. apply NoDup_fst_map_to_list.
  - by rewrite reverse_Permutation.
Qed.

Lemma load_state_dumped ts items w :
  dumped_as py_str ts items →
  tutor_state w = ∅ →
  tutor_state (load_state (StateDocument (Some items)) w) = ts.
Proof.
  intros Hd Hw. unfold load_state. simpl. rewrite (int_keys_dumped ts items Hd).
  simpl. rewrite Hw. apply (right_id_L ∅ (∪)).
Qed.

(** X22. What [save_state] writes, [load_state] reads back: whatever the
    order the snapshot lists the sessions in, loading it into a process
    without sessions gives exactly the sessions that were saved. *)
Theorem load_state_inverts_save_state w ts items :
  state_file (save_state w) = Some ts →
  dumped_as py_str ts items →
  tutor_state (load_state (StateDocument (Some items)) initial_world) = tutor_state w.
Proof.
  intros [= <-] Hd. by apply load_state_dumped.
Qed.

Context (TC : gmap string (gmap Z level_content)) (py_lower : string → string).
Local Abbreviation handle := (handle TC py_lower py_int).
Local Abbreviation run_script := (run_script TC py_lower py_int).
Local Abbreviation sessions_ok := (sessions_ok TC).

Lemma run_script_snapshot script : ∀ w,
  sessions_ok w →
  (tutor_state w = ∅ ∧ state_file w = None) ∨ state_file w = Some (tutor_state w) →
  let w' := (run_script script w).2 in
  (tutor_state w' = ∅ ∧ state_file w' = None) ∨ state_file w' = Some (tutor_state w').
Proof.
  induction script as [|[uid cmd] script IH]; intros w Hw Hsnap; [done|].
  intros w'. subst w'. rewrite run_script_cons. cbn [snd].
  apply IH; [by apply handle_ok|].
  destruct (handle_replies_and_saves TC py_lower py_int uid cmd w Hw) as [_ [->|Hs]];
    [done | by right].
Qed.

(** X23. No progress is lost at a restart: after any sequence of commands
    of a process that started without sessions, loading the snapshot on
    disk into a new process gives exactly the sessions the old process
    had in memory (every write of the snapshot having succeeded). *)
Theorem restart_restores_sessions script doc :
  let w := (run_script script initial_world).2 in
  on_disk py_str w doc →
  tutor_state (load_state doc initial_world) = tutor_state w.
Proof.
  intros w Hdisk. unfold on_disk in Hdisk.
  destruct (run_script_snapshot script initial_world) as [[Hts Hsf]|Hsf];
    [apply initial_world_ok | by left | |].
  - fold w in Hts, Hsf. rewrite Hsf in Hdisk. subst doc. by rewrite Hts.
  - fold w in Hsf. rewrite Hsf in Hdisk. destruct Hdisk as (items & -> & Hd).
    by apply load_state_dumped.
Qed.

End load_state_facts.

Lemma decimal_int_str z : decimal_int (decimal_str z) = Some z.
Proof.
  unfold decimal_int, decimal_str.
  rewrite DecimalString.NilZero.isi.
  - simpl. f_equal. apply DecimalZ.of_to.
  - destruct z as [|p|p]; simpl; try discriminate.
    intros [= H]. by apply DecimalPos.Unsigned.to_uint_nonnil in H.
  - destruct z as [|p|p]; simpl; try discriminate.
    intros [= H]. by apply DecimalPos.Unsigned.to_uint_nonnil in H.
Qed.

Lemma two_user_members_dumped :
  dumped_as decimal_str (tutor_state two_user_world) two_user_members.
Proof.
  exists [(8, {| lang := "javascript"; level := 0; module_idx := 0;
                 quiz_idx := 0; score := 0 |});
          (7, {| lang := "python"; level := 0; module_idx := 1;
                 quiz_idx := 0; score := 0 |})].
  split; [|vm_compute; reflexivity].
  vm_compute. first [reflexivity | apply perm_swap].
Qed.

Lemma load_state_inverts_save_state_witness :
  tutor_state (load_state decimal_int (StateDocument (Some two_user_members)) initial_world)
  = tutor_state two_user_world.
Proof.
  apply (load_state_inverts_save_state decimal_int decimal_str decimal_int_str
           two_user_world (tutor_state two_user_world) two_user_members).
  - reflexivity.
  - exact two_user_members_dumped.
Defined.

Lemma restart_restores_sessions_witness :
  tutor_state (load_state decimal_int (StateDocument (Some two_user_members)) initial_world)
  = tutor_state
      (run_script catalog_excerpt ascii_lower decimal_int
         [(7, Learn ["Python"; "0"]); (8, Learn ["javascript"; "0"]); (7, Next)]
         initial_world).2.
Proof.
  apply (restart_restores_sessions decimal_int decimal_str decimal_int_str
           catalog_excerpt ascii_lower
           [(7, Learn ["Python"; "0"]); (8, Learn ["javascript"; "0"]); (7, Next)]
           (StateDocument (Some two_user_members))).
  unfold on_disk.
  change (state_file _) with (Some (tutor_state two_user_world)).
  exists two_user_members. split; [reflexivity | exact two_user_members_dumped].
Defined.

(** ** Media: the size of what is analysed *)

Lemma string_length_app (s t : string) :
  String.length (s +:+ t) = (String.length s + String.length t)%nat.
Proof. induction s as [|c s IH]; simpl; [done | by rewrite IH]. Qed.

Lemma substring_0_length (k : nat) : ∀ s,
  (String.length (String.substring 0 k s) ≤ k)%nat.
Proof.
  induction k as [|k IH]; intros [|c s]; simpl; try lia.
  specialize (IH s). lia.
Qed.

Lemma py_prefix_length n s :
  0 ≤ n → Z.of_nat (String.length (py_prefix n s)) ≤ n.
Proof.
  intros Hn. unfold py_prefix. rewrite bool_decide_eq_false_2 by lia.
  pose proof (substring_0_length (Z.to_nat n) s). lia.
Qed.

Lemma _sanitize_text_length E s :
  0 ≤ MAX_TEXT_CHARS E →
  (∀ t, (String.length (str_strip E t) ≤ String.length t)%nat) →
  Z.of_nat (String.length (_sanitize_text E s)) ≤ MAX_TEXT_CHARS E + 25.
Proof.
  intros Hmax Hstrip. unfold _sanitize_text. case_bool_decide as Hlen.
  - etransitivity; [apply inj_le, Hstrip|].
    rewrite string_length_app. pose proof (py_prefix_length (MAX_TEXT_CHARS E) s Hmax).
    simpl. lia.
  - pose proof (Hstrip s). lia.
Qed.

Lemma replies_with_bind {A B : Type} (P : B → Prop) (c : M A) (k : A → M (option B)) :
  (∀ a, replies_with P (k a)) → replies_with P (c ≫= k).
Proof.
  intros Hk w r. unfold mbind, M_bind.
  destruct (c w) as [[a|e] w1]; simpl; [apply Hk | done].
Qed.

Lemma replies_with_ret {A : Type} (P : A → Prop) (r : option A) :
  (∀ x, r = Some x → P x) → replies_with P (mret r).
Proof. intros Hr w x [= ->]. by apply Hr. Qed.

Lemma bounded_analysis_sanitized E s :
  0 ≤ MAX_TEXT_CHARS E →
  (∀ t, (String.length (str_strip E t) ≤ String.length t)%nat) →
  _sanitize_text E s ≠ EmptyString →
  bounded_analysis E (MsgAnalysis (analyze_code E (_sanitize_text E s))).
Proof.
  intros Hmax Hstrip Hne a [= <-]. eexists. split; [done|]. split; [done|].
  by apply _sanitize_text_length.
Qed.

(** X24. Whatever a text, photo or document request contains, an analysis
    sent back is the analysis of a non-empty text of at most
    [MAX_TEXT_CHARS + 25] characters (the limit plus the truncation
    notice), provided the limit is not negative. *)
Theorem analysed_text_is_bounded E ev w a :
  0 ≤ MAX_TEXT_CHARS E →
  (∀ t, (String.length (str_strip E t) ≤ String.length t)%nat) →
  (handle_event E ev w).1 = Val (Some (MsgAnalysis a)) →
  ∃ t, a = analyze_code E t ∧ t ≠ EmptyString
       ∧ Z.of_nat (String.length t) ≤ MAX_TEXT_CHARS E + 25.
Proof.
  intros Hmax Hstrip Hev.
  assert (Hstrip_nil : str_strip E EmptyString = EmptyString).
  { pose proof (Hstrip EmptyString) as H. destruct (str_strip E EmptyString); [done | simpl in H; lia]. }
  assert (Hnonblank : ∀ s, str_strip E s ≠ EmptyString → s ≠ EmptyString).
  { intros s Hs ->. by apply Hs. }
  cut (replies_with (bounded_analysis E) (handle_event E ev)).
  { intros Hall. by apply (Hall w (MsgAnalysis a) Hev a). }
  clear w a Hev. destruct ev as [uid text|uid photos|uid doc]; simpl.
  - unfold handle_text. apply replies_with_bind.
    intros [|]; [by apply replies_with_ret; intros x [= <-] a|].
    case_bool_decide as Hnil; [by apply replies_with_ret|].
    apply replies_with_bind. intros _. apply replies_with_ret. intros x [= <-].
    by apply bounded_analysis_sanitized.
  - unfold handle_photo. apply replies_with_bind.
    intros [|]; [by apply replies_with_ret; intros x [= <-] a|].
    destruct (last photos) as [best|]; [|by apply replies_with_ret].
    apply replies_with_bind.
    intros [[p|]|e];
      try (apply replies_with_bind; intros _; by apply replies_with_ret; intros x [= <-] a).
    apply replies_with_bind. intros content.
    apply replies_with_bind. intros extracted.
    case_bool_decide as Hnil.
    + apply replies_with_bind. intros _. by apply replies_with_ret; intros x [= <-] a.
    + apply replies_with_bind. intros _. apply replies_with_bind. intros _.
      apply replies_with_ret. intros x [= <-].
      apply bounded_analysis_sanitized; auto.
  - unfold handle_document. apply replies_with_bind.
    intros [|]; [by apply replies_with_ret; intros x [= <-] a|].
    destruct doc as [d|]; [|by apply replies_with_ret].
    destruct (negb _); [by apply replies_with_ret; intros x [= <-] a|].
    apply replies_with_bind.
    intros [[p|]|e];
      try (apply replies_with_bind; intros _; by apply replies_with_ret; intros x [= <-] a).
    apply replies_with_bind. intros content.
    case_bool_decide as Hnil.
    + apply replies_with_bind. intros _. by apply replies_with_ret; intros x [= <-] a.
    + apply replies_with_bind. intros _. apply replies_with_bind. intros _.
      apply replies_with_ret. intros x [= <-].
      apply bounded_analysis_sanitized; auto.
Qed.

Lemma rev_app_length (s : string) : ∀ t,
  String.length (String.rev_app s t) = (String.length s + String.length t)%nat.
Proof.
  induction s as [|c s IH]; intros t; simpl; [done|]. rewrite IH. simpl. lia.
Qed.

Lemma lstrip_blank_length (s : string) :
  (String.length (lstrip_blank s) ≤ String.length s)%nat.
Proof.
  induction s as [|c s IH]; simpl; [done|].
  destruct c as [[] [] [] [] [] [] [] []]; simpl; lia.
Qed.

Lemma strip_blank_length (s : string) :
  (String.length (strip_blank s) ≤ String.length s)%nat.
Proof.
  unfold strip_blank, String.rev. rewrite rev_app_length. simpl.
  etransitivity; [rewrite Nat.add_0_r; apply lstrip_blank_length|].
  rewrite rev_app_length. simpl. rewrite Nat.add_0_r. apply lstrip_blank_length.
Qed.

Lemma analysed_text_is_bounded_witness :
  ∃ t, ("Revisa: print(x" : string) = analyze_code sample_env t ∧ t ≠ EmptyString
       ∧ Z.of_nat (String.length t) ≤ MAX_TEXT_CHARS sample_env + 25.
Proof.
  apply (analysed_text_is_bounded sample_env (EvText 7 "  print(x ") initial_media_world).
  - vm_compute. discriminate.
  - exact strip_blank_length.
  - vm_compute. reflexivity.
Defined.

(** ** Configuration: the two readers of [config.json] *)

Lemma load_config_lookup env f cfg k :
  common.load_config env f = Some cfg →
  k ∈ ["CODE_AI_API_URL"; "CODE_AI_API_KEY"; "BOT_TOKEN"; "TWILIO_ACCOUNT_SID";
       "TWILIO_AUTH_TOKEN"; "TWILIO_WHATSAPP_NUMBER"]%string →
  cfg !! k
  = Some (common.environ_get env k
            (common.dict_get (match f with common.ConfigObject d => d | _ => ∅ end) k)).
Proof.
  intros Hcfg Hk.
  assert (Hsome : common.load_config env f ≠ None) by congruence.
  destruct f as [| | |data]; try done; simpl in Hcfg; injection Hcfg as <-;
    repeat (apply elem_of_cons in Hk as [->|Hk]; [by vm_compute|]);
    by apply elem_of_nil in Hk.
Qed.

(** X25. [load_config] fails only on a [config.json] that is valid JSON
    but not an object, and otherwise returns exactly its six keys.  And
    the two readers of the token agree: whenever [load_config] has a
    usable [BOT_TOKEN], the [BOT_TOKEN] of [telegram_bot] is that very
    value. *)
Theorem bot_token_agrees_with_load_config env f :
  match common.load_config env f with
  | None => f = common.ConfigNotObject
  | Some cfg =>
      dom cfg = list_to_set
        ["CODE_AI_API_URL"; "CODE_AI_API_KEY"; "BOT_TOKEN"; "TWILIO_ACCOUNT_SID";
         "TWILIO_AUTH_TOKEN"; "TWILIO_WHATSAPP_NUMBER"]%string
      ∧ ∃ v, cfg !! "BOT_TOKEN"%string = Some v
             ∧ (common.truthy v = true → BOT_TOKEN env f = v)
  end.
Proof.
  destruct (common.load_config env f) as [cfg|] eqn:Hcfg;
    [|by destruct f].
  split.
  - destruct f as [| | |data]; try done; simpl in Hcfg; injection Hcfg as <-;
      rewrite !dom_insert_L, dom_singleton_L; set_solver.
  - rewrite (load_config_lookup env f cfg "BOT_TOKEN" Hcfg) by repeat constructor.
    eexists. split; [done|]. unfold BOT_TOKEN, common.environ_get.
    destruct (env !! "BOT_TOKEN"%string) as [s|]; simpl.
    + by intros ->.
    + destruct f as [| | |data]; try done.
      unfold common.py_or. by intros ->.
Qed.

(** ** The WhatsApp webhook *)

Section webhook_facts.
Context (CFG : gmap string common.py_value).
Context (requests_post : nat → common.py_value → common.py_value → string → string + string).
Context (requests_get : nat → option string → option (list byte)).
Context (ocr_image_path : list byte → string).
Context (str_strip : string → string) (py_int : string → option Z).

Local Abbreviation analyze_code := (common.analyze_code CFG requests_post).
Local Abbreviation ocr_image_url := (common.ocr_image_url requests_get ocr_image_path).
Local Abbreviation whatsapp_webhook :=
  (whatsapp_bot.whatsapp_webhook CFG requests_post requests_get ocr_image_path
     str_strip py_int).
Local Abbreviation serve :=
  (whatsapp_bot.serve CFG requests_post requests_get ocr_image_path str_strip py_int).

Lemma serve_cons req rest w :
  serve (req :: rest) w
  = ((whatsapp_webhook req w).1 :: (serve rest (whatsapp_webhook req w).2).1,
     (serve rest (whatsapp_webhook req w).2).2).
Proof.
  simpl. destruct (whatsapp_webhook req w) as [r w1]. simpl.
  by destruct (serve rest w1).
Qed.

Lemma serve_app reqs1 : ∀ reqs2 w,
  (serve (reqs1 ++ reqs2) w).2 = (serve reqs2 (serve reqs1 w).2).2.
Proof.
  induction reqs1 as [|req reqs1 IH]; intros reqs2 w; [done|].
  rewrite <- app_comm_cons, !serve_cons. cbn [snd]. apply IH.
Qed.

Lemma analyze_code_files text w :
  common.files (analyze_code text w).2 = common.files w
  ∧ common.names (analyze_code text w).2 = common.names w
  ∧ common.gets (analyze_code text w).2 = common.gets w.
Proof.
  unfold common.analyze_code. destruct (_ || _); [done|].
  by destruct (requests_post _ _ _ _).
Qed.

(** The files on disk carry names already handed out, and there are as
    many of them as fetches that delivered a body. *)
Lemma webhook_files_step req w :
  (∀ p, is_Some (common.files w !! p) → (p < common.names w)%nat) →
  size (common.files w) = length (filter (λ g, g.2 = true) (common.gets w)) →
  let w' := (whatsapp_webhook req w).2 in
  (∀ p, is_Some (common.files w' !! p) → (p < common.names w')%nat)
  ∧ size (common.files w') = length (filter (λ g, g.2 = true) (common.gets w'))
  ∧ common.files w ⊆ common.files w'.
Proof.
  intros Hfresh Hsize. unfold whatsapp_bot.whatsapp_webhook.
  destruct (py_int _) as [n|]; [|done].
  case_bool_decide as Hn.
  - destruct (ocr_image_url (whatsapp_bot.MediaUrl0 req) w) as [extracted w1] eqn:Hocr.
    assert (Hw1 : (∀ p, is_Some (common.files w1 !! p) → (p < common.names w1)%nat)
                  ∧ size (common.files w1)
                    = length (filter (λ g, g.2 = true) (common.gets w1))
                  ∧ common.files w ⊆ common.files w1).
    { unfold common.ocr_image_url in Hocr.
      destruct (requests_get _ _) as [content|]; injection Hocr as <- <-; simpl.
      - assert (Hnew : common.files w !! common.names w = None).
        { apply eq_None_not_Some. intros Hs. apply Hfresh in Hs. lia. }
        split; [|split].
        + intros p. rewrite lookup_insert. case_decide; [lia|].
          intros Hp. apply Hfresh in Hp. lia.
        + rewrite map_size_insert_None by done.
          rewrite filter_app, length_app, filter_cons_True by done. simpl. lia.
        + by apply insert_subseteq.
      - split; [done|]. split; [|done].
        rewrite filter_app, length_app, filter_cons_False by done. simpl. lia. }
    case_bool_decide; [done|].
    destruct (analyze_code extracted w1) as [a w2] eqn:Ha.
    destruct (analyze_code_files extracted w1) as (Hf & Hnm & Hg).
    rewrite Ha in Hf, Hnm, Hg. simpl in *. by rewrite Hf, Hnm, Hg.
  - case_bool_decide; [|done].
    destruct (analyze_code _ w) as [a w1] eqn:Ha.
    destruct (analyze_code_files (str_strip (default EmptyString (whatsapp_bot.Body req))) w)
      as (Hf & Hnm & Hg).
    rewrite Ha in Hf, Hnm, Hg. simpl in *. by rewrite Hf, Hnm, Hg.
Qed.

Lemma serve_files reqs : ∀ w,
  (∀ p, is_Some (common.files w !! p) → (p < common.names w)%nat) →
  size (common.files w) = length (filter (λ g, g.2 = true) (common.gets w)) →
  let w' := (serve reqs w).2 in
  (∀ p, is_Some (common.files w' !! p) → (p < common.names w')%nat)
  ∧ size (common.files w') = length (filter (λ g, g.2 = true) (common.gets w'))
  ∧ common.files w ⊆ common.files w'.
Proof.
  induction reqs as [|req reqs IH]; intros w Hfresh Hsize; [done|].
  intros w'. subst w'. rewrite serve_cons. cbn [snd].
  destruct (webhook_files_step req w Hfresh Hsize) as (Hfresh1 & Hsize1 & Hsub1).
  destruct (IH _ Hfresh1 Hsize1) as (Hfresh2 & Hsize2 & Hsub2).
  split; [done|]. split; [done|]. by etransitivity.
Qed.

(** X26. The webhook never removes or rewrites a temporary file: over any
    sequence of requests served from start-up, the files on disk after a
    part of the sequence are still there, unchanged, after the rest, and
    their number is the number of image fetches that delivered a body. *)
Theorem webhook_temp_files_accumulate reqs1 reqs2 :
  let w1 := (serve reqs1 common.initial).2 in
  let w2 := (serve (reqs1 ++ reqs2) common.initial).2 in
  common.files w1 ⊆ common.files w2
  ∧ size (common.files w2) = length (filter (λ g, g.2 = true) (common.gets w2)).
Proof.
  intros w1 w2. subst w1 w2. rewrite serve_app.
  assert (Hfresh : ∀ p, is_Some (common.files common.initial !! p)
                        → (p < common.names common.initial)%nat).
  { intros p [x Hx]. simpl in Hx. by rewrite lookup_empty in Hx. }
  destruct (serve_files reqs1 common.initial Hfresh) as (Hfresh1 & Hsize1 & _); [done|].
  destruct (serve_files reqs2 _ Hfresh1 Hsize1) as (_ & Hsize2 & Hsub2).
  done.
Qed.

(** X27. An image takes precedence over the text: the answer to a request
    that announces media, and the state it leaves, do not depend on the
    text of the message; what such a request posts to the model, if
    anything, is the text read off the image. *)
Theorem webhook_media_precedes_text req body' w n :
  py_int (default "0"%string (whatsapp_bot.NumMedia req)) = Some n →
  n > 0 →
  whatsapp_webhook
    {| whatsapp_bot.Body := body'; whatsapp_bot.NumMedia := whatsapp_bot.NumMedia req;
       whatsapp_bot.MediaUrl0 := whatsapp_bot.MediaUrl0 req |} w
  = whatsapp_webhook req w
  ∧ ∀ text, text ∈ common.posts (whatsapp_webhook req w).2 →
            text ∈ common.posts w ∨ text = (ocr_image_url (whatsapp_bot.MediaUrl0 req) w).1.
Proof.
  intros Hint Hn. unfold whatsapp_bot.whatsapp_webhook. simpl. rewrite Hint.
  rewrite bool_decide_eq_true_2 by done. split; [done|].
  intros text.
  destruct (ocr_image_url (whatsapp_bot.MediaUrl0 req) w) as [extracted w1] eqn:Hocr.
  assert (Hp : common.posts w1 = common.posts w).
  { unfold common.ocr_image_url in Hocr.
    by destruct (requests_get _ _); injection Hocr as <- <-. }
  case_bool_decide; simpl; [rewrite Hp; by left|].
  unfold common.analyze_code. destruct (_ || _); simpl; [rewrite Hp; by left|].
  destruct (requests_post _ _ _ _); simpl; rewrite Hp, elem_of_app, list_elem_of_singleton;
    (intros [?| ->]; [by left | by right]).
Qed.

Lemma webhook_without_config req w :
  common.truthy (common.AI_URL CFG) = false ∨ common.truthy (common.AI_KEY CFG) = false →
  common.posts (whatsapp_webhook req w).2 = common.posts w
  ∧ ∀ a, (whatsapp_webhook req w).1 = Some (whatsapp_bot.Analysis a)
         → a = common.ConfigMissing.
Proof.
  intros Hcfg.
  assert (Hmiss : ∀ text w0, analyze_code text w0 = (common.ConfigMissing, w0)).
  { intros text w0. unfold common.analyze_code.
    destruct Hcfg as [-> | ->]; simpl; [done | by rewrite orb_true_r]. }
  unfold whatsapp_bot.whatsapp_webhook.
  destruct (py_int _) as [n|]; [|done].
  case_bool_decide.
  - destruct (ocr_image_url _ w) as [extracted w1] eqn:Hocr.
    assert (Hp : common.posts w1 = common.posts w).
    { unfold common.ocr_image_url in Hocr.
      by destruct (requests_get _ _); injection Hocr as <- <-. }
    case_bool_decide; [done|]. rewrite Hmiss. simpl. split; [done|]. by intros a [= <-].
  - case_bool_decide; [|done]. rewrite Hmiss. simpl. split; [done|]. by intros a [= <-].
Qed.

End webhook_facts.

(** X28. A key of the model that is empty in the environment, or absent
    from the environment and missing or empty in [config.json], keeps the
    webhook off the network of the model: whatever the requests, nothing
    is ever posted and every analysis sent back is the notice that the
    configuration is missing.  An empty environment variable has this
    effect even when [config.json] holds the key. *)
Theorem webhook_without_key_never_posts env f cfg k
    requests_post requests_get ocr_image_path str_strip py_int reqs w :
  common.load_config env f = Some cfg →
  k = "CODE_AI_API_URL"%string ∨ k = "CODE_AI_API_KEY"%string →
  env !! k = Some EmptyString
  ∨ (env !! k = None
     ∧ ∀ data, f = common.ConfigObject data → common.truthy (common.dict_get data k) = false) →
  let served := whatsapp_bot.serve cfg requests_post requests_get ocr_image_path
                  str_strip py_int reqs w in
  common.posts served.2 = common.posts w
  ∧ Forall (λ r, ∀ a, r = Some (whatsapp_bot.Analysis a) → a = common.ConfigMissing)
      served.1.
Proof.
  intros Hcfg Hk Hmissing served. subst served.
  assert (Hfalsy : common.truthy (common.dict_get cfg k) = false).
  { unfold common.dict_get.
    rewrite (load_config_lookup env f cfg k Hcfg)
      by (destruct Hk as [-> | ->]; repeat constructor).
    simpl. unfold common.environ_get.
    destruct Hmissing as [-> | [-> Hfile]]; [done|].
    destruct f as [| | |data]; try done. by apply Hfile. }
  assert (Hoff : common.truthy (common.AI_URL cfg) = false
                 ∨ common.truthy (common.AI_KEY cfg) = false).
  { destruct Hk as [-> | ->]; [by left | by right]. }
  clear Hcfg Hmissing Hfalsy. revert w.
  induction reqs as [|req reqs IH]; intros w; [by split|].
  rewrite serve_cons. cbn [fst snd].
  destruct (webhook_without_config cfg requests_post requests_get ocr_image_path
              str_strip py_int req w Hoff) as [Hposts Hreply].
  destruct (IH (whatsapp_bot.whatsapp_webhook cfg requests_post requests_get
                  ocr_image_path str_strip py_int req w).2) as [Hposts' Hreplies].
  split; [congruence|]. by constructor.
Qed.

Lemma webhook_media_precedes_text_witness :
  whatsapp_bot.whatsapp_webhook empty_key_cfg echo_post url_body string_of_list_byte
    strip_blank decimal_int
    {| whatsapp_bot.Body := None; whatsapp_bot.NumMedia := Some "1"%string;
       whatsapp_bot.MediaUrl0 := Some "Traceback"%string |} common.initial
  = whatsapp_bot.whatsapp_webhook empty_key_cfg echo_post url_body string_of_list_byte
      strip_blank decimal_int photo_request common.initial.
Proof.
  apply (webhook_media_precedes_text empty_key_cfg echo_post url_body string_of_list_byte
           strip_blank decimal_int photo_request None common.initial 1).
  - vm_compute. reflexivity.
  - lia.
Defined.

Lemma webhook_without_key_never_posts_witness :
  common.posts
    (whatsapp_bot.serve empty_key_cfg echo_post url_body string_of_list_byte
       strip_blank decimal_int [photo_request; text_request] common.initial).2
  = [].
Proof.
  apply (webhook_without_key_never_posts empty_key_environ full_config empty_key_cfg
           "CODE_AI_API_KEY" echo_post url_body string_of_list_byte strip_blank
           decimal_int [photo_request; text_request] common.initial).
  - vm_compute. reflexivity.
  - by right.
  - left. vm_compute. reflexivity.
Defined.

Lemma load_state_all_or_nothing_witness :
  distinct_names two_spellings
  ∧ tutor_state (load_state decimal_int two_spellings two_user_world) !! 7
    = Some {| lang := "javascript"; level := 0; module_idx := 1;
              quiz_idx := 0; score := 0 |}
  ∧ tutor_state (load_state decimal_int two_spellings two_user_world) !! 8
    = tutor_state two_user_world !! 8.
Proof.
  assert (Hnames : distinct_names two_spellings).
  { unfold distinct_names, two_spellings. apply (bool_decide_unpack _). by vm_compute. }
  split; [exact Hnames|].
  destruct (load_state_all_or_nothing decimal_int two_spellings two_user_world Hnames)
    as [_ Hload].
  cbn [two_spellings] in Hload.
  rewrite bool_decide_eq_true_2 in Hload
    by (repeat constructor; by vm_compute; eexists).
  split; [rewrite (Hload 7) | rewrite (Hload 8)]; by vm_compute.
Defined.
